(** * Omni-AI: the live voice session and the chat orchestrator

    A shallow embedding of the code of the repository:

    - [AudioUtils]: the base64 transcoding of [services/audioUtils]
      ([arrayBufferToBase64], [b64ToUint8Array]);
    - [LiveSession]: the class [LiveSession] of [services/geminiService]
      ([connect], [sendAudio], [disconnect] and the SDK callbacks);
    - [LiveInterface]: the component [components/LiveInterface.tsx]
      ([startSession], [playAudio], [stopSession]);
    - [Types]: the messages, blocks and stream updates of [types.ts];
    - [GeminiService]: the generator [streamOrchestrateResponse] of
      [services/geminiService] with [generateImage] and [generateAudio];
    - [AudioPlayer]: what [play] of [components/ChatMessage.tsx] takes from
      the url of an audio block;
    - [App]: [handleFileSelect] and [handleSend] of [App.tsx], with the
      updaters [handleSend] queues and the renders of React that run them.

    JavaScript numbers that hold times (the playback cursor, the output
    clock, buffer durations) are rationals [Q], as every double is.  The one
    sum the code computes on them, the advance of the cursor, is exact in
    [playAudio_resume], [step] and [run], and is computed by a parameter
    [add], the rounding addition of JavaScript, in [playAudio_resume_with],
    [step_with] and [run_with], on which the statements about exact times
    rest.  The asynchronous functions are split at each [await] into the
    part that runs before it and the continuation that runs when the
    awaited promise settles. *)

From Stdlib Require Import ZArith NArith QArith Qminmax String Ascii List Lia.
From Stdlib.Strings Require Import Byte.
From stdpp Require Import list pretty.
Import ListNotations.

Local Open Scope string_scope.
Local Open Scope list_scope.

(** ** services/audioUtils: base64 transcoding *)

Module AudioUtils.

Local Open Scope N_scope.

(** The 64 digits of the standard alphabet, and the padding character. *)
Definition alphabet : string :=
  "ABCDEFGHIJKLMNOPQRSTUVWXYZabcdefghijklmnopqrstuvwxyz0123456789+/".

Definition pad : ascii := "="%char.

Definition sextet_char (s : N) : ascii :=
  match String.get (N.to_nat s) alphabet with
  | Some c => c
  | None => pad
  end.

Fixpoint index_from (i : N) (c : ascii) (s : string) : option N :=
  match s with
  | EmptyString => None
  | String x s' => if Ascii.eqb c x then Some i else index_from (N.succ i) c s'
  end.

Definition char_sextet (c : ascii) : option N := index_from 0 c alphabet.

(** Modelled from the spec: [services/audioUtils] is not among the sources;
    the spec (4.1) describes [bytesToBase64] as the standard reversible
    binary-to-text transcoding.  This is the standard base64 encoder: three
    bytes give four digits, a last group of one or two bytes is padded. *)
Fixpoint arrayBufferToBase64 (buffer : list byte) : string :=
  match buffer with
  | [] => ""
  | [x] =>
      let a := Byte.to_N x in
      String (sextet_char (a / 4))
        (String (sextet_char ((a mod 4) * 16))
           (String pad (String pad "")))
  | [x; y] =>
      let a := Byte.to_N x in
      let b := Byte.to_N y in
      String (sextet_char (a / 4))
        (String (sextet_char ((a mod 4) * 16 + b / 16))
           (String (sextet_char ((b mod 16) * 4))
              (String pad "")))
  | x :: y :: z :: rest =>
      let a := Byte.to_N x in
      let b := Byte.to_N y in
      let c := Byte.to_N z in
      String (sextet_char (a / 4))
        (String (sextet_char ((a mod 4) * 16 + b / 16))
           (String (sextet_char ((b mod 16) * 4 + c / 64))
              (String (sextet_char (c mod 64))
                 (arrayBufferToBase64 rest))))
  end.

Fixpoint bytes_of (ns : list N) : option (list byte) :=
  match ns with
  | [] => Some []
  | n :: ns' =>
      match Byte.of_N n, bytes_of ns' with
      | Some b, Some bs => Some (b :: bs)
      | _, _ => None
      end
  end.

(** Modelled from the spec: [services/audioUtils] is not among the sources;
    the spec (4.1) describes [base64ToBytes] as the inverse transcoding.
    This is the standard base64 decoder; [None] stands for the exception
    the platform decoder raises on text that is not base64. *)
Fixpoint b64ToUint8Array (base64 : string) : option (list byte) :=
  match base64 with
  | "" => Some []
  | String c1 (String c2 (String c3 (String c4 rest))) =>
      match char_sextet c1, char_sextet c2 with
      | Some s1, Some s2 =>
          if Ascii.eqb c3 pad then
            if Ascii.eqb c4 pad && String.eqb rest "" then
              bytes_of [s1 * 4 + s2 / 16]
            else None
          else
            match char_sextet c3 with
            | Some s3 =>
                if Ascii.eqb c4 pad then
                  if String.eqb rest "" then
                    bytes_of [s1 * 4 + s2 / 16; (s2 mod 16) * 16 + s3 / 4]
                  else None
                else
                  match char_sextet c4, b64ToUint8Array rest with
                  | Some s4, Some tail =>
                      match bytes_of [s1 * 4 + s2 / 16;
                                      (s2 mod 16) * 16 + s3 / 4;
                                      (s3 mod 4) * 64 + s4] with
                      | Some group => Some (group ++ tail)
                      | None => None
                      end
                  | _, _ => None
                  end
            | None => None
            end
      | _, _ => None
      end
  | _ => None
  end.

End AudioUtils.

(** ** services/geminiService: class LiveSession *)

Module LiveSession.

(** State of a promise. *)
Inductive Settlement := Pending | Fulfilled | Rejected.

(** The argument of [session.sendRealtimeInput]: the [media] blob. *)
Record Media := { mimeType : string; data : string }.

(** One call of [ai.live.connect]: the promise it returned, the [sendAudio]
    calls suspended at [await this.sessionPromise] (in the order they reached
    the [await]), and whether the remote end has closed the session. *)
Record Connection := {
  settlement : Settlement;
  reactions : list Media;
  remote_closed : bool
}.

(** The object and the part of the runtime it talks to.  [sessionPromise]
    is the private field ([None] is [null], [Some p] the promise of
    connection [p]); [microtasks] is the job queue holding resumed
    continuations; [sent] lists the calls of [sendRealtimeInput] with the
    session they were made on; [unhandled] counts rejected promises that
    nobody handles. *)
Record State := {
  sessionPromise : option nat;
  connections : list Connection;
  microtasks : list (nat * Media);
  sent : list (nat * Media);
  console : list string;
  unhandled : nat
}.

(** The two callbacks given to the constructor. *)
Inductive Callback := onAudioData (data : string) | onClose.

(** [new LiveSession(onAudioData, onClose)] *)
Definition new : State :=
  {| sessionPromise := None; connections := []; microtasks := [];
     sent := []; console := []; unhandled := 0 |}.

Definition set_sessionPromise (v : option nat) (st : State) : State :=
  {| sessionPromise := v; connections := connections st;
     microtasks := microtasks st; sent := sent st; console := console st;
     unhandled := unhandled st |}.

Definition set_connections (v : list Connection) (st : State) : State :=
  {| sessionPromise := sessionPromise st; connections := v;
     microtasks := microtasks st; sent := sent st; console := console st;
     unhandled := unhandled st |}.

Definition set_microtasks (v : list (nat * Media)) (st : State) : State :=
  {| sessionPromise := sessionPromise st; connections := connections st;
     microtasks := v; sent := sent st; console := console st;
     unhandled := unhandled st |}.

Definition set_sent (v : list (nat * Media)) (st : State) : State :=
  {| sessionPromise := sessionPromise st; connections := connections st;
     microtasks := microtasks st; sent := v; console := console st;
     unhandled := unhandled st |}.

Definition log (line : string) (st : State) : State :=
  {| sessionPromise := sessionPromise st; connections := connections st;
     microtasks := microtasks st; sent := sent st;
     console := console st ++ [line]; unhandled := unhandled st |}.

Definition reject_unhandled (st : State) : State :=
  {| sessionPromise := sessionPromise st; connections := connections st;
     microtasks := microtasks st; sent := sent st; console := console st;
     unhandled := S (unhandled st) |}.

(** [connect]: [this.sessionPromise = this.ai.live.connect({...})]. *)
Definition connect (st : State) : State :=
  set_sessionPromise (Some (length (connections st)))
    (set_connections
       (connections st ++
        [{| settlement := Pending; reactions := []; remote_closed := false |}])
       st).

(** [await p] in [sendAudio], with [job] what the continuation will send:
    on a pending promise the continuation is appended to its reactions, on a
    settled one it is queued as a microtask. *)
Definition await (p : nat) (job : Media) (st : State) : State :=
  match connections st !! p with
  | Some c =>
      match settlement c with
      | Pending =>
          set_connections
            (<[p := {| settlement := Pending;
                       reactions := reactions c ++ [job];
                       remote_closed := remote_closed c |}]> (connections st))
            st
      | _ => set_microtasks (microtasks st ++ [(p, job)]) st
      end
  | None => st
  end.

Section Encoder.

(** [Float32Array] and [convertFloat32ToInt16] of [services/audioUtils] are
    not among the sources: the sample frame is an abstract type, and the
    conversion (which yields the bytes of the 16-bit buffer) a parameter. *)
Context {Float32Array : Type}.
Variable convertFloat32ToInt16 : Float32Array -> list byte.

(** What [sendAudio] hands to [sendRealtimeInput] for a frame. *)
Definition realtimeInput (pcmData : Float32Array) : Media :=
  let int16Data := convertFloat32ToInt16 pcmData in
  let base64Data := AudioUtils.arrayBufferToBase64 int16Data in
  {| mimeType := "audio/pcm;rate=16000"; data := base64Data |}.

(** [sendAudio], up to its [await]. *)
Definition sendAudio (pcmData : Float32Array) (st : State) : State :=
  match sessionPromise st with
  | None => st
  | Some p => await p (realtimeInput pcmData) st
  end.

End Encoder.

(** [disconnect]: the body is an [if] with nothing in it. *)
Definition disconnect (st : State) : State :=
  match sessionPromise st with
  | Some _ => st
  | None => st
  end.

(** The promise of connection [p] settles: its reactions become microtasks,
    in order.  A promise settles once. *)
Definition settle (p : nat) (ok : bool) (st : State) : State :=
  match connections st !! p with
  | Some c =>
      match settlement c with
      | Pending =>
          set_microtasks (microtasks st ++ map (pair p) (reactions c))
            (set_connections
               (<[p := {| settlement := if ok then Fulfilled else Rejected;
                          reactions := [];
                          remote_closed := remote_closed c |}]> (connections st))
               st)
      | _ => st
      end
  | None => st
  end.

(** The continuation of [sendAudio] after [await]:
    [session.sendRealtimeInput({ media: ... })] when the promise was
    fulfilled; when it was rejected the [await] throws and the promise of
    [sendAudio] is rejected. *)
Definition resume_sendAudio (job : nat * Media) (st : State) : State :=
  match connections st !! job.1 with
  | Some c =>
      match settlement c with
      | Fulfilled => set_sent (sent st ++ [job]) st
      | Rejected => reject_unhandled st
      | Pending => st
      end
  | None => st
  end.

Fixpoint drain (queue : list (nat * Media)) (st : State) : State :=
  match queue with
  | [] => st
  | job :: queue' => drain queue' (resume_sendAudio job st)
  end.

(** Microtask checkpoint at the end of a task. *)
Definition checkpoint (st : State) : State :=
  drain (microtasks st) (set_microtasks [] st).

(** The callbacks given to [ai.live.connect]. *)
Definition onopen (st : State) : State := log "Live Session Opened" st.

Definition onmessage (audioData : option string) (st : State)
  : State * list Callback :=
  match audioData with
  | Some d => if String.eqb d "" then (st, []) else (st, [onAudioData d])
  | None => (st, [])
  end.

Definition onclose (st : State) : State * list Callback :=
  (log "Live Session Closed" st, [onClose]).

Definition onerror (st : State) : State := log "Live Error" st.

(** The remote end closes connection [p]. *)
Definition close_remote (p : nat) (st : State) : State :=
  match connections st !! p with
  | Some c =>
      set_connections
        (<[p := {| settlement := settlement c; reactions := reactions c;
                   remote_closed := true |}]> (connections st))
        st
  | None => st
  end.

Section Run.

Context {Float32Array : Type}.
Variable convertFloat32ToInt16 : Float32Array -> list byte.

(** Calls made by the owner of the object. *)
Inductive Call :=
| Connect
| SendAudio (pcmData : Float32Array)
| Disconnect.

(** Tasks of the event loop: a run of calls by the owner, a promise of the
    SDK settling, and the SDK invoking one of the callbacks. *)
Inductive Event :=
| Script (calls : list Call)
| Settle (p : nat) (ok : bool)
| Open
| Message (audioData : option string)
| Close (p : nat)
| Error.

Definition call (c : Call) (st : State) : State :=
  match c with
  | Connect => connect st
  | SendAudio pcmData => sendAudio convertFloat32ToInt16 pcmData st
  | Disconnect => disconnect st
  end.

Definition calls (cs : list Call) (st : State) : State :=
  fold_left (fun s c => call c s) cs st.

Definition handle (e : Event) (st : State) : State * list Callback :=
  match e with
  | Script cs => (calls cs st, [])
  | Settle p ok => (settle p ok st, [])
  | Open => (onopen st, [])
  | Message audioData => onmessage audioData st
  | Close p => onclose (close_remote p st)
  | Error => (onerror st, [])
  end.

Definition step (st : State) (e : Event) : State * list Callback :=
  let (st', cbs) := handle e st in (checkpoint st', cbs).

Fixpoint run (st : State) (evs : list Event) : State * list Callback :=
  match evs with
  | [] => (st, [])
  | e :: evs' =>
      let (st1, cbs1) := step st e in
      let (st2, cbs2) := run st1 evs' in
      (st2, cbs1 ++ cbs2)
  end.

(** The frames passed to [sendAudio] during a run, in call order. *)
Definition frames_of_call (c : Call) : list Float32Array :=
  match c with
  | SendAudio pcmData => [pcmData]
  | _ => []
  end.

Definition frames_of (e : Event) : list Float32Array :=
  match e with
  | Script cs => flat_map frames_of_call cs
  | _ => []
  end.

Definition captured (evs : list Event) : list Float32Array :=
  flat_map frames_of evs.

(** The remote end closing a session. *)
Definition is_Close (e : Event) : bool :=
  match e with
  | Close _ => true
  | _ => false
  end.


End Run.

Definition is_onClose (cb : Callback) : bool :=
  match cb with
  | onClose => true
  | onAudioData _ => false
  end.

(** What was delivered to the session of connection [p], in delivery order. *)
Definition for_connection (p : nat) (jobs : list (nat * Media)) : list Media :=
  map snd (List.filter (fun job => Nat.eqb job.1 p) jobs).

Definition delivered (p : nat) (st : State) : list Media :=
  for_connection p (sent st).

Definition reactions_of (p : nat) (st : State) : list Media :=
  match connections st !! p with
  | Some c => reactions c
  | None => []
  end.

(** What connection [p] has been given or still holds: delivered, queued,
    suspended. *)
Definition backlog (p : nat) (st : State) : list Media :=
  delivered p st ++ for_connection p (microtasks st) ++ reactions_of p st.

(** Every backlog is a sublist of the frames captured so far, and a settled
    promise holds no reaction. *)
Definition consistent (st : State) (captured : list Media) : Prop :=
  forall p,
    backlog p st `sublist_of` captured /\
    (forall c, connections st !! p = Some c ->
               settlement c <> Pending -> reactions c = []).

(** Every delivery was made on a session that exists. *)
Definition sent_known (st : State) : Prop :=
  Forall (fun job => (job.1 < length (connections st))%nat) (sent st).

(** The session object as the component keeps it: connected once, with
    nothing queued and no call suspended. *)
Definition quiet (st : State) (c : Connection) : Prop :=
  sessionPromise st = Some 0%nat /\
  connections st = [c] /\
  microtasks st = [] /\
  reactions c = [].


Section NoConnect.

Context {Float32Array : Type}.

(** The task does not call [connect]. *)
Definition connect_free (e : @Event Float32Array) : Prop :=
  match e with
  | Script cs => Forall (fun c => c <> Connect) cs
  | _ => True
  end.

End NoConnect.

End LiveSession.

(** ** components/LiveInterface.tsx *)

Module LiveInterface.

Local Open Scope Q_scope.

(** The [status] of [useState]. *)
Inductive Status := connecting | active | error | disconnected.

(** An [AudioContext]: its sample rate, its [state] and its clock. *)
Inductive ContextState := running | closed.

Record AudioContext := {
  sampleRate : Z;
  state : ContextState;
  currentTime : Q
}.

(** A [MediaStream]: the [readyState] of each of its tracks. *)
Inductive ReadyState := live | ended.

Definition MediaStream := list ReadyState.

(** The [ScriptProcessorNode]: whether [onaudioprocess] is set, whether the
    microphone source feeds it, and whether it is connected to the
    destination. *)
Record ScriptProcessorNode := {
  bufferSize : Z;
  onaudioprocess : bool;
  fed_by_source : bool;
  connected : bool
}.

(** An [AudioBuffer], as far as the component reads it. *)
Record AudioBuffer := { duration : Q }.

(** A call [source.start(when)] on a source node holding [buffer]. *)
Record Start := { when : Q; buffer : AudioBuffer }.

(** Where [startSession] is suspended. *)
Inductive Suspension :=
| NotStarted
| AwaitUserMedia
| AwaitConnect
| Finished.

(** The component: its state hook, its six refs, and what it has in flight
    or has done outside itself.  [decoding] holds the [playAudio] calls
    suspended at [await decodeAudioData(...)], each with its [audioBytes];
    [started] lists the [source.start] calls in the order they were made;
    [unhandled] counts rejected promises that nobody handles. *)
Record State := {
  status : Status;
  sessionRef : option LiveSession.State;
  inputCtxRef : option AudioContext;
  outputCtxRef : option AudioContext;
  nextStartTimeRef : Q;
  processorRef : option ScriptProcessorNode;
  streamRef : option MediaStream;
  suspended : Suspension;
  decoding : list (list byte);
  started : list Start;
  console : list string;
  unhandled : nat
}.

(** The component before its effect runs: [useState('connecting')],
    [useRef(null)] five times and [useRef(0)]. *)
Definition initial : State :=
  {| status := connecting; sessionRef := None; inputCtxRef := None;
     outputCtxRef := None; nextStartTimeRef := 0; processorRef := None;
     streamRef := None; suspended := NotStarted; decoding := [];
     started := []; console := []; unhandled := 0%nat |}.

Definition set_status (v : Status) (st : State) : State :=
  {| status := v; sessionRef := sessionRef st; inputCtxRef := inputCtxRef st;
     outputCtxRef := outputCtxRef st;
     nextStartTimeRef := nextStartTimeRef st;
     processorRef := processorRef st; streamRef := streamRef st;
     suspended := suspended st; decoding := decoding st;
     started := started st; console := console st;
     unhandled := unhandled st |}.

Definition set_sessionRef (v : option LiveSession.State) (st : State) : State :=
  {| status := status st; sessionRef := v; inputCtxRef := inputCtxRef st;
     outputCtxRef := outputCtxRef st;
     nextStartTimeRef := nextStartTimeRef st;
     processorRef := processorRef st; streamRef := streamRef st;
     suspended := suspended st; decoding := decoding st;
     started := started st; console := console st;
     unhandled := unhandled st |}.

Definition set_inputCtxRef (v : option AudioContext) (st : State) : State :=
  {| status := status st; sessionRef := sessionRef st; inputCtxRef := v;
     outputCtxRef := outputCtxRef st;
     nextStartTimeRef := nextStartTimeRef st;
     processorRef := processorRef st; streamRef := streamRef st;
     suspended := suspended st; decoding := decoding st;
     started := started st; console := console st;
     unhandled := unhandled st |}.

Definition set_outputCtxRef (v : option AudioContext) (st : State) : State :=
  {| status := status st; sessionRef := sessionRef st;
     inputCtxRef := inputCtxRef st; outputCtxRef := v;
     nextStartTimeRef := nextStartTimeRef st;
     processorRef := processorRef st; streamRef := streamRef st;
     suspended := suspended st; decoding := decoding st;
     started := started st; console := console st;
     unhandled := unhandled st |}.

Definition set_nextStartTimeRef (v : Q) (st : State) : State :=
  {| status := status st; sessionRef := sessionRef st;
     inputCtxRef := inputCtxRef st; outputCtxRef := outputCtxRef st;
     nextStartTimeRef := v; processorRef := processorRef st;
     streamRef := streamRef st; suspended := suspended st;
     decoding := decoding st; started := started st; console := console st;
     unhandled := unhandled st |}.

Definition set_processorRef (v : option ScriptProcessorNode) (st : State) : State :=
  {| status := status st; sessionRef := sessionRef st;
     inputCtxRef := inputCtxRef st; outputCtxRef := outputCtxRef st;
     nextStartTimeRef := nextStartTimeRef st; processorRef := v;
     streamRef := streamRef st; suspended := suspended st;
     decoding := decoding st; started := started st; console := console st;
     unhandled := unhandled st |}.

Definition set_streamRef (v : option MediaStream) (st : State) : State :=
  {| status := status st; sessionRef := sessionRef st;
     inputCtxRef := inputCtxRef st; outputCtxRef := outputCtxRef st;
     nextStartTimeRef := nextStartTimeRef st;
     processorRef := processorRef st; streamRef := v;
     suspended := suspended st; decoding := decoding st;
     started := started st; console := console st;
     unhandled := unhandled st |}.

Definition set_suspended (v : Suspension) (st : State) : State :=
  {| status := status st; sessionRef := sessionRef st;
     inputCtxRef := inputCtxRef st; outputCtxRef := outputCtxRef st;
     nextStartTimeRef := nextStartTimeRef st;
     processorRef := processorRef st; streamRef := streamRef st;
     suspended := v; decoding := decoding st; started := started st;
     console := console st; unhandled := unhandled st |}.

Definition set_decoding (v : list (list byte)) (st : State) : State :=
  {| status := status st; sessionRef := sessionRef st;
     inputCtxRef := inputCtxRef st; outputCtxRef := outputCtxRef st;
     nextStartTimeRef := nextStartTimeRef st;
     processorRef := processorRef st; streamRef := streamRef st;
     suspended := suspended st; decoding := v; started := started st;
     console := console st; unhandled := unhandled st |}.

Definition set_started (v : list Start) (st : State) : State :=
  {| status := status st; sessionRef := sessionRef st;
     inputCtxRef := inputCtxRef st; outputCtxRef := outputCtxRef st;
     nextStartTimeRef := nextStartTimeRef st;
     processorRef := processorRef st; streamRef := streamRef st;
     suspended := suspended st; decoding := decoding st; started := v;
     console := console st; unhandled := unhandled st |}.

Definition console_error (line : string) (st : State) : State :=
  {| status := status st; sessionRef := sessionRef st;
     inputCtxRef := inputCtxRef st; outputCtxRef := outputCtxRef st;
     nextStartTimeRef := nextStartTimeRef st;
     processorRef := processorRef st; streamRef := streamRef st;
     suspended := suspended st; decoding := decoding st;
     started := started st; console := (console st ++ [line]);
     unhandled := unhandled st |}.

Definition reject_unhandled (st : State) : State :=
  {| status := status st; sessionRef := sessionRef st;
     inputCtxRef := inputCtxRef st; outputCtxRef := outputCtxRef st;
     nextStartTimeRef := nextStartTimeRef st;
     processorRef := processorRef st; streamRef := streamRef st;
     suspended := suspended st; decoding := decoding st;
     started := started st; console := console st;
     unhandled := (S (unhandled st)) |}.

(** *** Statements that may throw

    A command runs on the state and either returns or throws; [>>>] runs the
    second command only when the first returned. *)
Inductive Outcome := Returned | Thrown.

Definition Cmd := State -> State * Outcome.

Definition ret : Cmd := fun st => (st, Returned).

Definition throw : Cmd := fun st => (st, Thrown).

Definition modify (f : State -> State) : Cmd := fun st => (f st, Returned).

Definition seq (c1 c2 : Cmd) : Cmd :=
  fun st =>
    match c1 st with
    | (st1, Returned) => c2 st1
    | (st1, Thrown) => (st1, Thrown)
    end.

Notation "c1 >>> c2" := (seq c1 c2) (at level 65, right associativity).

Definition try_catch (body handler : Cmd) : Cmd :=
  fun st =>
    match body st with
    | (st1, Returned) => (st1, Returned)
    | (st1, Thrown) => handler st1
    end.

(** Calling an async function and dropping its promise: an exception in it
    rejects the promise, which nobody handles. *)
Definition spawn (c : Cmd) (st : State) : State :=
  match c st with
  | (st1, Returned) => st1
  | (st1, Thrown) => reject_unhandled st1
  end.

(** *** The platform objects *)

Definition new_AudioContext (rate : Z) : AudioContext :=
  {| sampleRate := rate; state := running; currentTime := 0 |}.

(** [track.stop()] *)
Definition MediaStreamTrack_stop (t : ReadyState) : ReadyState := ended.

(** [node.disconnect()] *)
Definition AudioNode_disconnect (n : ScriptProcessorNode) : ScriptProcessorNode :=
  {| bufferSize := bufferSize n; onaudioprocess := onaudioprocess n;
     fed_by_source := fed_by_source n; connected := false |}.

(** [ctx.close()] returns a promise: on a context that is already closed the
    promise is rejected, otherwise the context becomes closed.  The second
    component tells whether the promise is rejected. *)
Definition AudioContext_close (ctx : AudioContext) : AudioContext * bool :=
  match state ctx with
  | closed => (ctx, true)
  | running =>
      ({| sampleRate := sampleRate ctx; state := closed;
          currentTime := currentTime ctx |}, false)
  end.

Definition is_running (ctx : AudioContext) : bool :=
  match state ctx with
  | running => true
  | closed => false
  end.

(** The output clock advances by [dt] while the context runs. *)
Definition advance_clock (dt : Q) (ctx : AudioContext) : AudioContext :=
  match state ctx with
  | running =>
      {| sampleRate := sampleRate ctx; state := running;
         currentTime := currentTime ctx + dt |}
  | closed => ctx
  end.

(** *** playAudio *)

(** [playAudio], up to [await decodeAudioData(...)]. *)
Definition playAudio (base64Data : string) : Cmd :=
  fun st =>
    match outputCtxRef st with
    | None => (st, Returned)
    | Some ctx =>
        let st1 :=
          set_nextStartTimeRef (Qmax (nextStartTimeRef st) (currentTime ctx)) st in
        match AudioUtils.b64ToUint8Array base64Data with
        | None => (st1, Thrown)
        | Some audioBytes =>
            (set_decoding (decoding st1 ++ [audioBytes]) st1, Returned)
        end
    end.

(** [playAudio] after the [await]: [decodeAudioData] of [services/audioUtils]
    is not among the sources, its result is given by the environment, [None]
    when its promise is rejected.  The sum is the exact one here;
    [playAudio_resume_with] below has the sum as JavaScript computes it. *)
Definition playAudio_resume (decoded : option AudioBuffer) : Cmd :=
  fun st =>
    match decoded with
    | None => (st, Thrown)
    | Some audioBuffer =>
        let st1 :=
          set_started
            (started st ++
             [{| when := nextStartTimeRef st; buffer := audioBuffer |}]) st in
        (set_nextStartTimeRef (nextStartTimeRef st1 + duration audioBuffer) st1,
         Returned)
    end.

(** [playAudio] after the [await], with the sum of
    [nextStartTimeRef.current += audioBuffer.duration] computed by [add]: the
    addition of JavaScript numbers, whose result is the double nearest to
    the exact sum.  Nothing is assumed of [add]; with the exact sum for
    [add] this is [playAudio_resume]. *)
Definition playAudio_resume_with (add : Q -> Q -> Q)
    (decoded : option AudioBuffer) : Cmd :=
  fun st =>
    match decoded with
    | None => (st, Thrown)
    | Some audioBuffer =>
        let st1 :=
          set_started
            (started st ++
             [{| when := nextStartTimeRef st; buffer := audioBuffer |}]) st in
        (set_nextStartTimeRef
           (add (nextStartTimeRef st1) (duration audioBuffer)) st1,
         Returned)
    end.

(** *** stopSession *)

Definition stop_tracks : Cmd :=
  fun st =>
    match streamRef st with
    | Some stream =>
        (set_streamRef (Some (map MediaStreamTrack_stop stream)) st, Returned)
    | None => (st, Returned)
    end.

Definition disconnect_processor : Cmd :=
  fun st =>
    match processorRef st with
    | Some node =>
        (set_processorRef (Some (AudioNode_disconnect node)) st, Returned)
    | None => (st, Returned)
    end.

Definition close_input : Cmd :=
  fun st =>
    match inputCtxRef st with
    | Some ctx =>
        let (ctx', rejected) := AudioContext_close ctx in
        let st1 := set_inputCtxRef (Some ctx') st in
        (if rejected then reject_unhandled st1 else st1, Returned)
    | None => (st, Returned)
    end.

Definition close_output : Cmd :=
  fun st =>
    match outputCtxRef st with
    | Some ctx =>
        let (ctx', rejected) := AudioContext_close ctx in
        let st1 := set_outputCtxRef (Some ctx') st in
        (if rejected then reject_unhandled st1 else st1, Returned)
    | None => (st, Returned)
    end.

Definition disconnect_session : Cmd :=
  fun st =>
    match sessionRef st with
    | Some session =>
        (set_sessionRef (Some (LiveSession.disconnect session)) st, Returned)
    | None => (st, Returned)
    end.

Definition stopSession : Cmd :=
  stop_tracks >>>
  disconnect_processor >>>
  close_input >>>
  close_output >>>
  disconnect_session.

(** *** startSession *)

(** The [catch] block. *)
Definition startSession_catch : Cmd :=
  modify (console_error "Failed to start live session") >>>
  modify (set_status error) >>>
  modify (set_suspended Finished).

(** Up to [await navigator.mediaDevices.getUserMedia(...)]. *)
Definition startSession : Cmd :=
  try_catch
    (modify (set_outputCtxRef (Some (new_AudioContext 24000))) >>>
     modify (set_inputCtxRef (Some (new_AudioContext 16000))) >>>
     modify (set_suspended AwaitUserMedia))
    startSession_catch.

(** From [getUserMedia] settling up to [await sessionRef.current.connect()].
    The calls on [inputCtxRef.current] throw when the ref is [null]. *)
Definition startSession_media (granted : option MediaStream) : Cmd :=
  try_catch
    (match granted with
     | None => throw
     | Some stream =>
         modify (set_streamRef (Some stream)) >>>
         (fun st =>
            match inputCtxRef st with
            | Some _ =>
                (set_processorRef
                   (Some {| bufferSize := 4096; onaudioprocess := false;
                            fed_by_source := false; connected := false |}) st,
                 Returned)
            | None => (st, Thrown)
            end) >>>
         modify (set_sessionRef (Some (LiveSession.connect LiveSession.new))) >>>
         modify (set_suspended AwaitConnect)
     end)
    startSession_catch.

Definition wire_processor (node : ScriptProcessorNode) : ScriptProcessorNode :=
  {| bufferSize := bufferSize node; onaudioprocess := true;
     fed_by_source := true; connected := true |}.

(** From [connect] settling to the end.  The assignment to
    [processorRef.current.onaudioprocess] throws when the ref is [null]. *)
Definition startSession_connected (ok : bool) : Cmd :=
  try_catch
    (if ok then
       modify (set_status active) >>>
       (fun st =>
          match processorRef st with
          | Some node =>
              (set_processorRef (Some (wire_processor node)) st, Returned)
          | None => (st, Thrown)
          end) >>>
       modify (set_suspended Finished)
     else throw)
    startSession_catch.

(** *** Released resources *)

(** A remote session is released when its connection was refused or has been
    closed. *)
Definition remote_released (session : LiveSession.State) : Prop :=
  forall p c,
    LiveSession.connections session !! p = Some c ->
    LiveSession.settlement c = LiveSession.Rejected \/
    LiveSession.remote_closed c = true.

(** The resources the component holds itself. *)
Definition local_released (st : State) : Prop :=
  (forall stream, streamRef st = Some stream -> Forall (eq ended) stream) /\
  (forall node, processorRef st = Some node -> connected node = false) /\
  (forall ctx, inputCtxRef st = Some ctx -> state ctx = closed) /\
  (forall ctx, outputCtxRef st = Some ctx -> state ctx = closed).

Definition all_released (st : State) : Prop :=
  local_released st /\
  (forall session, sessionRef st = Some session -> remote_released session).

(** How many refs hold an audio context. *)
Definition held {A : Type} (ref : option A) : nat :=
  match ref with
  | Some _ => 1
  | None => 0
  end.

Definition contexts_held (st : State) : nat :=
  held (inputCtxRef st) + held (outputCtxRef st).

Section Run.

Context {Float32Array : Type}.
Variable convertFloat32ToInt16 : Float32Array -> list byte.

(** Tasks of the event loop, as the component sees them. *)
Inductive Event :=
| Mount
| UserMedia (granted : option MediaStream)
| Handshake (ok : bool)
| SessionOpen
| Inbound (audioData : option string)
| RemoteClose
| SessionError
| AudioProcess (inputData : Float32Array)
| DecodeSettled (k : nat) (decoded : option AudioBuffer)
| Tick (dt : Q)
| Unmount.

(** The two callbacks the component gives to [new LiveSession]. *)
Definition callback (cb : LiveSession.Callback) (st : State) : State :=
  match cb with
  | LiveSession.onAudioData b64Audio => spawn (playAudio b64Audio) st
  | LiveSession.onClose => set_status disconnected st
  end.

(** An event of the SDK reaches the session object, whose callbacks run. *)
Definition session_event (e : nat -> @LiveSession.Event Float32Array)
    (st : State) : State :=
  match sessionRef st with
  | Some session =>
      let p := default 0%nat (LiveSession.sessionPromise session) in
      let (session', cbs) :=
        LiveSession.step convertFloat32ToInt16 session (e p) in
      fold_left (fun s cb => callback cb s) cbs (set_sessionRef (Some session') st)
  | None => st
  end.

Definition step (st : State) (e : Event) : State :=
  match e with
  | Mount =>
      match suspended st with
      | NotStarted => spawn startSession st
      | _ => st
      end
  | UserMedia granted =>
      match suspended st with
      | AwaitUserMedia => spawn (startSession_media granted) st
      | _ => st
      end
  | Handshake ok =>
      match suspended st with
      | AwaitConnect =>
          spawn (startSession_connected ok)
            (session_event (fun p => LiveSession.Settle p ok) st)
      | _ => st
      end
  | SessionOpen => session_event (fun _ => LiveSession.Open) st
  | Inbound audioData => session_event (fun _ => LiveSession.Message audioData) st
  | RemoteClose => session_event (fun p => LiveSession.Close p) st
  | SessionError => session_event (fun _ => LiveSession.Error) st
  | AudioProcess inputData =>
      match processorRef st, inputCtxRef st with
      | Some node, Some ctx =>
          if onaudioprocess node && connected node && is_running ctx then
            session_event
              (fun _ => LiveSession.Script [LiveSession.SendAudio inputData]) st
          else st
      | _, _ => st
      end
  | DecodeSettled k decoded =>
      match decoding st !! k with
      | Some _ =>
          spawn (playAudio_resume decoded)
            (set_decoding (delete k (decoding st)) st)
      | None => st
      end
  | Tick dt => set_outputCtxRef (option_map (advance_clock dt) (outputCtxRef st)) st
  | Unmount => (stopSession st).1
  end.

Definition run (st : State) (evs : list Event) : State :=
  fold_left step evs st.

(** [step] and [run] with the sums of [playAudio] computed by [add]. *)
Definition step_with (add : Q -> Q -> Q) (st : State) (e : Event) : State :=
  match e with
  | DecodeSettled k decoded =>
      match decoding st !! k with
      | Some _ =>
          spawn (playAudio_resume_with add decoded)
            (set_decoding (delete k (decoding st)) st)
      | None => st
      end
  | _ => step st e
  end.

Definition run_with (add : Q -> Q -> Q) (st : State) (evs : list Event)
  : State :=
  fold_left (step_with add) evs st.

(** Decoded buffers have a non-negative duration. *)
Definition duration_nonneg (e : Event) : Prop :=
  match e with
  | DecodeSettled _ (Some audioBuffer) => 0 <= duration audioBuffer
  | _ => True
  end.

(** If the event is a message with audio, for which [playAudio] is invoked,
    the clock of the output context is at most the cursor. *)
Definition arrives_in_time (st : State) (e : Event) : Prop :=
  match e, outputCtxRef st with
  | Inbound (Some b64Audio), Some ctx =>
      b64Audio <> "" -> currentTime ctx <= nextStartTimeRef st
  | _, _ => True
  end.

(** If the event is a decoding settling, it is the settling of a decoding in
    flight. *)
Definition settles_in_flight (st : State) (e : Event) : Prop :=
  match e with
  | DecodeSettled k _ => is_Some (decoding st !! k)
  | _ => True
  end.

(** [P] holds of every event of the run and of the state the event finds. *)
Fixpoint along (add : Q -> Q -> Q) (P : State -> Event -> Prop) (st : State)
    (evs : list Event) : Prop :=
  match evs with
  | [] => True
  | e :: evs' => P st e /\ along add P (step_with add st e) evs'
  end.

(** How a task moves the cursor and the list of started sources: not at all,
    by the resync of [playAudio] on an inbound message, or by a start and
    the advance after it when a decoding settles. *)
Inductive Move (e : Event) (st st' : State) : Prop :=
| Still :
    nextStartTimeRef st' = nextStartTimeRef st ->
    started st' = started st ->
    Move e st st'
| Resync (b64Audio : string) (ctx : AudioContext) :
    e = Inbound (Some b64Audio) ->
    b64Audio <> "" ->
    outputCtxRef st = Some ctx ->
    nextStartTimeRef st' = Qmax (nextStartTimeRef st) (currentTime ctx) ->
    started st' = started st ->
    Move e st st'
| Advance (k : nat) (audioBuffer : AudioBuffer) :
    e = DecodeSettled k (Some audioBuffer) ->
    started st' =
      started st ++ [{| when := nextStartTimeRef st; buffer := audioBuffer |}] ->
    nextStartTimeRef st' = nextStartTimeRef st + duration audioBuffer ->
    Move e st st'.

(** The frames the capture callback received, in order. *)
Definition audio_frames (evs : list Event) : list Float32Array :=
  flat_map (fun e => match e with
                     | AudioProcess inputData => [inputData]
                     | _ => []
                     end) evs.

(** The session object of the component: its deliveries are among the
    frames captured so far, and it has connected once. *)
Definition session_ok (st : State) (captured : list LiveSession.Media) : Prop :=
  forall session,
    sessionRef st = Some session ->
    LiveSession.consistent session captured /\
    LiveSession.sent_known session /\
    length (LiveSession.connections session) = 1%nat.

(** *** The claims of the specification, as they are worded *)

(** C1 as it is worded, for two buffers: [b1] is started, then a chunk
    arrives and its buffer [b2] is started.  [b1] plays from its [when], or
    from the clock at the call of [source.start] if that is later, for its
    duration.  If the chunk arrives before [b1] has finished playing, [b2]
    starts at the start of [b1] plus its duration. *)
Definition gapless_while_playing (add : Q -> Q -> Q) (st : State) : Prop :=
  forall k b1 dt b64Audio k' b2 ctx ctx' s1 s2,
    outputCtxRef st = Some ctx ->
    outputCtxRef (run_with add st [DecodeSettled k (Some b1); Tick dt]) =
      Some ctx' ->
    started
      (run_with add st
         [DecodeSettled k (Some b1); Tick dt;
          Inbound (Some b64Audio); DecodeSettled k' (Some b2)]) =
      started st ++ [s1; s2] ->
    currentTime ctx' < Qmax (when s1) (currentTime ctx) + duration b1 ->
    when s2 == when s1 + duration b1.


(** A chunk whose decoding fails is skipped, the cursor stays where the last
    advance left it, the session goes on, and the failure is logged. *)
Definition decode_failure_contained (st : State) (base64Data : string) : Prop :=
  let st' := callback (LiveSession.onAudioData base64Data) st in
  started st' = started st /\
  nextStartTimeRef st' = nextStartTimeRef st /\
  status st' = status st /\
  console st' <> console st.


(** Stopping twice leaves every resource released. *)
Definition teardown_releases_all (st : State) : Prop :=
  all_released (step (step st Unmount) Unmount).

(** *** What a run received and decoded *)

(** The buffers the settled decodings produced, in the order they settled. *)
Definition settled_buffers (evs : list Event) : list AudioBuffer :=
  flat_map (fun e => match e with
                     | DecodeSettled _ (Some audioBuffer) => [audioBuffer]
                     | _ => []
                     end) evs.

(** The messages that carried audio, for which [playAudio] is invoked. *)
Definition carries_audio (e : Event) : bool :=
  match e with
  | Inbound (Some b64Audio) => negb (String.eqb b64Audio "")
  | _ => false
  end.

Definition audio_messages (evs : list Event) : nat :=
  length (List.filter carries_audio evs).

(** The messages with audio that decodes from base64, for which [playAudio]
    reaches [decodeAudioData]. *)
Definition decodable (e : Event) : bool :=
  match e with
  | Inbound (Some b64Audio) =>
      negb (String.eqb b64Audio "") &&
      match AudioUtils.b64ToUint8Array b64Audio with
      | Some _ => true
      | None => false
      end
  | _ => false
  end.

(** The settlings of a decoding. *)
Definition is_settling (e : Event) : bool :=
  match e with
  | DecodeSettled _ _ => true
  | _ => false
  end.

End Run.

(** Start times [t], [t + d1], [t + d1 + d2], ... for buffers of durations
    [d1], [d2], ..., the sums computed by [add]. *)
Fixpoint schedule (add : Q -> Q -> Q) (t : Q) (buffers : list AudioBuffer)
  : list Start :=
  match buffers with
  | [] => []
  | b :: rest =>
      {| when := t; buffer := b |} :: schedule add (add t (duration b)) rest
  end.

(** Where the cursor is after them. *)
Definition cursor_after (add : Q -> Q -> Q) (t : Q)
    (buffers : list AudioBuffer) : Q :=
  fold_left (fun t b => add t (duration b)) buffers t.

(** Consecutive started sources: none has a [when] before the [when] of the
    one before it plus its duration, the sum computed by [add]. *)
Fixpoint no_overlap (add : Q -> Q -> Q) (l : list Start) : Prop :=
  match l with
  | [] => True
  | b1 :: l' =>
      match l' with
      | [] => True
      | b2 :: _ =>
          add (when b1) (duration (buffer b1)) <= when b2 /\
          no_overlap add l'
      end
  end.

(** The cursor is not before the [when] of the source started last plus its
    duration, the sum computed by [add]. *)
Definition cursor_past_end (add : Q -> Q -> Q) (st : State) : Prop :=
  match last (started st) with
  | Some b => add (when b) (duration (buffer b)) <= nextStartTimeRef st
  | None => True
  end.

(** *** What the component keeps true *)

Definition is_set {A : Type} (ref : option A) : bool :=
  match ref with
  | Some _ => true
  | None => false
  end.

(** [processorRef.current.onaudioprocess] is set. *)
Definition wired (st : State) : bool :=
  match processorRef st with
  | Some node => onaudioprocess node
  | None => false
  end.

(** How far [startSession] has come, and what exists by then. *)
Definition well_formed (st : State) : Prop :=
  (suspended st = NotStarted \/ suspended st = AwaitUserMedia ->
   sessionRef st = None) /\
  (suspended st <> NotStarted ->
   is_set (inputCtxRef st) = true /\ is_set (outputCtxRef st) = true) /\
  (suspended st = AwaitConnect -> is_set (sessionRef st) = true) /\
  (sessionRef st = None ->
   status st <> active /\ is_set (processorRef st) = false) /\
  (forall session,
     sessionRef st = Some session ->
     is_set (streamRef st) = true /\
     is_set (processorRef st) = true /\
     exists c,
       LiveSession.quiet session c /\
       (wired st = true -> LiveSession.settlement c = LiveSession.Fulfilled) /\
       (status st = active -> wired st = true) /\
       (suspended st = AwaitConnect ->
        LiveSession.settlement c = LiveSession.Pending /\
        wired st = false /\ status st <> active)).

(** What [well_formed] looks at. *)
Definition outline (st : State) :=
  (status st, sessionRef st, suspended st, wired st,
   (is_set (processorRef st), is_set (streamRef st),
    is_set (inputCtxRef st), is_set (outputCtxRef st))).

End LiveInterface.

(** ** Scenarios

    Concrete runs of the component.  Frames are given as the bytes of their
    16-bit buffer, so that the conversion is the identity. *)

Module Scenarios.

Import LiveInterface.

Definition Frame : Type := list byte.

Definition frame_bytes (pcmData : Frame) : list byte := pcmData.

(** Three zero bytes. *)
Definition chunk : string := "AAAA".

(** Text that is not base64. *)
Definition garbled : string := "!!!!".

Definition seconds (d : Q) : AudioBuffer := {| duration := d |}.

(** [startSession] runs to its end: microphone granted, handshake done. *)
Definition connect_ok : list (@Event Frame) :=
  [Mount; UserMedia (Some [live]); Handshake true].

(** Chunks of 1.0 s, 0.5 s and 2.0 s arrive back to back. *)
Definition back_to_back : list (@Event Frame) :=
  connect_ok ++
  [Inbound (Some chunk); DecodeSettled 0 (Some (seconds 1));
   Tick (1 # 5);
   Inbound (Some chunk); DecodeSettled 0 (Some (seconds (1 # 2)));
   Tick (1 # 5);
   Inbound (Some chunk); DecodeSettled 0 (Some (seconds 2))].

(** A chunk of 1.0 s plays out, and the output clock reaches 6.0. *)
Definition stalled : list (@Event Frame) :=
  connect_ok ++
  [Inbound (Some chunk); DecodeSettled 0 (Some (seconds 1)); Tick 6].



(** The microphone is refused. *)
Definition microphone_denied : list (@Event Frame) :=
  [Mount; UserMedia None].

Definition state_after (evs : list (@Event Frame)) : State :=
  LiveInterface.run frame_bytes initial evs.

(** The nearest double: a positive rational rounded to a significand of 53
    bits, ties to even.  Overflow and subnormal numbers are left out. *)
Definition nearest_double_pos (n : Z) (d : positive) : Q :=
  let e0 := (Z.log2 n - Z.log2 (Zpos d) - 52)%Z in
  let scaled (e : Z) : Z * Z :=
    if (0 <=? e)%Z then (n, Zpos d * 2 ^ e)%Z else (n * 2 ^ (- e), Zpos d)%Z in
  let e :=
    let (num, den) := scaled e0 in
    if (num / den <? 2 ^ 52)%Z then (e0 - 1)%Z else e0 in
  let (num, den) := scaled e in
  let m := (num / den)%Z in
  let r := (num mod den)%Z in
  let m' :=
    match (2 * r ?= den)%Z with
    | Lt => m
    | Gt => (m + 1)%Z
    | Eq => if Z.even m then m else (m + 1)%Z
    end in
  Qred (if (0 <=? e)%Z then inject_Z (m' * 2 ^ e)
        else Qmake m' (Z.to_pos (2 ^ (- e)))).

Definition nearest_double (q : Q) : Q :=
  match Qnum q with
  | Z0 => 0
  | Zpos n => nearest_double_pos (Zpos n) (Qden q)
  | Zneg n => - nearest_double_pos (Zpos n) (Qden q)
  end.

(** [x + y] on JavaScript numbers: the exact sum, rounded. *)
Definition js_add (x y : Q) : Q := nearest_double (x + y).

(** The three chunks of [back_to_back], once the session is set up. *)
Definition three_chunks : list (@Event Frame) :=
  [Inbound (Some chunk); DecodeSettled 0 (Some (seconds 1));
   Tick (1 # 5);
   Inbound (Some chunk); DecodeSettled 0 (Some (seconds (1 # 2)));
   Tick (1 # 5);
   Inbound (Some chunk); DecodeSettled 0 (Some (seconds 2))].

(** Chunks of 0.1 s and 0.7 s, the durations being doubles. *)
Definition tenths : list (@Event Frame) :=
  [Inbound (Some chunk);
   DecodeSettled 0 (Some (seconds (nearest_double (1 # 10))));
   Inbound (Some chunk);
   DecodeSettled 0 (Some (seconds (nearest_double (7 # 10))));
   Inbound (Some chunk);
   DecodeSettled 0 (Some (seconds (nearest_double (1 # 10))))].

(** A chunk arrives and its decoding is still in flight two seconds later. *)
Definition decoding_late : list (@Event Frame) :=
  connect_ok ++ [Inbound (Some chunk); Tick 2].

(** The decoding settles, and half a second later the next chunk arrives
    and is decoded. *)
Definition next_while_playing : list (@Event Frame) :=
  [DecodeSettled 0 (Some (seconds 1)); Tick (1 # 2);
   Inbound (Some chunk); DecodeSettled 0 (Some (seconds 1))].



End Scenarios.

(** ** types.ts *)

Module Types.

Inductive MessageRole := USER | MODEL | SYSTEM.

Inductive AppMode := OMNI | LIVE.

Record ReviewSnippet := { reviewText : string }.

Record PlaceAnswerSource := { reviewSnippets : option (list ReviewSnippet) }.

Record WebSource := { web_uri : string; web_title : string }.

Record MapsSource := {
  maps_uri : string;
  maps_title : string;
  placeAnswerSources : option (list PlaceAnswerSource)
}.

Record GroundingChunk := { web : option WebSource; maps : option MapsSource }.

(** The four kinds of block.  A field that is optional, or that the code
    fills from a value that may be [undefined] ([args.prompt], [args.text]),
    is an [option]. *)
Inductive ContentBlock :=
| text_block (content : string) (grounding : option (list GroundingChunk))
| image_block (url : string) (prompt : option string)
| audio_block (url : string) (text : option string)
| code_block (language : string) (content : string).

Record ChatMessage := {
  id : string;
  role : MessageRole;
  content : list ContentBlock;
  isThinking : option bool;
  timestamp : Z
}.

Inductive StreamUpdate :=
| text_delta (content : string)
| grounding_update (metadata : list GroundingChunk)
| block_update (block : ContentBlock)
| thought (content : string).

Definition is_text (b : ContentBlock) : bool :=
  match b with
  | text_block _ _ => true
  | _ => false
  end.

(** The text of the deltas, the grounding chunks and the blocks of a list of
    updates. *)
Definition deltas (updates : list StreamUpdate) : string :=
  fold_right (fun u acc => match u with
                           | text_delta c => c +:+ acc
                           | _ => acc
                           end) "" updates.

Definition groundings (updates : list StreamUpdate) : list GroundingChunk :=
  flat_map (fun u => match u with
                     | grounding_update metadata => metadata
                     | _ => []
                     end) updates.

Definition blocks (updates : list StreamUpdate) : list ContentBlock :=
  flat_map (fun u => match u with
                     | block_update b => [b]
                     | _ => []
                     end) updates.

Definition has_delta (updates : list StreamUpdate) : bool :=
  existsb (fun u => match u with
                    | text_delta _ => true
                    | _ => false
                    end) updates.

End Types.

(** ** JavaScript strings *)

Module Js.

Definition quote : string := String "034"%char "".

Definition newline : string := String "010"%char "".

(** A value that may be [undefined], in a template literal. *)
Definition template (v : option string) : string := default "undefined" v.

(** [s.split(',')[1]]: what lies between the first comma and the second,
    [undefined] when there is no comma. *)
Fixpoint before_comma (s : string) : string :=
  match s with
  | "" => ""
  | String c rest =>
      if Ascii.eqb c ","%char then "" else String c (before_comma rest)
  end.

Fixpoint after_comma (s : string) : option string :=
  match s with
  | "" => None
  | String c rest => if Ascii.eqb c ","%char then Some rest else after_comma rest
  end.

Definition split_comma_1 (s : string) : option string :=
  option_map before_comma (after_comma s).

Fixpoint has_comma (s : string) : bool :=
  match s with
  | "" => false
  | String c rest => Ascii.eqb c ","%char || has_comma rest
  end.

(** [`data:${mimeType};base64,${data}`] *)
Definition data_url (mimeType data : option string) : string :=
  "data:" +:+ template mimeType +:+ ";base64," +:+ template data.

End Js.

(** ** services/geminiService: the orchestrator *)

Module GeminiService.

Import Types.

(** The attachment of a request.  [data] is what [split(',')[1]] gave in
    [handleFileSelect], possibly [undefined]. *)
Record Attachment := { data : option string; mimeType : string }.

(** A part of a request. *)
Inductive RequestPart :=
| inlineData_part (mimeType : string) (data : option string)
| text_part (text : option string).

(** [requestParts] of [streamOrchestrateResponse]. *)
Definition requestParts (userInput : string) (attachment : option Attachment)
  : list RequestPart :=
  match attachment with
  | Some a =>
      let mediaType :=
        if String.prefix "image" (mimeType a) then "image" else "audio" in
      [inlineData_part (mimeType a) (data a);
       text_part (Some ("User attached an " +:+ mediaType +:+ ". " +:+ userInput))]
  | None => [text_part (Some userInput)]
  end.

(** [parts] of [generateImage]. *)
Definition generateImage_parts (prompt : option string)
    (attachment : option Attachment) : list RequestPart :=
  match attachment with
  | Some a =>
      if String.prefix "image/" (mimeType a)
      then [inlineData_part (mimeType a) (data a)]
      else []
  | None => []
  end ++ [text_part prompt].

(** A part of a response, as the code reads it. *)
Record Blob := { blob_mimeType : option string; blob_data : option string }.

Record Part := { inlineData : option Blob; part_text : option string }.

(** [response.candidates?.[0]?.content?.parts] *)
Definition Parts := option (list Part).

Definition has_inlineData (p : Part) : bool :=
  match inlineData p with
  | Some _ => true
  | None => false
  end.

(** [generateImage], from the response on. *)
Definition generateImage (prompt : option string) (parts : Parts)
  : option ContentBlock :=
  match parts with
  | Some ps =>
      match List.find has_inlineData ps with
      | Some imgPart =>
          match inlineData imgPart with
          | Some blob =>
              Some (image_block
                      (Js.data_url (blob_mimeType blob) (blob_data blob))
                      prompt)
          | None => None
          end
      | None => None
      end
  | None => None
  end.

(** [generateAudio], from the response on. *)
Definition generateAudio (text : option string) (parts : Parts)
  : option ContentBlock :=
  match parts with
  | Some (p :: _) =>
      match inlineData p with
      | Some audioPart =>
          Some (audio_block
                  ("data:audio/wav;base64," +:+ Js.template (blob_data audioPart))
                  text)
      | None => None
      end
  | _ => None
  end.

(** A function call of a chunk.  [args] is [fc.args], which may be
    [undefined]. *)
Record Args := {
  arg_prompt : option string;
  arg_aspectRatio : option string;
  arg_text : option string
}.

Record FunctionCall := { name : option string; args : option Args }.

(** What [ai.models.generateContent] does when the call is executed: it
    answers, or it throws [e], given as the text [`${e}`] renders. *)
Inductive Reply :=
| answered (parts : Parts)
| threw (e : string).

Record ToolCall := { call : FunctionCall; reply : Reply }.

(** A chunk of the stream, as the code reads it: [chunk.text], the grounding
    chunks of the first candidate, [chunk.functionCalls]. *)
Record Chunk := {
  chunk_text : option string;
  groundingChunks : option (list GroundingChunk);
  functionCalls : option (list ToolCall)
}.

(** What reading a property of [undefined] throws, as `${e}` renders it. *)
Definition undefined_args (property : string) : string :=
  "TypeError: Cannot read properties of undefined (reading '" +:+ property +:+ "')".

Definition image_error (e : string) : StreamUpdate :=
  text_delta (Js.newline +:+ "[Error generating image: " +:+ e +:+ "]").

Definition audio_error (e : string) : StreamUpdate :=
  text_delta (Js.newline +:+ "[Error generating audio: " +:+ e +:+ "]").

Definition yield_block (b : option ContentBlock) : list StreamUpdate :=
  match b with
  | Some blk => [block_update blk]
  | None => []
  end.

(** The body of the loop over the function calls: what it yields, and what
    it throws, if it does (as [`${e}`] renders it).  For [generate_image],
    [args.prompt] is read before the [try]; for [generate_audio], [args.text]
    is read inside it. *)
Definition call_updates (tc : ToolCall) : list StreamUpdate * option string :=
  match name (call tc) with
  | Some fcName =>
      if String.eqb fcName "generate_image" then
        match args (call tc) with
        | Some a =>
            (thought ("Generating image: " +:+ Js.quote +:+
                      Js.template (arg_prompt a) +:+ Js.quote +:+ "...") ::
             match reply tc with
             | answered parts => yield_block (generateImage (arg_prompt a) parts)
             | threw e => [image_error e]
             end,
             None)
        | None => ([], Some (undefined_args "prompt"))
        end
      else if String.eqb fcName "generate_audio" then
        (thought "Generating audio..." ::
         match args (call tc) with
         | Some a =>
             match reply tc with
             | answered parts => yield_block (generateAudio (arg_text a) parts)
             | threw e => [audio_error e]
             end
         | None => [audio_error (undefined_args "text")]
         end,
         None)
      else ([], None)
  | None => ([], None)
  end.

Fixpoint calls_updates (tcs : list ToolCall)
  : list StreamUpdate * option string :=
  match tcs with
  | [] => ([], None)
  | tc :: rest =>
      let (us, thrown) := call_updates tc in
      match thrown with
      | Some e => (us, Some e)
      | None => let (us', thrown') := calls_updates rest in (us ++ us', thrown')
      end
  end.

(** The body of [for await (const chunk of stream)]. *)
Definition chunk_updates (c : Chunk) : list StreamUpdate * option string :=
  let text :=
    match chunk_text c with
    | Some t => if String.eqb t "" then [] else [text_delta t]
    | None => []
    end in
  let grounding :=
    match groundingChunks c with
    | Some gs => [grounding_update gs]
    | None => []
    end in
  let (calls, thrown) :=
    match functionCalls c with
    | Some tcs => calls_updates tcs
    | None => ([], None)
    end in
  (text ++ grounding ++ calls, thrown).

(** [streamOrchestrateResponse]: what the generator yields for the chunks the
    stream delivers, and what it throws, if it does.  [broken] is what the
    stream itself throws after these chunks (or the request, when there is
    none). *)
Fixpoint streamOrchestrateResponse (chunks : list Chunk) (broken : option string)
  : list StreamUpdate * option string :=
  match chunks with
  | [] => ([], broken)
  | c :: rest =>
      let (us, thrown) := chunk_updates c in
      match thrown with
      | Some e => (us, Some e)
      | None =>
          let (us', thrown') := streamOrchestrateResponse rest broken in
          (us ++ us', thrown')
      end
  end.

(** Every block is yielded right after a thought. *)
Fixpoint blocks_announced (after_thought : bool) (us : list StreamUpdate)
  : Prop :=
  match us with
  | [] => True
  | thought _ :: rest => blocks_announced true rest
  | block_update _ :: rest =>
      after_thought = true /\ blocks_announced false rest
  | _ :: rest => blocks_announced false rest
  end.

(** The call is a [generate_image] call without [args]. *)
Definition image_call_without_args (tc : ToolCall) : bool :=
  match name (call tc), args (call tc) with
  | Some fcName, None => String.eqb fcName "generate_image"
  | _, _ => false
  end.

Definition calls_of (c : Chunk) : list ToolCall :=
  default [] (functionCalls c).

(** An image or an audio block. *)
Definition media (b : ContentBlock) : bool :=
  match b with
  | image_block _ _ | audio_block _ _ => true
  | _ => false
  end.

End GeminiService.

(** ** components/ChatMessage.tsx: AudioPlayer *)

Module AudioPlayer.

(** [play]: [const base64 = url.split(',')[1]] *)
Definition base64_of (url : string) : option string := Js.split_comma_1 url.

End AudioPlayer.

(** ** App.tsx *)

Module App.

Import Types.

Record State := {
  mode : AppMode;
  messages : list ChatMessage;
  input : string;
  isLoading : bool;
  attachedImage : option GeminiService.Attachment;
  console : list string
}.

Definition initial : State :=
  {| mode := OMNI; messages := []; input := ""; isLoading := false;
     attachedImage := None; console := [] |}.

Definition set_messages (v : list ChatMessage) (st : State) : State :=
  {| mode := mode st; messages := v; input := input st;
     isLoading := isLoading st; attachedImage := attachedImage st;
     console := console st |}.

Definition setInput (v : string) (st : State) : State :=
  {| mode := mode st; messages := messages st; input := v;
     isLoading := isLoading st; attachedImage := attachedImage st;
     console := console st |}.

Definition setIsLoading (v : bool) (st : State) : State :=
  {| mode := mode st; messages := messages st; input := input st;
     isLoading := v; attachedImage := attachedImage st;
     console := console st |}.

Definition setAttachedImage (v : option GeminiService.Attachment) (st : State)
  : State :=
  {| mode := mode st; messages := messages st; input := input st;
     isLoading := isLoading st; attachedImage := v;
     console := console st |}.

Definition console_error (err : string) (st : State) : State :=
  {| mode := mode st; messages := messages st; input := input st;
     isLoading := isLoading st; attachedImage := attachedImage st;
     console := console st ++ [err] |}.

(** [handleFileSelect]: the [onloadend] handler of the reader, with
    [reader.result] ([null] when reading failed, in which case [split]
    throws and the state stays) and [file.type]. *)
Definition onloadend (result : option string) (fileType : string) (st : State)
  : State :=
  match result with
  | Some r =>
      setAttachedImage
        (Some {| GeminiService.data := Js.split_comma_1 r;
                 GeminiService.mimeType := fileType |}) st
  | None => st
  end.

(** The fields of a message, one replaced. *)
Definition with_content (v : list ContentBlock) (msg : ChatMessage)
  : ChatMessage :=
  {| id := id msg; role := role msg; content := v;
     isThinking := isThinking msg; timestamp := timestamp msg |}.

Definition with_isThinking (v : option bool) (msg : ChatMessage)
  : ChatMessage :=
  {| id := id msg; role := role msg; content := content msg;
     isThinking := v; timestamp := timestamp msg |}.

(** [findIndex(b => b.type === 'text')] and the assignment at that index:
    [None] when there is no text block. *)
Fixpoint set_first_text (f : ContentBlock -> ContentBlock)
    (l : list ContentBlock) : option (list ContentBlock) :=
  match l with
  | [] => None
  | b :: rest =>
      if is_text b then Some (f b :: rest)
      else option_map (cons b) (set_first_text f rest)
  end.

(** [{ ...block, grounding }] on a text block. *)
Definition with_grounding (g : list GroundingChunk) (b : ContentBlock)
  : ContentBlock :=
  match b with
  | text_block c _ => text_block c (Some g)
  | _ => b
  end.

(** [newContent] of the updater for a text delta: the first text block
    replaced, or a text block pushed. *)
Definition put_text (t : string) (g : list GroundingChunk)
    (l : list ContentBlock) : list ContentBlock :=
  match set_first_text (fun _ => text_block t (Some g)) l with
  | Some l' => l'
  | None => l ++ [text_block t (Some g)]
  end.

(** [newContent] of the updater for grounding. *)
Definition put_grounding (g : list GroundingChunk) (l : list ContentBlock)
  : list ContentBlock :=
  match set_first_text (with_grounding g) l with
  | Some l' => l'
  | None => l
  end.

(** The functions mapped over the messages by the updaters of the loop.  The
    first two read [currentTextContent] and [currentGrounding] when they
    run. *)
Definition on_text_delta (botMsgId : string) (currentTextContent : string)
    (currentGrounding : list GroundingChunk) (msg : ChatMessage) : ChatMessage :=
  if String.eqb (id msg) botMsgId then
    with_isThinking (Some false)
      (with_content (put_text currentTextContent currentGrounding (content msg))
         msg)
  else msg.

Definition on_grounding (botMsgId : string)
    (currentGrounding : list GroundingChunk) (msg : ChatMessage) : ChatMessage :=
  if String.eqb (id msg) botMsgId then
    with_content (put_grounding currentGrounding (content msg)) msg
  else msg.

Definition on_block (botMsgId : string) (block : ContentBlock)
    (msg : ChatMessage) : ChatMessage :=
  if String.eqb (id msg) botMsgId then
    with_isThinking (Some false) (with_content (content msg ++ [block]) msg)
  else msg.

Definition interrupted : ContentBlock :=
  text_block (Js.newline +:+ "[Connection interrupted]") None.

(** Of the [catch] block. *)
Definition on_error (botMsgId : string) (msg : ChatMessage) : ChatMessage :=
  if String.eqb (id msg) botMsgId
  then with_content (content msg ++ [interrupted]) msg
  else msg.

(** Of the [finally] block. *)
Definition on_finally (botMsgId : string) (msg : ChatMessage) : ChatMessage :=
  if String.eqb (id msg) botMsgId then with_isThinking (Some false) msg
  else msg.

(** The updater functions [handleSend] passes to [setMessages].  React queues
    an updater and calls it with the previous list when it next renders. *)
Inductive Updater :=
| append_updater (msg : ChatMessage)
| text_updater
| grounding_updater
| block_updater (block : ContentBlock)
| error_updater
| finally_updater.

Definition apply_updater (botMsgId : string) (currentTextContent : string)
    (currentGrounding : list GroundingChunk) (u : Updater)
    (prev : list ChatMessage) : list ChatMessage :=
  match u with
  | append_updater msg => prev ++ [msg]
  | text_updater =>
      map (on_text_delta botMsgId currentTextContent currentGrounding) prev
  | grounding_updater => map (on_grounding botMsgId currentGrounding) prev
  | block_updater block => map (on_block botMsgId block) prev
  | error_updater => map (on_error botMsgId) prev
  | finally_updater => map (on_finally botMsgId) prev
  end.

(** A call of [handleSend] under way: its two variables, the state of the
    component and the updaters queued since the last render. *)
Record Send := {
  currentTextContent : string;
  currentGrounding : list GroundingChunk;
  component : State;
  queued : list Updater
}.

Definition setMessages (u : Updater) (s : Send) : Send :=
  {| currentTextContent := currentTextContent s;
     currentGrounding := currentGrounding s;
     component := component s;
     queued := queued s ++ [u] |}.

Definition on_component (f : State -> State) (s : Send) : Send :=
  {| currentTextContent := currentTextContent s;
     currentGrounding := currentGrounding s;
     component := f (component s);
     queued := queued s |}.

(** The queued updaters run in order, each on the list the one before it
    returned. *)
Definition run_updaters (botMsgId : string) (currentTextContent : string)
    (currentGrounding : list GroundingChunk) (queue : list Updater)
    (prev : list ChatMessage) : list ChatMessage :=
  fold_left
    (fun prev u =>
       apply_updater botMsgId currentTextContent currentGrounding u prev)
    queue prev.

(** React renders: the queued updaters run, each reading the two variables
    as they are now. *)
Definition render (botMsgId : string) (s : Send) : Send :=
  {| currentTextContent := currentTextContent s;
     currentGrounding := currentGrounding s;
     component :=
       set_messages
         (run_updaters botMsgId (currentTextContent s) (currentGrounding s)
            (queued s) (messages (component s)))
         (component s);
     queued := [] |}.

(** The body of [for await (const update of stream)]; an update of type
    ['thought'] matches no branch. *)
Definition loop_body (s : Send) (update : StreamUpdate) : Send :=
  match update with
  | text_delta c =>
      setMessages text_updater
        {| currentTextContent := currentTextContent s +:+ c;
           currentGrounding := currentGrounding s;
           component := component s; queued := queued s |}
  | grounding_update metadata =>
      setMessages grounding_updater
        {| currentTextContent := currentTextContent s;
           currentGrounding := currentGrounding s ++ metadata;
           component := component s; queued := queued s |}
  | block_update b => setMessages (block_updater b) s
  | thought _ => s
  end.

(** The handler gives way to the event loop before each update and at the
    end; [renders k] tells whether React renders at the [k]-th of these
    points. *)
Definition at_await (botMsgId : string) (renders : nat -> bool) (k : nat)
    (s : Send) : Send :=
  if renders k then render botMsgId s else s.

Fixpoint for_await (botMsgId : string) (renders : nat -> bool) (k : nat)
    (updates : list StreamUpdate) (s : Send) : Send :=
  match updates with
  | [] => s
  | update :: rest =>
      for_await botMsgId renders (S k) rest
        (loop_body (at_await botMsgId renders k s) update)
  end.

(** The four readings of [Date.now()] in [handleSend]. *)
Record Clock := {
  at_user_id : Z;
  at_user_timestamp : Z;
  at_bot_id : Z;
  at_bot_timestamp : Z
}.

Definition botMsgId_of (clock : Clock) : string := pretty (at_bot_id clock + 1)%Z.

Definition initialBotMsg (clock : Clock) : ChatMessage :=
  {| id := botMsgId_of clock; role := MODEL; content := [];
     isThinking := Some true; timestamp := at_bot_timestamp clock |}.

Section Send.

(** [!s.trim()]: the string is empty once trimmed. *)
Variable blank : string -> bool.

Definition userContent (st : State) : list ContentBlock :=
  match attachedImage st with
  | Some a =>
      [image_block
         (Js.data_url (Some (GeminiService.mimeType a)) (GeminiService.data a))
         (Some "User Upload")]
  | None => []
  end ++
  (if blank (input st) then [] else [text_block (input st) None]).

Definition userMsg (clock : Clock) (st : State) : ChatMessage :=
  {| id := pretty (at_user_id clock); role := USER;
     content := userContent st; isThinking := None;
     timestamp := at_user_timestamp clock |}.

(** [!input.trim() && !attachedImage] *)
Definition nothing_to_send (st : State) : bool :=
  blank (input st) &&
  match attachedImage st with
  | Some _ => false
  | None => true
  end.

(** The request [handleSend] makes. *)
Definition request (st : State) : list GeminiService.RequestPart :=
  GeminiService.requestParts (input st) (attachedImage st).

(** [handleSend], for what the generator yields and throws, up to the render
    that follows its return; no other handler runs meanwhile. *)
Definition handleSend (clock : Clock)
    (stream : list StreamUpdate * option string) (renders : nat -> bool)
    (st : State) : State :=
  if nothing_to_send st then st
  else
    let botMsgId := botMsgId_of clock in
    let s :=
      {| currentTextContent := ""; currentGrounding := [];
         component :=
           setIsLoading true (setAttachedImage None (setInput "" st));
         queued := [append_updater (userMsg clock st);
                    append_updater (initialBotMsg clock)] |} in
    let s := for_await botMsgId renders 0 stream.1 s in
    let s := at_await botMsgId renders (length stream.1) s in
    let s :=
      match stream.2 with
      | Some err =>
          setMessages error_updater (on_component (console_error err) s)
      | None => s
      end in
    let s := setMessages finally_updater (on_component (setIsLoading false) s) in
    component (render botMsgId s).

End Send.

(** Two contents that differ at most in their first text block: in its
    grounding, and in its text unless [same_text]. *)
Inductive similar (same_text : bool)
  : list ContentBlock -> list ContentBlock -> Prop :=
| similar_refl l : similar same_text l l
| similar_here c1 g1 c2 g2 rest :
    (same_text = true -> c1 = c2) ->
    similar same_text (text_block c1 g1 :: rest) (text_block c2 g2 :: rest)
| similar_skip b l1 l2 :
    is_text b = false -> similar same_text l1 l2 ->
    similar same_text (b :: l1) (b :: l2).

(** Two messages that differ at most in this way, and not at all unless
    their id is [botMsgId]. *)
Definition similar_message (botMsgId : string) (same_text : bool)
    (m1 m2 : ChatMessage) : Prop :=
  id m1 = id m2 /\ role m1 = role m2 /\ isThinking m1 = isThinking m2 /\
  timestamp m1 = timestamp m2 /\
  if String.eqb (id m1) botMsgId
  then similar same_text (content m1) (content m2)
  else content m1 = content m2.

(** The loop with a render after every update. *)
Definition loop_body_rendered (botMsgId : string) (s : Send)
    (update : StreamUpdate) : Send :=
  render botMsgId (loop_body s update).

(** The content of the bot message under [loop_body_rendered]. *)
Fixpoint content_after (updates : list StreamUpdate) (t : string)
    (g : list GroundingChunk) (l : list ContentBlock) : list ContentBlock :=
  match updates with
  | [] => l
  | text_delta c :: rest =>
      content_after rest (t +:+ c) g (put_text (t +:+ c) g l)
  | grounding_update metadata :: rest =>
      content_after rest t (g ++ metadata) (put_grounding (g ++ metadata) l)
  | block_update b :: rest => content_after rest t g (l ++ [b])
  | thought _ :: rest => content_after rest t g l
  end.

(** Some update is a text delta or a block. *)
Definition shows_something (updates : list StreamUpdate) : bool :=
  existsb (fun u => match u with
                    | text_delta _ | block_update _ => true
                    | _ => false
                    end) updates.

(** A message under [loop_body_rendered]. *)
Definition message_after (botMsgId : string) (updates : list StreamUpdate)
    (t : string) (g : list GroundingChunk) (msg : ChatMessage) : ChatMessage :=
  if String.eqb (id msg) botMsgId then
    {| id := id msg; role := role msg;
       content := content_after updates t g (content msg);
       isThinking :=
         if shows_something updates then Some false else isThinking msg;
       timestamp := timestamp msg |}
  else msg.

(** What the [catch] block logs. *)
Definition thrown_list (thrown : option string) : list string :=
  match thrown with
  | Some err => [err]
  | None => []
  end.

(** What the [catch] block adds to the bot message. *)
Definition closing (thrown : option string) : list ContentBlock :=
  match thrown with
  | Some _ => [interrupted]
  | None => []
  end.

End App.

(** ** Replies
    Streams and states on which the theorems about the orchestrator and
    [App] are exercised. *)

Module Replies.

Import Types GeminiService App.

(** Empty once trimmed, for ASCII text: tabs, line breaks and spaces
    only. *)
Definition blank (s : string) : bool :=
  forallb (fun c => let n := nat_of_ascii c in
                    ((9 <=? n) && (n <=? 13) || (n =? 32))%nat)
    (list_ascii_of_string s).

Definition clock : Clock :=
  {| at_user_id := 1700000000000; at_user_timestamp := 1700000000000;
     at_bot_id := 1700000000002; at_bot_timestamp := 1700000000003 |}.

Definition source : GroundingChunk :=
  {| web := Some {| web_uri := "https://example.org"; web_title := "Example" |};
     maps := None |}.

Definition wav : Part :=
  {| inlineData :=
       Some {| blob_mimeType := Some "audio/wav"; blob_data := Some "AAAA" |};
     part_text := None |}.

(** A [generate_audio] call that is answered with audio. *)
Definition say : ToolCall :=
  {| call :=
       {| name := Some "generate_audio";
          args := Some {| arg_prompt := None; arg_aspectRatio := None;
                          arg_text := Some "Hi" |} |};
     reply := answered (Some [wav]) |}.

(** A [generate_image] call without arguments. *)
Definition draw_nothing : ToolCall :=
  {| call := {| name := Some "generate_image"; args := None |};
     reply := answered None |}.

(** Audio first, then text in two chunks, with a source. *)
Definition spoken_reply : list Chunk :=
  [{| chunk_text := None; groundingChunks := None;
      functionCalls := Some [say] |};
   {| chunk_text := Some "Hello"; groundingChunks := Some [source];
      functionCalls := None |};
   {| chunk_text := Some " there"; groundingChunks := None;
      functionCalls := None |}].

(** A source and audio, no text. *)
Definition silent_reply : list Chunk :=
  [{| chunk_text := None; groundingChunks := Some [source];
      functionCalls := Some [say] |}].

Definition png : Attachment :=
  {| data := Some "iVBORw0KGgo="; mimeType := "image/png" |}.

(** After one message, the user has typed a request. *)
Definition asking : State :=
  {| mode := OMNI;
     messages :=
       [{| id := "1699999999000"; role := USER;
           content := [text_block "Good morning" None]; isThinking := None;
           timestamp := 1699999999000 |}];
     input := "Say hi"; isLoading := false; attachedImage := None;
     console := [] |}.

Definition never : nat -> bool := fun _ => false.

End Replies.

(** ** Tactics *)

(** Case analysis on the refs of a state: each is [null] or set, each context
    running or closed. *)
Ltac destruct_refs st :=
  destruct st as [? [?|] [[? [] ?]|] [[? [] ?]|] ? [?|] [?|] ? ? ? ? ?]; cbn.

(** Closed goals about the scenarios, by evaluation. *)
Ltac by_computation :=
  vm_compute; repeat split; intros;
  first [exact I | reflexivity | discriminate | eauto].

(** ** Facts about the base64 transcoding *)

Section Base64Facts.

Import AudioUtils.
Local Open Scope N_scope.

Lemma pack_div (q r k : N) : r < k -> (q * k + r) / k = q.
Proof.
  intros H. rewrite N.add_comm, N.div_add by lia.
  rewrite N.div_small by lia. lia.
Qed.

Lemma pack_mod (q r k : N) : r < k -> (q * k + r) mod k = r.
Proof.
  intros H. rewrite N.add_comm, N.Div0.mod_add. apply N.mod_small; lia.
Qed.

Lemma unpack (a k : N) : a / k * k + a mod k = a.
Proof. rewrite N.mul_comm. symmetry. apply N.div_mod'. Qed.

Lemma div_bound (a k m : N) : a < k * m -> a / k < m.
Proof. intros. apply N.Div0.div_lt_upper_bound; lia. Qed.

Lemma mod_bound (a k : N) : k <> 0 -> a mod k < k.
Proof. intros. apply N.mod_lt; lia. Qed.

Lemma char_sextet_char (s : N) : s < 64 -> char_sextet (sextet_char s) = Some s.
Proof.
  intros H.
  assert (Hall : forallb (fun n => match char_sextet (sextet_char n) with
                                   | Some m => N.eqb m n
                                   | None => false
                                   end)
                   (map N.of_nat (seq 0 64)) = true) by (vm_compute; reflexivity).
  rewrite forallb_forall in Hall.
  specialize (Hall s).
  destruct (char_sextet (sextet_char s)) as [m|].
  - f_equal. apply N.eqb_eq, Hall.
    apply in_map_iff. exists (N.to_nat s). split; [lia|].
    apply in_seq. lia.
  - exfalso. assert (false = true) as Hf; [|discriminate Hf].
    apply Hall. apply in_map_iff. exists (N.to_nat s). split; [lia|].
    apply in_seq. lia.
Qed.

Lemma sextet_char_not_pad (s : N) : s < 64 -> Ascii.eqb (sextet_char s) pad = false.
Proof.
  intros H.
  assert (Hall : forallb (fun n => negb (Ascii.eqb (sextet_char n) pad))
                   (map N.of_nat (seq 0 64)) = true) by (vm_compute; reflexivity).
  rewrite forallb_forall in Hall.
  apply negb_true_iff, Hall.
  apply in_map_iff. exists (N.to_nat s). split; [lia|].
  apply in_seq. lia.
Qed.

Lemma b64ToUint8Array_group (c1 c2 c3 c4 : ascii) (rest : string) :
  b64ToUint8Array (String c1 (String c2 (String c3 (String c4 rest)))) =
  match char_sextet c1, char_sextet c2 with
  | Some s1, Some s2 =>
      if Ascii.eqb c3 pad then
        if Ascii.eqb c4 pad && String.eqb rest "" then
          bytes_of [s1 * 4 + s2 / 16]
        else None
      else
        match char_sextet c3 with
        | Some s3 =>
            if Ascii.eqb c4 pad then
              if String.eqb rest "" then
                bytes_of [s1 * 4 + s2 / 16; (s2 mod 16) * 16 + s3 / 4]
              else None
            else
              match char_sextet c4, b64ToUint8Array rest with
              | Some s4, Some tail =>
                  match bytes_of [s1 * 4 + s2 / 16;
                                  (s2 mod 16) * 16 + s3 / 4;
                                  (s3 mod 4) * 64 + s4] with
                  | Some group => Some (group ++ tail)
                  | None => None
                  end
              | _, _ => None
              end
        | None => None
        end
  | _, _ => None
  end.
Proof. reflexivity. Qed.

Lemma byte_ranges (x : byte) :
  let a := Byte.to_N x in
  a / 4 < 64 /\ a mod 4 < 4 /\ a / 16 < 16 /\ a mod 16 < 16 /\
  a / 64 < 4 /\ a mod 64 < 64.
Proof.
  intros a. pose proof (Byte.to_N_bounded x) as Hx. fold a in Hx.
  repeat split; first [apply div_bound; lia | apply mod_bound; lia].
Qed.

Lemma round_trip_one (x : byte) :
  b64ToUint8Array (arrayBufferToBase64 [x]) = Some [x].
Proof.
  destruct (byte_ranges x) as (H1 & H2 & _).
  cbn [arrayBufferToBase64]. cbv zeta. rewrite b64ToUint8Array_group.
  rewrite !char_sextet_char by lia.
  rewrite !Ascii.eqb_refl. cbn [andb String.eqb bytes_of].
  rewrite N.div_mul by lia.
  rewrite unpack, Byte.of_to_N. reflexivity.
Qed.

Lemma round_trip_two (x y : byte) :
  b64ToUint8Array (arrayBufferToBase64 [x; y]) = Some [x; y].
Proof.
  destruct (byte_ranges x) as (H1 & H2 & _).
  destruct (byte_ranges y) as (_ & _ & H3 & H4 & _).
  cbn [arrayBufferToBase64]. cbv zeta. rewrite b64ToUint8Array_group.
  rewrite !char_sextet_char by lia.
  rewrite sextet_char_not_pad by lia.
  rewrite Ascii.eqb_refl. cbn [String.eqb bytes_of].
  rewrite pack_div, pack_mod by lia.
  rewrite N.div_mul by lia.
  rewrite !unpack, !Byte.of_to_N. reflexivity.
Qed.

Lemma round_trip_three (x y z : byte) (rest : list byte) :
  b64ToUint8Array (arrayBufferToBase64 rest) = Some rest ->
  b64ToUint8Array (arrayBufferToBase64 (x :: y :: z :: rest)) =
  Some (x :: y :: z :: rest).
Proof.
  intros IH.
  destruct (byte_ranges x) as (H1 & H2 & _).
  destruct (byte_ranges y) as (_ & _ & H3 & H4 & _).
  destruct (byte_ranges z) as (_ & _ & _ & _ & H5 & H6).
  cbn [arrayBufferToBase64]. cbv zeta. rewrite b64ToUint8Array_group.
  rewrite !char_sextet_char by lia.
  rewrite !sextet_char_not_pad by lia.
  rewrite IH. cbn [bytes_of].
  rewrite !pack_div, !pack_mod by lia.
  rewrite !unpack, !Byte.of_to_N. reflexivity.
Qed.

(** C8. Base64 round trip: decoding the text that [arrayBufferToBase64]
    produces for a byte buffer gives that byte buffer back, for every byte
    buffer. *)
Theorem base64_round_trip (b : list byte) :
  b64ToUint8Array (arrayBufferToBase64 b) = Some b.
Proof.
  assert (H : forall n (l : list byte),
             (length l <= n)%nat ->
             b64ToUint8Array (arrayBufferToBase64 l) = Some l).
  { induction n as [|n IH]; intros l Hl.
    - destruct l; [reflexivity | simpl in Hl; lia].
    - destruct l as [|x [|y [|z rest]]].
      + reflexivity.
      + apply round_trip_one.
      + apply round_trip_two.
      + apply round_trip_three, IH. simpl in Hl. lia. }
  apply (H (length b)). lia.
Qed.

End Base64Facts.

(** ** Facts about LiveSession *)

Section LiveSessionFacts.

Import LiveSession.

Context {Float32Array : Type}.
Variable convertFloat32ToInt16 : Float32Array -> list byte.

Local Abbreviation sendAudio := (LiveSession.sendAudio convertFloat32ToInt16).
Local Abbreviation realtimeInput := (LiveSession.realtimeInput convertFloat32ToInt16).
Local Abbreviation step := (LiveSession.step convertFloat32ToInt16).
Local Abbreviation run := (LiveSession.run convertFloat32ToInt16).
Local Abbreviation handle := (LiveSession.handle convertFloat32ToInt16).
Local Abbreviation calls := (LiveSession.calls convertFloat32ToInt16).
Local Abbreviation call := (LiveSession.call convertFloat32ToInt16).

Local Arguments for_connection : simpl never.

Lemma for_connection_app (p : nat) (l1 l2 : list (nat * Media)) :
  for_connection p (l1 ++ l2) = for_connection p l1 ++ for_connection p l2.
Proof. unfold for_connection. rewrite List.filter_app, map_app. reflexivity. Qed.

Lemma for_connection_same (p : nat) (ms : list Media) :
  for_connection p (map (pair p) ms) = ms.
Proof.
  unfold for_connection. induction ms as [|m ms IH]; [reflexivity|].
  cbn. rewrite Nat.eqb_refl. cbn. f_equal. exact IH.
Qed.

Lemma for_connection_other (p q : nat) (ms : list Media) :
  p <> q -> for_connection p (map (pair q) ms) = [].
Proof.
  intros Hpq. unfold for_connection. induction ms as [|m ms IH]; [reflexivity|].
  cbn. destruct (Nat.eqb_spec q p) as [->|_]; [congruence|]. exact IH.
Qed.

Lemma consistent_new : consistent new [].
Proof. intros p. split; [reflexivity | intros c Hc; discriminate Hc]. Qed.

Lemma consistent_more (st : State) (F G : list Media) :
  consistent st F -> consistent st (F ++ G).
Proof.
  intros H p. destruct (H p) as [H1 H2]. split; [|exact H2].
  apply sublist_inserts_r, H1.
Qed.

Lemma consistent_enqueue (p : nat) (job : Media) (st : State)
    (F : list Media) (c : Connection) :
  consistent st F ->
  connections st !! p = Some c ->
  settlement c <> Pending ->
  consistent (set_microtasks (microtasks st ++ [(p, job)]) st) (F ++ [job]).
Proof.
  intros H Hc Hs q. destruct (H q) as [H1 H2]. split; [|exact H2].
  unfold backlog, delivered, reactions_of in *. cbn.
  rewrite for_connection_app.
  change [(p, job)] with (map (pair p) [job]).
  destruct (decide (q = p)) as [->|Hne].
  - rewrite for_connection_same.
    rewrite Hc in *. rewrite (H2 c eq_refl Hs) in *.
    rewrite !app_nil_r in *. rewrite app_assoc.
    apply sublist_app; [exact H1 | reflexivity].
  - rewrite for_connection_other by exact Hne.
    rewrite app_nil_r. apply sublist_inserts_r, H1.
Qed.

Lemma consistent_await (p : nat) (job : Media) (st : State) (F : list Media) :
  consistent st F -> consistent (await p job st) (F ++ [job]).
Proof.
  intros H. unfold await.
  destruct (connections st !! p) as [c|] eqn:Hc;
    [|apply consistent_more, H].
  destruct (settlement c) eqn:Hs;
    [|eapply consistent_enqueue; eauto; congruence..].
  (* pending: the continuation joins the reactions *)
  assert (Hlt : (p < length (connections st))%nat)
    by (eapply lookup_lt_Some, Hc).
  intros q. destruct (H q) as [H1 H2].
  destruct (decide (q = p)) as [->|Hne].
  - split.
    + unfold backlog, delivered, reactions_of in *. cbn.
      rewrite list_lookup_insert_eq by exact Hlt. cbn.
      rewrite Hc in H1. rewrite !app_assoc.
      apply sublist_app; [|reflexivity]. rewrite <- app_assoc. exact H1.
    + cbn. rewrite list_lookup_insert_eq by exact Hlt.
      intros c' [= <-]. cbn. congruence.
  - split.
    + unfold backlog, delivered, reactions_of in *. cbn.
      rewrite list_lookup_insert_ne by congruence.
      apply sublist_inserts_r, H1.
    + cbn. rewrite list_lookup_insert_ne by congruence. exact H2.
Qed.

Lemma consistent_sendAudio (pcmData : Float32Array) (st : State)
    (F : list Media) :
  consistent st F ->
  consistent (sendAudio pcmData st) (F ++ [realtimeInput pcmData]).
Proof.
  intros H. unfold LiveSession.sendAudio.
  destruct (sessionPromise st) as [p|].
  - apply consistent_await, H.
  - apply consistent_more, H.
Qed.

Lemma consistent_connect (st : State) (F : list Media) :
  consistent st F -> consistent (connect st) F.
Proof.
  intros H p. destruct (H p) as [H1 H2].
  assert (Hr : reactions_of p (connect st) = reactions_of p st).
  { unfold reactions_of. cbn.
    destruct (decide (p < length (connections st))%nat) as [Hlt|Hge].
    - rewrite lookup_app_l by exact Hlt. reflexivity.
    - rewrite lookup_app_r by lia.
      rewrite (lookup_ge_None_2 (connections st)) by lia.
      destruct (p - length (connections st))%nat as [|n]; [reflexivity|].
      cbn. reflexivity. }
  split.
  - unfold backlog in *. rewrite Hr. exact H1.
  - cbn. intros c Hc.
    destruct (decide (p < length (connections st))%nat) as [Hlt|Hge].
    + rewrite lookup_app_l in Hc by exact Hlt. apply H2, Hc.
    + rewrite lookup_app_r in Hc by lia.
      destruct (p - length (connections st))%nat as [|n]; cbn in Hc.
      * injection Hc as <-. cbn. congruence.
      * discriminate Hc.
Qed.

Lemma consistent_settle (p : nat) (ok : bool) (st : State) (F : list Media) :
  consistent st F -> consistent (settle p ok st) F.
Proof.
  intros H. unfold settle.
  destruct (connections st !! p) as [c|] eqn:Hc; [|exact H].
  destruct (settlement c) eqn:Hs; [|exact H..].
  assert (Hlt : (p < length (connections st))%nat)
    by (eapply lookup_lt_Some, Hc).
  intros q. destruct (H q) as [H1 H2].
  unfold backlog, delivered, reactions_of in *. cbn.
  rewrite for_connection_app.
  destruct (decide (q = p)) as [->|Hne].
  - rewrite list_lookup_insert_eq by exact Hlt. cbn.
    rewrite for_connection_same. rewrite Hc in H1.
    rewrite app_nil_r. split; [exact H1|].
    intros c' [= <-]. reflexivity.
  - rewrite list_lookup_insert_ne by congruence.
    rewrite for_connection_other by exact Hne. rewrite app_nil_r.
    split; [exact H1 | exact H2].
Qed.

Lemma consistent_close_remote (p : nat) (st : State) (F : list Media) :
  consistent st F -> consistent (close_remote p st) F.
Proof.
  intros H. unfold close_remote.
  destruct (connections st !! p) as [c|] eqn:Hc; [|exact H].
  assert (Hlt : (p < length (connections st))%nat)
    by (eapply lookup_lt_Some, Hc).
  intros q. destruct (H q) as [H1 H2].
  unfold backlog, delivered, reactions_of in *. cbn.
  destruct (decide (q = p)) as [->|Hne].
  - rewrite list_lookup_insert_eq by exact Hlt. cbn. rewrite Hc in H1.
    split; [exact H1|]. intros c' [= <-]. cbn. apply H2, Hc.
  - rewrite list_lookup_insert_ne by congruence. split; [exact H1 | exact H2].
Qed.

Lemma consistent_log (line : string) (st : State) (F : list Media) :
  consistent st F -> consistent (log line st) F.
Proof. intros H. exact H. Qed.

(** Draining the queue delivers, for each connection, some of what was queued
    for it, in queue order, and touches nothing else. *)
Lemma drain_spec (queue : list (nat * Media)) (st : State) :
  connections (drain queue st) = connections st /\
  microtasks (drain queue st) = microtasks st /\
  sessionPromise (drain queue st) = sessionPromise st /\
  console (drain queue st) = console st /\
  forall p,
    delivered p (drain queue st) `sublist_of`
    delivered p st ++ for_connection p queue.
Proof.
  revert st. induction queue as [|job queue IH]; intros st.
  - cbn. repeat split. intros p. apply sublist_inserts_r. reflexivity.
  - cbn [drain].
    destruct (IH (resume_sendAudio job st)) as (E1 & E2 & E3 & E4 & E5).
    assert (Hstep :
      connections (resume_sendAudio job st) = connections st /\
      microtasks (resume_sendAudio job st) = microtasks st /\
      sessionPromise (resume_sendAudio job st) = sessionPromise st /\
      console (resume_sendAudio job st) = console st /\
      forall p, delivered p (resume_sendAudio job st) `sublist_of`
                delivered p st ++ for_connection p [job]).
    { unfold resume_sendAudio.
      destruct (connections st !! job.1) as [c|];
        [destruct (settlement c)|]; cbn; repeat split;
        intros p; unfold delivered; cbn;
        try (apply sublist_inserts_r; reflexivity).
      rewrite for_connection_app. reflexivity. }
    destruct Hstep as (S1 & S2 & S3 & S4 & S5).
    repeat split; try congruence.
    intros p. etrans; [apply E5|].
    change (job :: queue) with ([job] ++ queue).
    rewrite for_connection_app, app_assoc.
    apply sublist_app; [apply S5 | reflexivity].
Qed.

Lemma consistent_checkpoint (st : State) (F : list Media) :
  consistent st F -> consistent (checkpoint st) F.
Proof.
  intros H p. destruct (H p) as [H1 H2]. unfold checkpoint.
  destruct (drain_spec (microtasks st) (set_microtasks [] st))
    as (E1 & E2 & _ & _ & E5).
  split.
  - unfold backlog, reactions_of in *. rewrite E1, E2. cbn.
    change (for_connection p []) with (@nil Media). cbn [app].
    etrans; [|exact H1]. rewrite (app_assoc (delivered p st)).
    apply sublist_app; [apply E5 | reflexivity].
  - rewrite E1. exact H2.
Qed.

Lemma consistent_calls (cs : list Call) (st : State) (F : list Media) :
  consistent st F ->
  consistent (calls cs st)
    (F ++ map realtimeInput (flat_map frames_of_call cs)).
Proof.
  revert st F. induction cs as [|c cs IH]; intros st F H.
  - cbn. rewrite app_nil_r. exact H.
  - cbn [LiveSession.calls fold_left flat_map]. rewrite map_app, app_assoc.
    apply IH. destruct c as [|pcmData|]; cbn.
    + rewrite app_nil_r. apply consistent_connect, H.
    + apply consistent_sendAudio, H.
    + rewrite app_nil_r. unfold disconnect.
      destruct (sessionPromise st); exact H.
Qed.

Lemma consistent_step (e : Event) (st : State) (F : list Media) :
  consistent st F ->
  consistent (step st e).1 (F ++ map realtimeInput (frames_of e)).
Proof.
  intros H. unfold LiveSession.step.
  destruct (handle e st) as [st' cbs] eqn:He. cbn [fst].
  apply consistent_checkpoint.
  destruct e as [cs|p ok| |audioData|p|]; cbn in He.
  - injection He as <- _. apply consistent_calls, H.
  - injection He as <- _. cbn. rewrite app_nil_r. apply consistent_settle, H.
  - injection He as <- _. cbn. rewrite app_nil_r. exact H.
  - cbn. rewrite app_nil_r. unfold onmessage in He.
    destruct audioData as [d|]; [destruct (String.eqb d "")|];
      injection He as <- _; exact H.
  - injection He as <- _. cbn. rewrite app_nil_r.
    apply consistent_log, consistent_close_remote, H.
  - injection He as <- _. cbn. rewrite app_nil_r. exact H.
Qed.


Lemma disconnect_id (st : State) : disconnect st = st.
Proof. unfold disconnect. destruct (sessionPromise st); reflexivity. Qed.

(** **** With a single connection *)

Lemma await_footprint (p : nat) (job : Media) (st : State) :
  sent (await p job st) = sent st /\
  length (connections (await p job st)) = length (connections st).
Proof.
  unfold await. destruct (connections st !! p) as [c|]; [|split; reflexivity].
  destruct (settlement c); cbn; rewrite ?length_insert; split; reflexivity.
Qed.

Lemma call_footprint (c : Call) (st : State) :
  sent (call c st) = sent st /\
  (length (connections st) <= length (connections (call c st)))%nat /\
  (c <> Connect -> length (connections (call c st)) = length (connections st)).
Proof.
  destruct c as [|pcmData|]; cbn.
  - rewrite length_app. cbn. repeat split; [lia | congruence].
  - unfold LiveSession.sendAudio. destruct (sessionPromise st) as [p|].
    + destruct (await_footprint p (realtimeInput pcmData) st) as [-> ->].
      repeat split; lia.
    + repeat split; lia.
  - rewrite disconnect_id. repeat split; lia.
Qed.

Lemma calls_footprint (cs : list Call) (st : State) :
  sent (calls cs st) = sent st /\
  (length (connections st) <= length (connections (calls cs st)))%nat /\
  (Forall (fun c => c <> Connect) cs ->
   length (connections (calls cs st)) = length (connections st)).
Proof.
  revert st. induction cs as [|c cs IH]; intros st.
  - cbn. repeat split; lia.
  - cbn [LiveSession.calls fold_left].
    destruct (call_footprint c st) as (H1 & H2 & H3).
    destruct (IH (call c st)) as (I1 & I2 & I3).
    unfold LiveSession.calls in *. rewrite I1, H1.
    repeat split; [lia|].
    intros Hf. inversion Hf as [|? ? Hc Hcs]; subst.
    rewrite I3 by exact Hcs. apply H3, Hc.
Qed.

Lemma handle_footprint (e : Event) (st : State) :
  sent (handle e st).1 = sent st /\
  (length (connections st) <= length (connections (handle e st).1))%nat /\
  (connect_free e ->
   length (connections (handle e st).1) = length (connections st)).
Proof.
  destruct e as [cs|p ok| |[d|]|p|]; cbn.
  - apply calls_footprint.
  - unfold settle. destruct (connections st !! p) as [c|];
      [destruct (settlement c)|]; cbn; rewrite ?length_insert;
      repeat split; lia.
  - repeat split; lia.
  - destruct (String.eqb d ""); cbn; repeat split; lia.
  - repeat split; lia.
  - unfold close_remote. destruct (connections st !! p) as [c|]; cbn;
      rewrite ?length_insert; repeat split; lia.
  - repeat split; lia.
Qed.

Lemma drain_known (queue : list (nat * Media)) (st : State) :
  sent_known st -> sent_known (drain queue st).
Proof.
  revert st. induction queue as [|job queue IH]; intros st H; [exact H|].
  cbn [drain]. apply IH. unfold resume_sendAudio.
  destruct (connections st !! job.1) as [c|] eqn:Hc; [|exact H].
  destruct (settlement c); try exact H.
  unfold sent_known in *. cbn. apply Forall_app. split; [exact H|].
  constructor; [|constructor]. eapply lookup_lt_Some, Hc.
Qed.

Lemma step_known (e : Event) (st : State) :
  sent_known st ->
  sent_known (step st e).1 /\
  (connect_free e ->
   length (connections (step st e).1) = length (connections st)).
Proof.
  intros H. unfold LiveSession.step.
  destruct (handle_footprint e st) as (H1 & H2 & H3).
  destruct (handle e st) as [st' cbs]. cbn [fst] in *.
  unfold checkpoint.
  destruct (drain_spec (microtasks st') (set_microtasks [] st')) as (E1 & _).
  split.
  - apply drain_known. unfold sent_known in *. cbn. rewrite H1.
    eapply Forall_impl; [exact H|]. cbn. intros job Hj. lia.
  - intros Hf. rewrite E1. cbn. apply H3, Hf.
Qed.

(** With one connection, everything sent was sent on it. *)
Lemma delivered_single (st : State) :
  sent_known st ->
  length (connections st) = 1%nat ->
  delivered 0 st = map snd (sent st).
Proof.
  unfold sent_known, delivered, for_connection. intros H Hlen.
  rewrite Hlen in H. induction H as [|job jobs Hjob _ IH]; [reflexivity|].
  cbn. destruct (Nat.eqb_spec job.1 0) as [_|Hne]; [|lia].
  cbn. f_equal. exact IH.
Qed.

(** Once the promise is fulfilled, a frame passed to [sendAudio] is handed to
    [sendRealtimeInput] within the same task. *)
Lemma sendAudio_delivers_when_connected (pcmData : Float32Array) (st : State)
    (p : nat) (c : Connection) :
  sessionPromise st = Some p ->
  connections st !! p = Some c ->
  settlement c = Fulfilled ->
  microtasks st = [] ->
  sent (step st (Script [SendAudio pcmData])).1 =
  sent st ++ [(p, realtimeInput pcmData)].
Proof.
  intros Hp Hc Hs Hq. unfold LiveSession.step. cbn.
  unfold LiveSession.sendAudio, await. rewrite Hp, Hc, Hs.
  unfold checkpoint. cbn. rewrite Hq. cbn.
  unfold resume_sendAudio. cbn. rewrite Hc, Hs. reflexivity.
Qed.

(** The callbacks a task invokes. *)
Lemma step_callbacks (st : State) (e : Event) :
  (step st e).2 =
  match e with
  | Message (Some d) => if String.eqb d "" then [] else [onAudioData d]
  | Close _ => [onClose]
  | _ => []
  end.
Proof.
  unfold LiveSession.step.
  destruct e as [cs|p ok| |[d|]|p|]; cbn; try reflexivity.
  destruct (String.eqb d ""); reflexivity.
Qed.

(** C9. [disconnect] is a no-op: it returns the state it was given, so the
    remote connection stays as it was, and in every run the [onClose]
    callback is invoked exactly as often as the remote end closes a session,
    whatever calls of [disconnect] the run contains. *)
Theorem disconnect_is_noop (st : State) (evs : list Event) :
  disconnect st = st /\
  length (List.filter is_onClose (run st evs).2) =
  length (List.filter is_Close evs).
Proof.
  split.
  - apply disconnect_id.
  - revert st. induction evs as [|e evs IH]; intros st; [reflexivity|].
    cbn [LiveSession.run]. pose proof (step_callbacks st e) as Hcb.
    destruct (step st e) as [st1 cbs1]. cbn [snd] in Hcb.
    specialize (IH st1). destruct (run st1 evs) as [st2 cbs2].
    cbn [snd] in *. rewrite List.filter_app, length_app, IH. subst cbs1.
    destruct e as [cs|p ok| |[d|]|p|]; cbn; try reflexivity.
    destruct (String.eqb d ""); reflexivity.
Qed.

(** C10. [sendAudio] before [connect]: while [sessionPromise] is [null] the
    call returns the state unchanged; nothing is encoded, queued or sent and
    no promise is rejected. *)
Theorem sendAudio_before_connect (pcmData : Float32Array) (st : State) :
  sessionPromise st = None -> sendAudio pcmData st = st.
Proof.
  intros H. unfold LiveSession.sendAudio. rewrite H. reflexivity.
Qed.

(** **** Frames passed while the handshake is pending *)

Lemma calls_while_pending (fs : list Float32Array) (st : State) (p : nat)
    (c : Connection) :
  sessionPromise st = Some p ->
  connections st !! p = Some c ->
  settlement c = Pending ->
  let st' := calls (map SendAudio fs) st in
  sessionPromise st' = Some p /\
  connections st' =
    <[p := {| settlement := Pending;
              reactions := reactions c ++ map realtimeInput fs;
              remote_closed := remote_closed c |}]> (connections st) /\
  microtasks st' = microtasks st /\
  sent st' = sent st /\
  unhandled st' = unhandled st.
Proof.
  revert st c. induction fs as [|f fs IH]; intros st c Hp Hc Hs.
  - cbn. rewrite app_nil_r. repeat split; try assumption.
    symmetry. apply list_insert_id. rewrite Hc. f_equal.
    destruct c as [s r b]. cbn in *. subst s. reflexivity.
  - cbn [map LiveSession.calls fold_left LiveSession.call].
    set (c1 := {| settlement := Pending;
                  reactions := reactions c ++ [realtimeInput f];
                  remote_closed := remote_closed c |}).
    assert (E : sendAudio f st =
                set_connections (<[p := c1]> (connections st)) st).
    { unfold LiveSession.sendAudio, await. rewrite Hp, Hc, Hs. reflexivity. }
    rewrite E.
    assert (Hlt : (p < length (connections st))%nat)
      by (eapply lookup_lt_Some, Hc).
    destruct (IH (set_connections (<[p := c1]> (connections st)) st) c1)
      as (I1 & I2 & I3 & I4 & I5); try assumption; try reflexivity.
    { cbn. apply list_lookup_insert_eq, Hlt. }
    unfold LiveSession.calls in *. cbn in I2, I3, I4, I5.
    repeat split; try assumption.
    rewrite I2, list_insert_insert_eq. cbn. rewrite <- app_assoc. reflexivity.
Qed.

Lemma drain_settled (ms : list Media) (st : State) (p : nat) (c : Connection) :
  connections st !! p = Some c ->
  settlement c <> Pending ->
  let st' := drain (map (pair p) ms) st in
  connections st' = connections st /\
  match settlement c with
  | Fulfilled =>
      sent st' = sent st ++ map (pair p) ms /\ unhandled st' = unhandled st
  | _ =>
      sent st' = sent st /\ unhandled st' = (unhandled st + length ms)%nat
  end.
Proof.
  revert st. induction ms as [|m ms IH]; intros st Hc Hs.
  - cbn. rewrite app_nil_r. destruct (settlement c); repeat split; lia.
  - cbn [map drain].
    assert (E : resume_sendAudio (p, m) st =
                match settlement c with
                | Fulfilled => set_sent (sent st ++ [(p, m)]) st
                | Rejected => reject_unhandled st
                | Pending => st
                end).
    { unfold resume_sendAudio. cbn [fst]. rewrite Hc. reflexivity. }
    rewrite E. clear E.
    destruct (settlement c) eqn:E; [congruence| |].
    + destruct (IH (set_sent (sent st ++ [(p, m)]) st) Hc Hs) as [I1 [I2 I3]].
      cbn in *. repeat split; try assumption.
      rewrite I2, <- app_assoc. reflexivity.
    + destruct (IH (reject_unhandled st) Hc Hs) as [I1 [I2 I3]].
      cbn in *. repeat split; try assumption. lia.
Qed.

(** X4.  Frames passed to [sendAudio] while the handshake is pending wait for
    it: nothing is sent before the promise settles; when it is fulfilled all
    of them are sent, in the order they were passed; when it is rejected none
    is sent and each suspended call ends in an unhandled rejection. *)
Theorem pending_frames_wait_for_handshake (fs : list Float32Array)
    (st : State) (p : nat) (c : Connection) (ok : bool) :
  sessionPromise st = Some p ->
  connections st !! p = Some c ->
  settlement c = Pending ->
  reactions c = [] ->
  microtasks st = [] ->
  let st1 := (step st (Script (map SendAudio fs))).1 in
  let st2 := (step st1 (Settle p ok)).1 in
  sent st1 = sent st /\
  if ok
  then sent st2 = sent st ++ map (fun f => (p, realtimeInput f)) fs /\
       unhandled st2 = unhandled st
  else sent st2 = sent st /\
       unhandled st2 = (unhandled st + length fs)%nat.
Proof.
  intros Hp Hc Hs Hr Hq st1 st2.
  destruct (calls_while_pending fs st p c Hp Hc Hs) as (C1 & C2 & C3 & C4 & C5).
  assert (Hlt : (p < length (connections st))%nat)
    by (eapply lookup_lt_Some, Hc).
  assert (S1 : sent st1 = sent st /\ unhandled st1 = unhandled st /\
               microtasks st1 = [] /\
               connections st1 =
                 <[p := {| settlement := Pending;
                           reactions := map realtimeInput fs;
                           remote_closed := remote_closed c |}]>
                   (connections st)).
  { subst st1. unfold LiveSession.step. cbn [LiveSession.handle fst].
    unfold checkpoint. rewrite C3, Hq. cbn. rewrite C2, Hr.
    repeat split; assumption. }
  destruct S1 as (S1 & S2 & S3 & S4). clearbody st1. split; [exact S1|].
  set (c1 := {| settlement := Pending; reactions := map realtimeInput fs;
                remote_closed := remote_closed c |}) in *.
  assert (Hc1 : connections st1 !! p = Some c1)
    by (rewrite S4; apply list_lookup_insert_eq, Hlt).
  set (c2 := {| settlement := if ok then Fulfilled else Rejected;
                reactions := []; remote_closed := remote_closed c1 |}).
  assert (E2 : st2 =
               drain (map (pair p) (map realtimeInput fs))
                 (set_microtasks []
                    (set_connections (<[p := c2]> (connections st1)) st1))).
  { subst st2. unfold LiveSession.step. cbn [LiveSession.handle fst].
    unfold settle. rewrite Hc1. cbn [settlement c1].
    unfold checkpoint. cbn. rewrite S3. reflexivity. }
  clearbody st2.
  assert (Hc2 : connections
                  (set_microtasks []
                     (set_connections (<[p := c2]> (connections st1)) st1))
                !! p = Some c2).
  { cbn. apply list_lookup_insert_eq. rewrite S4, length_insert. exact Hlt. }
  destruct (drain_settled (map realtimeInput fs) _ p c2 Hc2) as [_ D].
  { subst c2. cbn. destruct ok; discriminate. }
  rewrite <- E2 in D. subst c2. cbn in D.
  destruct ok; destruct D as [D1 D2]; rewrite D1, D2, ?S1, ?S2.
  - rewrite map_map. split; reflexivity.
  - rewrite length_map. split; reflexivity.
Qed.

(** **** An object that connects once *)









(** **** The session object in the component *)

Lemma quiet_connect_new :
  quiet (connect new)
    {| settlement := Pending; reactions := []; remote_closed := false |}.
Proof. repeat split. Qed.

(** The events the component passes on, on a quiet session: it stays quiet;
    only the settling of the promise changes the settlement, and only a
    frame changes what was sent. *)
Lemma quiet_step (e : Event) (st : State) (c : Connection) :
  quiet st c ->
  match e with
  | Script [SendAudio _] => settlement c = Fulfilled
  | Script _ => False
  | _ => True
  end ->
  exists c',
    quiet (step st e).1 c' /\
    settlement c' =
      match e, settlement c with
      | Settle 0 ok, Pending => if ok then Fulfilled else Rejected
      | _, s => s
      end /\
    sent (step st e).1 =
      match e with
      | Script [SendAudio pcmData] => sent st ++ [(0%nat, realtimeInput pcmData)]
      | _ => sent st
      end.
Proof.
  intros (Hp & Hc & Hq & Hr) He.
  destruct st as [sp cs q snt con unh]. destruct c as [s r b].
  cbn in Hp, Hc, Hq, Hr. subst sp cs q r.
  destruct e as [[|[|pcmData|] [|? ?]]|[|p] ok| |[d|]|[|p]|]; cbn in He;
    try contradiction; subst;
    unfold LiveSession.step, LiveSession.handle, onmessage;
    try destruct (String.eqb d ""); try destruct s; try destruct ok;
    eexists; repeat split; reflexivity.
Qed.

End LiveSessionFacts.

(** ** Facts about LiveInterface *)

Section LiveInterfaceFacts.

Import LiveInterface.
Local Open Scope Q_scope.

Context {Float32Array : Type}.
Variable convertFloat32ToInt16 : Float32Array -> list byte.

Local Abbreviation step := (LiveInterface.step convertFloat32ToInt16).
Local Abbreviation run := (LiveInterface.run convertFloat32ToInt16).
Local Abbreviation session_event :=
  (LiveInterface.session_event convertFloat32ToInt16).
Local Abbreviation Event := (@LiveInterface.Event Float32Array).

(** [Math.max] keeps its first argument when the second is not above it. *)
Lemma Qmax_keep (a b : Q) : b <= a -> Qmax a b = a.
Proof.
  intros H. unfold Qmax, GenericMinMax.gmax.
  destruct (a ?= b) eqn:E; try reflexivity.
  apply Qlt_alt in E. exfalso. exact (Qle_not_lt _ _ H E).
Qed.

Lemma Qle_plus_nonneg (c d : Q) : 0 <= d -> c <= c + d.
Proof.
  intros H. rewrite <- (Qplus_0_r c) at 1.
  apply Qplus_le_compat; [apply Qle_refl | exact H].
Qed.

Lemma playAudio_cursor (base64Data : string) (st : State) :
  started (spawn (playAudio base64Data) st) = started st /\
  match outputCtxRef st with
  | Some ctx =>
      nextStartTimeRef (spawn (playAudio base64Data) st) =
      Qmax (nextStartTimeRef st) (currentTime ctx)
  | None => nextStartTimeRef (spawn (playAudio base64Data) st) = nextStartTimeRef st
  end.
Proof.
  unfold spawn, playAudio.
  destruct (outputCtxRef st) as [ctx|]; [|split; reflexivity].
  destruct (AudioUtils.b64ToUint8Array base64Data); split; reflexivity.
Qed.

(** What an event of the SDK does to the component: the session object
    changes, then the callbacks of the task run. *)
Lemma session_event_unfold (e : nat -> @LiveSession.Event Float32Array)
    (st : State) (session : LiveSession.State) :
  sessionRef st = Some session ->
  let p := default 0%nat (LiveSession.sessionPromise session) in
  let session' := (LiveSession.step convertFloat32ToInt16 session (e p)).1 in
  session_event e st =
  fold_left (fun s cb => callback cb s)
    match e p with
    | LiveSession.Message (Some d) =>
        if String.eqb d "" then [] else [LiveSession.onAudioData d]
    | LiveSession.Close _ => [LiveSession.onClose]
    | _ => []
    end
    (set_sessionRef (Some session') st).
Proof.
  intros Hs p session'. unfold LiveInterface.session_event. rewrite Hs.
  fold p. pose proof (step_callbacks convertFloat32ToInt16 session (e p)) as Hcb.
  subst session'.
  destruct (LiveSession.step convertFloat32ToInt16 session (e p))
    as [session1 cbs].
  cbn [fst snd] in *. rewrite Hcb. reflexivity.
Qed.

Lemma session_event_quiet (e : nat -> @LiveSession.Event Float32Array)
    (st : State) :
  (forall p audioData, e p <> LiveSession.Message audioData) ->
  nextStartTimeRef (session_event e st) = nextStartTimeRef st /\
  started (session_event e st) = started st.
Proof.
  intros Hne. destruct (sessionRef st) as [session|] eqn:Hs.
  - rewrite (session_event_unfold e st session Hs).
    set (p := default 0%nat (LiveSession.sessionPromise session)).
    specialize (Hne p).
    destruct (e p) as [cs|q ok| |audioData|q|]; cbn; try (split; reflexivity).
    exfalso. exact (Hne audioData eq_refl).
  - unfold LiveInterface.session_event. rewrite Hs. split; reflexivity.
Qed.

Lemma inbound_move (audioData : option string) (st : State) :
  Move (Inbound audioData : Event) st
    (session_event (fun _ => LiveSession.Message audioData) st).
Proof.
  destruct (sessionRef st) as [session|] eqn:Hs.
  - rewrite (session_event_unfold _ st session Hs). cbv zeta.
    set (st1 := set_sessionRef _ st).
    destruct audioData as [d|]; [|apply Still; reflexivity].
    destruct (String.eqb_spec d "") as [_|Hd]; [apply Still; reflexivity|].
    cbn [fold_left callback].
    destruct (playAudio_cursor d st1) as [H1 H2].
    destruct (outputCtxRef st) as [ctx|] eqn:Hctx.
    + apply (Resync _ _ _ d ctx); try reflexivity; try assumption.
      change (outputCtxRef st1) with (outputCtxRef st) in H2.
      rewrite Hctx in H2. exact H2.
    + change (outputCtxRef st1) with (outputCtxRef st) in H2.
      rewrite Hctx in H2. apply Still; assumption.
  - unfold LiveInterface.session_event. rewrite Hs. apply Still; reflexivity.
Qed.

Lemma spawn_startSession_connected_cursor (ok : bool) (st : State) :
  nextStartTimeRef (spawn (startSession_connected ok) st) = nextStartTimeRef st /\
  started (spawn (startSession_connected ok) st) = started st.
Proof. destruct ok; destruct_refs st; split; reflexivity. Qed.

Lemma stopSession_cursor (st : State) :
  nextStartTimeRef (stopSession st).1 = nextStartTimeRef st /\
  started (stopSession st).1 = started st /\
  decoding (stopSession st).1 = decoding st.
Proof. destruct_refs st; repeat split. Qed.

Lemma step_move (st : State) (e : Event) : Move e st (step st e).
Proof.
  destruct e as [|g|ok| |d| | |f|k r|dt|]; cbn [LiveInterface.step].
  - destruct (suspended st); apply Still; reflexivity.
  - destruct (suspended st), g; try (apply Still; reflexivity);
      destruct_refs st; apply Still; reflexivity.
  - destruct (suspended st); try (apply Still; reflexivity).
    destruct (spawn_startSession_connected_cursor ok
                (session_event (fun p => LiveSession.Settle p ok) st))
      as [E1 E2].
    destruct (session_event_quiet (fun p => LiveSession.Settle p ok) st)
      as [H1 H2]; [discriminate|].
    apply Still; congruence.
  - apply Still; apply session_event_quiet; discriminate.
  - apply inbound_move.
  - apply Still; apply session_event_quiet; discriminate.
  - apply Still; apply session_event_quiet; discriminate.
  - destruct (processorRef st) as [node|], (inputCtxRef st) as [ctx|];
      try (apply Still; reflexivity).
    destruct (onaudioprocess node && connected node && is_running ctx);
      [|apply Still; reflexivity].
    apply Still; apply session_event_quiet; discriminate.
  - destruct (decoding st !! k); [|apply Still; reflexivity].
    destruct r as [b|].
    + apply (Advance _ _ _ k b); reflexivity.
    + apply Still; reflexivity.
  - apply Still; reflexivity.
  - apply Still; apply stopSession_cursor.
Qed.

(** **** Capture order in the component *)

Lemma session_ok_more (st : State) (F G : list LiveSession.Media) :
  session_ok st F -> session_ok st (F ++ G).
Proof.
  intros H session Hs. destruct (H session Hs) as (H1 & H2 & H3).
  split; [apply consistent_more, H1 | split; assumption].
Qed.

Lemma session_ok_same (st st' : State) (F : list LiveSession.Media) :
  sessionRef st' = sessionRef st -> session_ok st F -> session_ok st' F.
Proof. intros E H session Hs. apply H. rewrite <- E. exact Hs. Qed.

Lemma sessionRef_callback (cb : LiveSession.Callback) (st : State) :
  sessionRef (callback cb st) = sessionRef st.
Proof.
  destruct cb as [d|]; [|reflexivity]. cbn [callback].
  unfold spawn, playAudio. destruct (outputCtxRef st); [|reflexivity].
  destruct (AudioUtils.b64ToUint8Array d); reflexivity.
Qed.

Lemma session_event_ok (e : nat -> @LiveSession.Event Float32Array)
    (st : State) (F : list LiveSession.Media) (frames : list Float32Array) :
  (forall p, LiveSession.connect_free (e p)) ->
  (forall p, LiveSession.frames_of (e p) = frames) ->
  session_ok st F ->
  session_ok (session_event e st)
    (F ++ map (LiveSession.realtimeInput convertFloat32ToInt16) frames).
Proof.
  intros Hfree Hframes H.
  destruct (sessionRef st) as [session|] eqn:Hs.
  - destruct (H session Hs) as (H1 & H2 & H3).
    rewrite (session_event_unfold e st session Hs). cbv zeta.
    set (p := default 0%nat (LiveSession.sessionPromise session)).
    pose proof (consistent_step convertFloat32ToInt16 (e p) session F H1) as C.
    destruct (step_known convertFloat32ToInt16 (e p) session H2) as [K L].
    rewrite Hframes in C. specialize (L (Hfree p)).
    set (session' := (LiveSession.step convertFloat32ToInt16 session (e p)).1) in *.
    assert (Hok : session_ok (set_sessionRef (Some session') st)
                    (F ++ map (LiveSession.realtimeInput convertFloat32ToInt16)
                            frames)).
    { intros x [= <-]. split; [exact C | split; [exact K | congruence]]. }
    destruct (e p) as [cs|q ok| |[d|]|q|]; cbn [fold_left]; try exact Hok.
    destruct (String.eqb d ""); cbn [fold_left]; [exact Hok|].
    eapply session_ok_same; [apply sessionRef_callback | exact Hok].
  - unfold LiveInterface.session_event. rewrite Hs.
    apply session_ok_more, H.
Qed.

Lemma session_ok_created (st : State) (F : list LiveSession.Media) :
  session_ok (set_sessionRef (Some (LiveSession.connect LiveSession.new)) st) F.
Proof.
  intros x [= <-]. split; [|split; [constructor | reflexivity]].
  apply consistent_connect. apply (consistent_more LiveSession.new [] F).
  apply consistent_new.
Qed.

Lemma step_session_ok (st : State) (e : Event) (F : list LiveSession.Media) :
  session_ok st F ->
  session_ok (step st e)
    (F ++ map (LiveSession.realtimeInput convertFloat32ToInt16)
            (audio_frames [e])).
Proof.
  intros H.
  destruct e as [|g|ok| |d| | |f|k r|dt|]; cbn [audio_frames flat_map app map];
    rewrite ?app_nil_r; cbn [LiveInterface.step].
  - destruct (suspended st); exact H.
  - destruct (suspended st); try exact H.
    destruct g as [stream|]; [|exact H].
    destruct (inputCtxRef st) as [ctx|] eqn:Hctx.
    + unfold spawn, startSession_media, try_catch, seq, modify. cbn.
      rewrite Hctx. cbn.
      eapply session_ok_same; [|apply (session_ok_created st F)].
      reflexivity.
    + unfold spawn, startSession_media, try_catch, seq, modify. cbn.
      rewrite Hctx. cbn. exact H.
  - destruct (suspended st); try exact H.
    assert (Hs : session_ok
                   (session_event (fun p => LiveSession.Settle p ok) st) F).
    { rewrite <- (app_nil_r F).
      apply (session_event_ok _ st F []); [intros; exact I | reflexivity | exact H]. }
    revert Hs. generalize (session_event (fun p => LiveSession.Settle p ok) st).
    intros st1 Hs. eapply session_ok_same; [|exact Hs].
    destruct ok; destruct_refs st1; reflexivity.
  - rewrite <- (app_nil_r F).
    apply (session_event_ok _ st F []); [intros; exact I | reflexivity | exact H].
  - rewrite <- (app_nil_r F).
    apply (session_event_ok _ st F []); [intros; exact I | reflexivity | exact H].
  - rewrite <- (app_nil_r F).
    apply (session_event_ok _ st F []); [intros; exact I | reflexivity | exact H].
  - rewrite <- (app_nil_r F).
    apply (session_event_ok _ st F []); [intros; exact I | reflexivity | exact H].
  - destruct (processorRef st) as [node|], (inputCtxRef st) as [ctx|];
      try (apply session_ok_more, H).
    destruct (onaudioprocess node && connected node && is_running ctx);
      [|apply session_ok_more, H].
    apply (session_event_ok _ st F [f]); [|reflexivity | exact H].
    intros p. cbn. repeat constructor. discriminate.
  - destruct (decoding st !! k); [|exact H].
    eapply session_ok_same; [|exact H]. destruct r; reflexivity.
  - exact H.
  - eapply session_ok_same; [|exact H].
    destruct_refs st; rewrite ?disconnect_id; reflexivity.
Qed.

Lemma run_session_ok (evs : list Event) (st : State)
    (F : list LiveSession.Media) :
  session_ok st F ->
  session_ok (run st evs)
    (F ++ map (LiveSession.realtimeInput convertFloat32ToInt16)
            (audio_frames evs)).
Proof.
  revert st F. induction evs as [|e evs IH]; intros st F H.
  - cbn. rewrite app_nil_r. exact H.
  - change (e :: evs) with ([e] ++ evs).
    unfold audio_frames. rewrite flat_map_app, map_app, app_assoc.
    cbn [LiveInterface.run fold_left app]. apply IH, step_session_ok, H.
Qed.

(** In the component the session object connects once, so what
    [sendRealtimeInput] received, on the whole, is a sublist of the encoded
    frames the capture callback was given, in capture order. *)
Lemma capture_order_in_component (evs : list Event)
    (session : LiveSession.State) :
  sessionRef (run initial evs) = Some session ->
  map snd (LiveSession.sent session) `sublist_of`
  map (LiveSession.realtimeInput convertFloat32ToInt16) (audio_frames evs).
Proof.
  intros Hs.
  assert (H0 : session_ok initial []) by (intros x Hx; discriminate Hx).
  destruct (run_session_ok evs initial [] H0 session Hs) as (C & K & L).
  rewrite <- (delivered_single session K L).
  destruct (C 0%nat) as [H _]. cbn [app] in H. etrans; [|exact H].
  unfold LiveSession.backlog. apply sublist_inserts_r. reflexivity.
Qed.

(** **** The cursor never decreases *)

Lemma step_cursor_le (st : State) (e : Event) :
  duration_nonneg e -> nextStartTimeRef st <= nextStartTimeRef (step st e).
Proof.
  intros Hd.
  destruct (step_move st e) as [H1 _ | d ctx _ _ _ H1 _ | k b He _ H1];
    rewrite H1.
  - apply Qle_refl.
  - apply Q.le_max_l.
  - subst e. apply Qle_plus_nonneg, Hd.
Qed.

Lemma run_cursor_le (evs : list Event) (st : State) :
  Forall duration_nonneg evs ->
  nextStartTimeRef st <= nextStartTimeRef (run st evs).
Proof.
  revert st. induction evs as [|e evs IH]; intros st Hd.
  - apply Qle_refl.
  - inversion Hd as [|? ? He Hevs]; subst. cbn.
    eapply Qle_trans; [apply step_cursor_le, He | apply IH, Hevs].
Qed.

(** C3. Playback cursor invariant: when decoded buffers have a non-negative
    duration the cursor never decreases over a run, and in the state the run
    reaches each of the two writes of [playAudio] leaves it at or above its
    previous value: the resync, which also leaves it at or above the clock of
    the output context, and the advance by the duration of the buffer. *)
Theorem cursor_never_decreases (st : State) (evs : list Event)
    (base64Data : string) (audioBuffer : AudioBuffer) :
  Forall duration_nonneg evs ->
  0 <= duration audioBuffer ->
  let st' := run st evs in
  nextStartTimeRef st <= nextStartTimeRef st' /\
  nextStartTimeRef st' <= nextStartTimeRef (playAudio base64Data st').1 /\
  match outputCtxRef st' with
  | Some ctx => currentTime ctx <= nextStartTimeRef (playAudio base64Data st').1
  | None => True
  end /\
  nextStartTimeRef st' <=
  nextStartTimeRef (playAudio_resume (Some audioBuffer) st').1.
Proof.
  intros Hd Hb st'. split; [apply run_cursor_le, Hd|].
  unfold playAudio. destruct (outputCtxRef st') as [ctx|].
  - destruct (AudioUtils.b64ToUint8Array base64Data); cbn;
      (split; [apply Q.le_max_l | split; [apply Q.le_max_r|]]);
      apply Qle_plus_nonneg, Hb.
  - cbn. split; [apply Qle_refl | split; [exact I|]].
    apply Qle_plus_nonneg, Hb.
Qed.


(** C4, amended. Decode failure: a chunk that cannot be decoded starts no
    source and adds no duration to the cursor, which keeps the value the
    resync of that chunk gave it; refs, status and console are untouched;
    the promise of [playAudio] is rejected and nobody handles it, nothing is
    written to the console; the next chunk is taken up as usual.  This holds
    when the text is not base64 and when the decoding that was awaited
    fails. *)
Theorem decode_failure_skips_chunk (st : State) (base64Data : string)
    (ctx : AudioContext) :
  outputCtxRef st = Some ctx ->
  AudioUtils.b64ToUint8Array base64Data = None ->
  let st' := callback (LiveSession.onAudioData base64Data) st in
  st' = reject_unhandled
          (set_nextStartTimeRef
             (Qmax (nextStartTimeRef st) (currentTime ctx)) st) /\
  (forall k,
     is_Some (decoding st !! k) ->
     step st (DecodeSettled k None) =
     reject_unhandled (set_decoding (delete k (decoding st)) st)) /\
  (forall next audioBytes,
     AudioUtils.b64ToUint8Array next = Some audioBytes ->
     decoding (callback (LiveSession.onAudioData next) st') =
     decoding st' ++ [audioBytes]).
Proof.
  intros Hctx Hbad st'.
  assert (E : st' = reject_unhandled
                      (set_nextStartTimeRef
                         (Qmax (nextStartTimeRef st) (currentTime ctx)) st)).
  { subst st'. cbn [callback]. unfold spawn, playAudio.
    rewrite Hctx, Hbad. reflexivity. }
  split; [exact E|]. split.
  - intros k [bytes Hk]. cbn [LiveInterface.step]. rewrite Hk. reflexivity.
  - intros next audioBytes Hnext. rewrite E. cbn [callback].
    unfold spawn, playAudio. cbn. rewrite Hctx, Hnext. reflexivity.
Qed.

Lemma stop_tracks_ended (stream : MediaStream) :
  Forall (eq ended) (map MediaStreamTrack_stop stream).
Proof.
  induction stream as [|t stream IH]; cbn; constructor;
    [reflexivity | exact IH].
Qed.

Lemma stop_tracks_again (stream : MediaStream) :
  map MediaStreamTrack_stop (map MediaStreamTrack_stop stream) =
  map MediaStreamTrack_stop stream.
Proof. rewrite map_map. reflexivity. Qed.

(** C5, amended. Teardown: [stopSession] returns without throwing from every
    state, so also when called twice or before the session became active,
    and leaves every resource the component holds itself (the tracks of the
    stream, the processor node, both contexts) released.  A second call
    issues the same releases again, which changes none of these resources:
    the promises of the two [close] calls are rejected, unhandled.  The
    session object is left as it was: [stopSession] does not release the
    remote session. *)
Theorem stopSession_twice (st : State) :
  let s1 := stopSession st in
  let s2 := stopSession s1.1 in
  s1.2 = Returned /\ s2.2 = Returned /\
  local_released s1.1 /\
  streamRef s2.1 = streamRef s1.1 /\
  processorRef s2.1 = processorRef s1.1 /\
  inputCtxRef s2.1 = inputCtxRef s1.1 /\
  outputCtxRef s2.1 = outputCtxRef s1.1 /\
  sessionRef s2.1 = sessionRef s1.1 /\
  sessionRef s1.1 = sessionRef st /\
  unhandled s2.1 = (unhandled s1.1 + contexts_held st)%nat.
Proof.
  unfold local_released, contexts_held.
  destruct_refs st; rewrite ?disconnect_id, ?stop_tracks_again;
    repeat split; try reflexivity; try lia;
    intros x [= <-]; try reflexivity; apply stop_tracks_ended.
Qed.


(** **** Start times *)

Lemma step_keeps_nonneg (st : State) (e : Event) :
  duration_nonneg e ->
  0 <= nextStartTimeRef st -> Forall (fun b => 0 <= when b) (started st) ->
  0 <= nextStartTimeRef (step st e) /\
  Forall (fun b => 0 <= when b) (started (step st e)).
Proof.
  intros Hd Hc Hs. split.
  - eapply Qle_trans; [exact Hc | apply step_cursor_le, Hd].
  - destruct (step_move st e)
      as [H1 H2 | d ctx He Hd' Hctx H1 H2 | k b He H2 H1]; rewrite H2;
      try exact Hs.
    apply Forall_app. split; [exact Hs|]. constructor; [exact Hc | constructor].
Qed.

(** X2.  No negative start time: when decoded buffers have a non-negative
    duration, every [source.start(when)] of a run is called with a [when] that
    is not negative, and the cursor is never negative. *)
Theorem start_times_nonnegative (evs : list Event) :
  Forall duration_nonneg evs ->
  Forall (fun b => 0 <= when b) (started (run initial evs)) /\
  0 <= nextStartTimeRef (run initial evs).
Proof.
  assert (H : forall st, Forall duration_nonneg evs ->
                0 <= nextStartTimeRef st ->
                Forall (fun b => 0 <= when b) (started st) ->
                Forall (fun b => 0 <= when b) (started (run st evs)) /\
                0 <= nextStartTimeRef (run st evs)).
  { induction evs as [|e evs IH]; intros st Hd Hc Hs; [split; assumption|].
    inversion Hd as [|? ? He Hevs]; subst.
    destruct (step_keeps_nonneg st e He Hc Hs) as [Hc' Hs'].
    cbn. apply IH; assumption. }
  intros Hd. apply (H initial Hd); [apply Qle_refl | constructor].
Qed.

(** **** Received, decoding, started *)

Lemma playAudio_decoding (base64Data : string) (st : State) :
  (length (decoding (spawn (playAudio base64Data) st)) <=
   S (length (decoding st)))%nat.
Proof.
  unfold spawn, playAudio. destruct (outputCtxRef st); [|cbn; lia].
  destruct (AudioUtils.b64ToUint8Array base64Data); cbn;
    rewrite ?length_app; cbn; lia.
Qed.

Lemma session_event_decoding (e : nat -> @LiveSession.Event Float32Array)
    (st : State) :
  (forall p audioData, e p <> LiveSession.Message audioData) ->
  decoding (session_event e st) = decoding st.
Proof.
  intros Hne. destruct (sessionRef st) as [session|] eqn:Hs.
  - rewrite (session_event_unfold e st session Hs).
    set (p := default 0%nat (LiveSession.sessionPromise session)).
    specialize (Hne p).
    destruct (e p) as [cs|q ok| |audioData|q|]; cbn; try reflexivity.
    exfalso. exact (Hne audioData eq_refl).
  - unfold LiveInterface.session_event. rewrite Hs. reflexivity.
Qed.

Lemma inbound_decoding (audioData : option string) (st : State) :
  (length (decoding (session_event
                       (fun _ => LiveSession.Message audioData) st)) <=
   length (decoding st) +
   (if carries_audio (Inbound audioData : Event) then 1 else 0))%nat.
Proof.
  destruct (sessionRef st) as [session|] eqn:Hs.
  - rewrite (session_event_unfold _ st session Hs). cbv zeta.
    set (st1 := set_sessionRef _ st).
    destruct audioData as [d|]; [|cbn; lia].
    cbn [carries_audio]. destruct (String.eqb d ""); [cbn; lia|].
    cbn [fold_left callback negb].
    pose proof (playAudio_decoding d st1) as H.
    change (decoding st1) with (decoding st) in H. lia.
  - unfold LiveInterface.session_event. rewrite Hs. lia.
Qed.

Lemma step_accounting (st : State) (e : Event) :
  (length (started (step st e)) + length (decoding (step st e)) <=
   length (started st) + length (decoding st) +
   (if carries_audio e then 1 else 0))%nat.
Proof.
  destruct e as [|g|ok| |d| | |f|k r|dt|]; cbn [LiveInterface.step];
    try (cbn [carries_audio]; rewrite Nat.add_0_r).
  - destruct (suspended st); cbn; lia.
  - destruct (suspended st), g; try (cbn; lia); destruct_refs st; lia.
  - destruct (suspended st); try (cbn; lia).
    pose proof (session_event_decoding
                  (fun p => LiveSession.Settle p ok) st) as Hd.
    destruct (session_event_quiet
                (fun p => LiveSession.Settle p ok) st) as [_ Hs];
      [discriminate|].
    specialize (Hd ltac:(discriminate)).
    revert Hd Hs.
    generalize (session_event (fun p => LiveSession.Settle p ok) st).
    intros st1 Hd Hs. rewrite <- Hd, <- Hs.
    destruct ok; destruct_refs st1; lia.
  - rewrite session_event_decoding by discriminate.
    destruct (session_event_quiet
                (fun _ => LiveSession.Open) st) as [_ ->];
      [discriminate | lia].
  - destruct (inbound_move d st)
      as [_ H2 | ? ? _ _ _ _ H2 | ? ? He _ _]; [| |discriminate He];
      rewrite H2; pose proof (inbound_decoding d st); lia.
  - rewrite session_event_decoding by discriminate.
    destruct (session_event_quiet
                (fun p => LiveSession.Close p) st) as [_ ->];
      [discriminate | lia].
  - rewrite session_event_decoding by discriminate.
    destruct (session_event_quiet
                (fun _ => LiveSession.Error) st) as [_ ->];
      [discriminate | lia].
  - destruct (processorRef st) as [node|], (inputCtxRef st) as [ctx|];
      try lia.
    destruct (onaudioprocess node && connected node && is_running ctx);
      [|lia].
    rewrite session_event_decoding by discriminate.
    destruct (session_event_quiet
                (fun _ => LiveSession.Script [LiveSession.SendAudio f]) st)
      as [_ ->]; [discriminate | lia].
  - destruct (decoding st !! k) as [bytes|] eqn:Hk; [|lia].
    assert (Hlen : S (length (delete k (decoding st))) = length (decoding st)).
    { rewrite length_delete by eauto. apply lookup_lt_Some in Hk. lia. }
    destruct r as [b|]; cbn; rewrite ?length_app; cbn; lia.
  - cbn. lia.
  - destruct (stopSession_cursor st) as (_ & -> & ->). lia.
Qed.

Lemma step_started_buffers (st : State) (e : Event) :
  exists bs,
    map buffer (started (step st e)) = map buffer (started st) ++ bs /\
    bs `sublist_of` settled_buffers [e].
Proof.
  destruct (step_move st e)
    as [_ H2 | d ctx _ _ _ _ H2 | k b He H2 _]; rewrite H2.
  - exists []. rewrite app_nil_r. split; [reflexivity | apply sublist_nil_l].
  - exists []. rewrite app_nil_r. split; [reflexivity | apply sublist_nil_l].
  - exists [b]. rewrite map_app. subst e. split; reflexivity.
Qed.

(** X3.  Received, decoding, started: in every run of the component the
    buffers started are buffers that settled decodings produced, each started
    at most once and in the order the decodings settled (not the order the
    chunks arrived); and sources started plus decodings in flight never exceed
    the messages with audio received. *)
Theorem started_follow_settled_decodings (evs : list Event) :
  map buffer (started (run initial evs)) `sublist_of` settled_buffers evs /\
  (length (started (run initial evs)) + length (decoding (run initial evs)) <=
   audio_messages evs)%nat.
Proof.
  assert (H : forall st,
    (exists bs, map buffer (started (run st evs)) =
                map buffer (started st) ++ bs /\
                bs `sublist_of` settled_buffers evs) /\
    (length (started (run st evs)) + length (decoding (run st evs)) <=
     length (started st) + length (decoding st) + audio_messages evs)%nat).
  { induction evs as [|e evs IH]; intros st.
    - cbn. split; [exists []; rewrite app_nil_r; split; reflexivity | lia].
    - destruct (IH (step st e)) as [(bs & E & S) L].
      destruct (step_started_buffers st e) as (bs1 & E1 & S1).
      pose proof (step_accounting st e) as L1.
      change (run st (e :: evs)) with (run (step st e) evs). split.
      + exists (bs1 ++ bs). rewrite E, E1, app_assoc. split; [reflexivity|].
        change (e :: evs) with ([e] ++ evs). unfold settled_buffers in *.
        rewrite flat_map_app. apply sublist_app; assumption.
      + unfold audio_messages in *. cbn [List.filter].
        destruct (carries_audio e); cbn [length]; lia. }
  destruct (H initial) as [(bs & E & S) L]. cbn in E, L. split.
  - rewrite E. exact S.
  - exact L.
Qed.

(** **** What the component keeps true *)

Lemma well_formed_outline (st st' : State) :
  outline st' = outline st -> well_formed st -> well_formed st'.
Proof.
  unfold outline, well_formed. intros [= E1 E2 E3 E4 E5 E6 E7 E8].
  rewrite E1, E2, E3, E4, E5, E6, E7, E8. exact (fun H => H).
Qed.

Lemma outline_playAudio (base64Data : string) (st : State) :
  outline (spawn (playAudio base64Data) st) = outline st.
Proof.
  unfold spawn, playAudio. destruct (outputCtxRef st) eqn:E; [|reflexivity].
  destruct (AudioUtils.b64ToUint8Array base64Data); unfold outline; cbn;
    rewrite E; reflexivity.
Qed.

Lemma outline_stopSession (st : State) :
  outline (stopSession st).1 = outline st.
Proof. destruct_refs st; rewrite ?disconnect_id; reflexivity. Qed.

Lemma well_formed_initial : well_formed initial.
Proof.
  unfold well_formed. cbn. repeat split; try discriminate; try congruence.
Qed.

Lemma quiet_unique (session : LiveSession.State)
    (c c0 : LiveSession.Connection) :
  LiveSession.quiet session c -> LiveSession.quiet session c0 -> c0 = c.
Proof. intros (_ & E & _) (_ & E0 & _). congruence. Qed.

Lemma well_formed_set_session (st : State) (session session' : LiveSession.State)
    (c c' : LiveSession.Connection) :
  well_formed st ->
  sessionRef st = Some session ->
  LiveSession.quiet session c ->
  LiveSession.quiet session' c' ->
  LiveSession.settlement c' = LiveSession.settlement c ->
  well_formed (set_sessionRef (Some session') st).
Proof.
  intros (HA & HB & HC & HD & HE) Hs Hq Hq' Hsame.
  destruct (HE session Hs) as (H1 & H2 & c0 & Hq0 & Hw & Ha & Hp).
  rewrite (quiet_unique session c c0 Hq Hq0) in *.
  unfold well_formed.
  change (wired (set_sessionRef (Some session') st)) with (wired st).
  cbn [status sessionRef suspended inputCtxRef outputCtxRef processorRef
       streamRef set_sessionRef is_set].
  split; [intros Hx; specialize (HA Hx); congruence|].
  split; [exact HB|]. split; [reflexivity|]. split; [discriminate|].
  intros s [= <-]. split; [exact H1|]. split; [exact H2|].
  exists c'. rewrite Hsame.
  split; [exact Hq'|]. split; [exact Hw|]. split; [exact Ha | exact Hp].
Qed.

Lemma well_formed_disconnected (st : State) :
  well_formed st -> well_formed (set_status disconnected st).
Proof.
  intros (HA & HB & HC & HD & HE). unfold well_formed.
  change (wired (set_status disconnected st)) with (wired st).
  cbn [status sessionRef suspended inputCtxRef outputCtxRef processorRef
       streamRef set_status is_set].
  split; [exact HA|]. split; [exact HB|]. split; [exact HC|].
  split; [intros Hx; split; [discriminate | apply HD, Hx]|].
  intros s Hs. destruct (HE s Hs) as (H1 & H2 & c & Hq & Hw & Ha & Hp).
  split; [exact H1|]. split; [exact H2|]. exists c.
  split; [exact Hq|]. split; [exact Hw|]. split; [discriminate|].
  intros Hx. destruct (Hp Hx) as (P1 & P2 & _).
  split; [exact P1|]. split; [exact P2 | discriminate].
Qed.

(** An event of the SDK on a well-formed component. *)
Lemma well_formed_session_event (e : nat -> @LiveSession.Event Float32Array)
    (st : State) :
  match e 0%nat with
  | LiveSession.Script [LiveSession.SendAudio _] => wired st = true
  | LiveSession.Script _ | LiveSession.Settle _ _ => False
  | _ => True
  end ->
  well_formed st -> well_formed (session_event e st).
Proof.
  intros He H. destruct (sessionRef st) as [session|] eqn:Hs;
    [|unfold LiveInterface.session_event; rewrite Hs; exact H].
  rewrite (session_event_unfold e st session Hs). cbv zeta.
  pose proof H as (_ & _ & _ & _ & HE).
  destruct (HE session Hs) as (_ & _ & c & Hq & Hw & _ & _).
  assert (Hp0 : default 0%nat (LiveSession.sessionPromise session) = 0%nat)
    by (destruct Hq as (-> & _); reflexivity).
  rewrite Hp0.
  destruct (quiet_step convertFloat32ToInt16 (e 0%nat) session c Hq)
    as (c' & Hq' & Hs' & _).
  { destruct (e 0%nat) as [[|[|f|] [|? ?]]| | | | |]; try exact He; try exact I.
    apply Hw, He. }
  assert (Hsame : LiveSession.settlement c' = LiveSession.settlement c).
  { rewrite Hs'. destruct (e 0%nat) as [| [|?] ?| | | |];
      try reflexivity; contradiction. }
  pose proof (well_formed_set_session st session _ c c' H Hs Hq Hq' Hsame)
    as Hbase.
  destruct (e 0%nat) as [cs|q ok| |[d|]|q|]; cbn [fold_left]; try exact Hbase.
  - destruct (String.eqb d ""); cbn [fold_left callback]; [exact Hbase|].
    eapply well_formed_outline; [apply outline_playAudio | exact Hbase].
  - cbn [callback]. apply well_formed_disconnected, Hbase.
Qed.

Lemma well_formed_mount (st : State) :
  well_formed st -> suspended st = NotStarted ->
  well_formed (spawn startSession st).
Proof.
  intros (HA & HB & HC & HD & HE) Hn.
  assert (Hs : sessionRef st = None) by (apply HA; left; exact Hn).
  unfold well_formed.
  change (wired (spawn startSession st)) with (wired st).
  cbn. rewrite Hs.
  split; [reflexivity|]. split; [intros _; split; reflexivity|].
  split; [discriminate|]. split; [intros _; apply HD, Hs|].
  intros s Hx. discriminate Hx.
Qed.

Lemma well_formed_media (st : State) (granted : option MediaStream) :
  well_formed st -> suspended st = AwaitUserMedia ->
  well_formed (spawn (startSession_media granted) st).
Proof.
  intros (HA & HB & HC & HD & HE) Hn.
  assert (Hs : sessionRef st = None) by (apply HA; right; exact Hn).
  destruct (HB ltac:(congruence)) as [Hin Hout].
  destruct (HD Hs) as [Hst Hpr].
  destruct (inputCtxRef st) as [ictx|] eqn:Ei; [|discriminate Hin].
  destruct (outputCtxRef st) as [octx|] eqn:Eo; [|discriminate Hout].
  destruct (processorRef st) as [node|] eqn:Ep; [discriminate Hpr|].
  destruct granted as [stream|].
  - unfold well_formed, wired, spawn, startSession_media, try_catch, seq,
      modify. cbn. rewrite Ei. cbn. rewrite ?Ei, ?Eo.
    split; [intros [Hx|Hx]; discriminate Hx|].
    split; [intros _; split; reflexivity|].
    split; [reflexivity|]. split; [discriminate|].
    intros s [= <-]. split; [reflexivity|]. split; [reflexivity|].
    eexists. split; [apply quiet_connect_new|].
    split; [discriminate|]. split; [intros Hx; contradiction|].
    intros _. split; [reflexivity|]. split; [reflexivity | exact Hst].
  - unfold well_formed, wired, spawn, startSession_media, try_catch, seq,
      modify, throw, startSession_catch. cbn. rewrite ?Hs, ?Ei, ?Eo, ?Ep.
    split; [intros [Hx|Hx]; discriminate Hx|].
    split; [intros _; split; reflexivity|].
    split; [discriminate|].
    split; [intros _; split; [discriminate | reflexivity]|].
    intros s Hx. discriminate Hx.
Qed.

Lemma well_formed_handshake (st : State) (ok : bool) :
  well_formed st -> suspended st = AwaitConnect ->
  well_formed
    (spawn (startSession_connected ok)
       (session_event (fun p => LiveSession.Settle p ok) st)).
Proof.
  intros H Hn. pose proof H as (HA & HB & HC & HD & HE).
  destruct (sessionRef st) as [session|] eqn:Hs;
    [|specialize (HC Hn); discriminate HC].
  destruct (HE session eq_refl) as (H1 & H2 & c & Hq & Hw & Ha & Hp).
  destruct (Hp Hn) as (Hpend & Hunwired & Hst).
  destruct (HB ltac:(congruence)) as [Hin Hout].
  rewrite (session_event_unfold _ st session Hs). cbv zeta.
  assert (Hp0 : default 0%nat (LiveSession.sessionPromise session) = 0%nat)
    by (destruct Hq as (-> & _); reflexivity).
  rewrite Hp0. cbn [fold_left].
  destruct (quiet_step convertFloat32ToInt16 (LiveSession.Settle 0 ok)
              session c Hq I) as (c' & Hq' & Hs' & _).
  rewrite Hpend in Hs'.
  set (session' := (LiveSession.step convertFloat32ToInt16 session
                      (LiveSession.Settle 0 ok)).1) in *.
  clearbody session'.
  destruct (processorRef st) as [node|] eqn:Ep; [|discriminate H2].
  destruct (streamRef st) as [stream|] eqn:Em; [|discriminate H1].
  destruct (inputCtxRef st) as [ictx|] eqn:Ei; [|discriminate Hin].
  destruct (outputCtxRef st) as [octx|] eqn:Eo; [|discriminate Hout].
  destruct ok.
  - unfold well_formed, wired, spawn, startSession_connected, try_catch, seq,
      modify. cbn. rewrite Ep. cbn. rewrite ?Ep, ?Em, ?Ei, ?Eo.
    split; [intros [Hx|Hx]; discriminate Hx|].
    split; [intros _; split; reflexivity|].
    split; [discriminate|]. split; [discriminate|].
    intros s [= <-]. split; [reflexivity|]. split; [reflexivity|].
    exists c'. split; [exact Hq'|]. split; [intros _; exact Hs'|].
    split; [reflexivity|]. discriminate.
  - unfold well_formed, wired, spawn, startSession_connected, try_catch, seq,
      modify, throw, startSession_catch. cbn. rewrite ?Ep, ?Em, ?Ei, ?Eo.
    unfold wired in Hunwired. rewrite Ep in Hunwired.
    split; [intros [Hx|Hx]; discriminate Hx|].
    split; [intros _; split; reflexivity|].
    split; [discriminate|]. split; [discriminate|].
    intros s [= <-]. split; [reflexivity|]. split; [reflexivity|].
    exists c'. split; [exact Hq'|].
    split; [intros Hx; rewrite Hunwired in Hx; discriminate Hx|].
    split; [discriminate | discriminate].
Qed.

Lemma well_formed_step (st : State) (e : Event) :
  well_formed st -> well_formed (step st e).
Proof.
  intros H.
  destruct e as [|g|ok| |d| | |f|k r|dt|]; cbn [LiveInterface.step].
  - destruct (suspended st) eqn:Hn; try exact H.
    apply well_formed_mount; assumption.
  - destruct (suspended st) eqn:Hn; try exact H.
    apply well_formed_media; assumption.
  - destruct (suspended st) eqn:Hn; try exact H.
    apply well_formed_handshake; assumption.
  - apply well_formed_session_event; [exact I | exact H].
  - apply well_formed_session_event; [exact I | exact H].
  - apply well_formed_session_event; [exact I | exact H].
  - apply well_formed_session_event; [exact I | exact H].
  - destruct (processorRef st) as [node|] eqn:Ep; [|exact H].
    destruct (inputCtxRef st) as [ctx|]; [|exact H].
    destruct (onaudioprocess node) eqn:Ew; cbn [andb]; [|exact H].
    destruct (connected node && is_running ctx); [|exact H].
    apply well_formed_session_event; [|exact H].
    cbn. unfold wired. rewrite Ep. exact Ew.
  - destruct (decoding st !! k); [|exact H].
    eapply well_formed_outline; [|exact H]. destruct r; reflexivity.
  - eapply well_formed_outline; [|exact H].
    unfold outline, wired. cbn. destruct (outputCtxRef st); reflexivity.
  - eapply well_formed_outline; [apply outline_stopSession | exact H].
Qed.

Lemma well_formed_run (evs : list Event) : well_formed (run initial evs).
Proof.
  assert (H : forall st, well_formed st -> well_formed (run st evs)).
  { induction evs as [|e evs IH]; intros st Hst; [exact Hst|].
    cbn. apply IH, well_formed_step, Hst. }
  apply H, well_formed_initial.
Qed.

(** X5.  An active session is set up: whenever the status is ['active'], the
    microphone stream, the processor node, both contexts and the session
    object exist, the capture callback is set and the handshake of the session
    has succeeded; and the capture callback is never set on a session whose
    handshake is pending or has failed. *)
Theorem active_session_is_set_up (evs : list Event) :
  let st := run initial evs in
  (status st = active ->
   wired st = true /\
   is_set (streamRef st) = true /\ is_set (processorRef st) = true /\
   is_set (inputCtxRef st) = true /\ is_set (outputCtxRef st) = true /\
   is_set (sessionRef st) = true) /\
  (wired st = true ->
   exists session c,
     sessionRef st = Some session /\
     LiveSession.connections session = [c] /\
     LiveSession.settlement c = LiveSession.Fulfilled).
Proof.
  intros st. destruct (well_formed_run evs) as (HA & HB & HC & HD & HE).
  fold st in HA, HB, HC, HD, HE.
  assert (Hw : wired st = true ->
               exists session c,
                 sessionRef st = Some session /\
                 LiveSession.connections session = [c] /\
                 LiveSession.settlement c = LiveSession.Fulfilled).
  { intros Hw. destruct (sessionRef st) as [session|] eqn:Hs.
    - destruct (HE session eq_refl) as (_ & _ & c & Hq & Hf & _).
      exists session, c. split; [reflexivity|].
      split; [apply Hq | apply Hf, Hw].
    - destruct (HD eq_refl) as [_ Hp]. unfold wired in Hw.
      destruct (processorRef st); discriminate. }
  split; [|exact Hw].
  intros Ha. destruct (sessionRef st) as [session|] eqn:Hs.
  - destruct (HE session eq_refl) as (H1 & H2 & c & Hq & Hf & Hact & Hp).
    assert (Hn : suspended st <> NotStarted).
    { intros Hx. specialize (HA (or_introl Hx)). discriminate HA. }
    destruct (HB Hn) as [Hi Ho].
    repeat split; try assumption. apply Hact, Ha.
  - destruct (HD eq_refl) as [Hx _]. contradiction.
Qed.

(** X6.  A captured frame is sent at once: in every run of the component, when
    the capture callback fires (the handler is set, the node connected, the
    input context running), the frame it is given is handed to
    [sendRealtimeInput] within the same task, as the last delivery; no frame
    is ever left waiting for the handshake. *)
Theorem captured_frame_is_sent_at_once (evs : list Event)
    (inputData : Float32Array) (node : ScriptProcessorNode)
    (ctx : AudioContext) :
  let st := run initial evs in
  processorRef st = Some node ->
  inputCtxRef st = Some ctx ->
  onaudioprocess node && connected node && is_running ctx = true ->
  exists session session',
    sessionRef st = Some session /\
    sessionRef (step st (AudioProcess inputData)) = Some session' /\
    LiveSession.sent session' =
      LiveSession.sent session ++
      [(0%nat, LiveSession.realtimeInput convertFloat32ToInt16 inputData)].
Proof.
  intros st Ep Ei Hfire.
  destruct (well_formed_run evs) as (_ & _ & _ & HD & HE). fold st in HD, HE.
  assert (Hw : wired st = true).
  { unfold wired. rewrite Ep.
    destruct (onaudioprocess node); [reflexivity | discriminate Hfire]. }
  destruct (sessionRef st) as [session|] eqn:Hs.
  - destruct (HE session eq_refl) as (_ & _ & c & Hq & Hf & _).
    destruct (quiet_step convertFloat32ToInt16
                (LiveSession.Script [LiveSession.SendAudio inputData])
                session c Hq (Hf Hw)) as (c' & _ & _ & Hsent).
    exists session. eexists. split; [reflexivity|].
    cbn [LiveInterface.step]. rewrite Ep, Ei, Hfire.
    rewrite (session_event_unfold _ st session Hs). cbv zeta.
    assert (Hp0 : default 0%nat (LiveSession.sessionPromise session) = 0%nat)
      by (destruct Hq as (-> & _); reflexivity).
    rewrite ?Hp0. cbn [fold_left sessionRef set_sessionRef].
    split; [reflexivity | exact Hsent].
  - destruct (HD eq_refl) as [_ Hp]. rewrite Ep in Hp. discriminate Hp.
Qed.

(** X7.  A remote close only changes the status: when the remote end closes
    the session the status becomes ['disconnected'] (if a session object
    exists), and the microphone stream, the processor node, both contexts, the
    cursor, the decodings in flight and the started sources are left as they
    were; nothing is released before [stopSession] runs. *)
Theorem remote_close_releases_nothing (st : State) :
  let st' := step st RemoteClose in
  streamRef st' = streamRef st /\
  processorRef st' = processorRef st /\
  inputCtxRef st' = inputCtxRef st /\
  outputCtxRef st' = outputCtxRef st /\
  nextStartTimeRef st' = nextStartTimeRef st /\
  decoding st' = decoding st /\
  started st' = started st /\
  status st' = if is_set (sessionRef st) then disconnected else status st.
Proof.
  cbn [LiveInterface.step]. destruct (sessionRef st) as [session|] eqn:Hs.
  - rewrite (session_event_unfold _ st session Hs). cbv zeta. cbn.
    repeat split.
  - unfold LiveInterface.session_event. rewrite Hs. cbn.
    repeat split.
Qed.

(** X8.  A failed start releases nothing: when the microphone is refused or
    the handshake fails, the [catch] block logs one line and sets the status
    to ['error']; the stream, the processor node and both contexts acquired so
    far stay as they are (the contexts running, the tracks live), and the
    capture callback is not set. *)
Theorem failed_start_releases_nothing (st : State) (e : Event) :
  (suspended st = AwaitUserMedia /\ e = UserMedia None) \/
  (suspended st = AwaitConnect /\ e = Handshake false) ->
  let st' := step st e in
  status st' = error /\
  console st' = console st ++ ["Failed to start live session"] /\
  streamRef st' = streamRef st /\
  processorRef st' = processorRef st /\
  inputCtxRef st' = inputCtxRef st /\
  outputCtxRef st' = outputCtxRef st.
Proof.
  intros [[Hn ->] | [Hn ->]]; cbn [LiveInterface.step]; rewrite Hn.
  - cbn. repeat split.
  - destruct (sessionRef st) as [session|] eqn:Hs.
    + rewrite (session_event_unfold _ st session Hs). cbv zeta. cbn.
      repeat split.
    + unfold LiveInterface.session_event. rewrite Hs. cbn. repeat split.
Qed.

(** **** The microphone *)

Lemma playAudio_stream (base64Data : string) (st : State) :
  streamRef (spawn (playAudio base64Data) st) = streamRef st /\
  suspended (spawn (playAudio base64Data) st) = suspended st.
Proof.
  unfold spawn, playAudio.
  destruct (outputCtxRef st) as [ctx|]; [|split; reflexivity].
  destruct (AudioUtils.b64ToUint8Array base64Data); split; reflexivity.
Qed.

Lemma session_event_stream (e : nat -> @LiveSession.Event Float32Array)
    (st : State) :
  streamRef (session_event e st) = streamRef st /\
  suspended (session_event e st) = suspended st.
Proof.
  destruct (sessionRef st) as [session|] eqn:Hs.
  - rewrite (session_event_unfold e st session Hs).
    set (p := default 0%nat (LiveSession.sessionPromise session)).
    destruct (e p) as [cs|q ok| |audioData|q|]; cbn; try (split; reflexivity).
    destruct audioData as [d|]; [|split; reflexivity].
    destruct (String.eqb d ""); [split; reflexivity|].
    cbn [fold_left callback].
    match goal with
    | |- context [spawn (playAudio d) ?s] =>
        destruct (playAudio_stream d s) as [E1 E2]
    end.
    rewrite E1, E2. split; reflexivity.
  - unfold LiveInterface.session_event. rewrite Hs. split; reflexivity.
Qed.

Lemma startSession_connected_stream (ok : bool) (st : State) :
  streamRef (spawn (startSession_connected ok) st) = streamRef st /\
  suspended (spawn (startSession_connected ok) st) = Finished.
Proof. destruct ok; destruct_refs st; split; reflexivity. Qed.

Lemma step_keeps_stream (st : State) (e : Event) :
  e <> Unmount ->
  suspended st = AwaitConnect \/ suspended st = Finished ->
  streamRef (step st e) = streamRef st /\
  (suspended (step st e) = AwaitConnect \/ suspended (step st e) = Finished).
Proof.
  intros He Hs.
  assert (Hev : forall f, streamRef (session_event f st) = streamRef st /\
                          (suspended (session_event f st) = AwaitConnect \/
                           suspended (session_event f st) = Finished)).
  { intros f. destruct (session_event_stream f st) as [E1 E2].
    rewrite E1, E2. split; [reflexivity | exact Hs]. }
  destruct e as [|g|ok| |d| | |f|k r|dt|]; cbn [LiveInterface.step];
    try apply Hev.
  - destruct Hs as [H|H]; rewrite H; (split; [reflexivity | rewrite H; tauto]).
  - destruct Hs as [H|H]; rewrite H; (split; [reflexivity | rewrite H; tauto]).
  - destruct Hs as [H|H]; rewrite H.
    + destruct (startSession_connected_stream ok
                  (session_event (fun p => LiveSession.Settle p ok) st))
        as [E1 E2].
      rewrite E1, E2. split; [apply session_event_stream | tauto].
    + split; [reflexivity | rewrite H; tauto].
  - destruct (processorRef st) as [node|], (inputCtxRef st) as [ctx|];
      try (split; [reflexivity | exact Hs]).
    destruct (onaudioprocess node && connected node && is_running ctx);
      [apply Hev | split; [reflexivity | exact Hs]].
  - destruct (decoding st !! k); [|split; [reflexivity | exact Hs]].
    destruct r as [b|]; split; (reflexivity || exact Hs).
  - split; [reflexivity | exact Hs].
  - now contradict He.
Qed.

(** X19.  Only [stopSession] stops the microphone: the stream that
    [getUserMedia] grants is held as granted until the component unmounts.
    So a stream granted after the component has unmounted, while
    [startSession] was still waiting for the permission, is never stopped. *)
Theorem microphone_stays_open_until_unmount (before after : list Event)
    (stream : MediaStream) :
  suspended (run initial before) = AwaitUserMedia ->
  Forall (fun e => e <> Unmount) after ->
  streamRef (run initial (before ++ UserMedia (Some stream) :: after)) =
  Some stream.
Proof.
  intros Hs Hafter. unfold LiveInterface.run in *.
  rewrite fold_left_app. cbn [fold_left].
  generalize dependent (fold_left step before initial). intros st0 Hs.
  assert (H1 : streamRef (step st0 (UserMedia (Some stream))) = Some stream /\
               (suspended (step st0 (UserMedia (Some stream))) = AwaitConnect \/
                suspended (step st0 (UserMedia (Some stream))) = Finished)).
  { cbn [LiveInterface.step]. rewrite Hs. clear Hs.
    destruct_refs st0; split; (reflexivity || tauto). }
  generalize dependent (step st0 (UserMedia (Some stream))).
  clear st0 Hs. induction Hafter as [|e after He _ IH]; intros st [H1 H2].
  - exact H1.
  - cbn [fold_left]. apply IH.
    destruct (step_keeps_stream st e He H2) as [E1 E2].
    split; [now rewrite E1 | exact E2].
Qed.

(** **** Scheduling, with the sums as JavaScript computes them *)

Local Abbreviation step_with := (LiveInterface.step_with convertFloat32ToInt16).
Local Abbreviation run_with := (LiveInterface.run_with convertFloat32ToInt16).
Local Abbreviation along := (LiveInterface.along convertFloat32ToInt16).

Lemma step_with_other (add : Q -> Q -> Q) (st : State) (e : Event) :
  is_settling e = false -> step_with add st e = step st e.
Proof. destruct e; (reflexivity || discriminate). Qed.

Lemma playAudio_refs (base64Data : string) (st : State) :
  outputCtxRef (spawn (playAudio base64Data) st) = outputCtxRef st /\
  sessionRef (spawn (playAudio base64Data) st) = sessionRef st.
Proof.
  unfold spawn, playAudio.
  destruct (outputCtxRef st) as [ctx|] eqn:E; [|split; [exact E | reflexivity]].
  destruct (AudioUtils.b64ToUint8Array base64Data); split; cbn;
    (exact E || reflexivity).
Qed.

Lemma session_event_refs (e : nat -> @LiveSession.Event Float32Array)
    (st : State) :
  outputCtxRef (session_event e st) = outputCtxRef st /\
  is_set (sessionRef (session_event e st)) = is_set (sessionRef st).
Proof.
  destruct (sessionRef st) as [session|] eqn:Hs.
  - rewrite (session_event_unfold e st session Hs).
    set (p := default 0%nat (LiveSession.sessionPromise session)).
    destruct (e p) as [cs|q ok| |audioData|q|]; cbn; try (split; reflexivity).
    destruct audioData as [d|]; [|split; reflexivity].
    destruct (String.eqb d ""); [split; reflexivity|].
    cbn [fold_left callback].
    match goal with
    | |- context [spawn (playAudio d) ?s] =>
        destruct (playAudio_refs d s) as [E1 E2]
    end.
    rewrite E1, E2. split; reflexivity.
  - unfold LiveInterface.session_event. rewrite Hs. split; [reflexivity|].
    now rewrite Hs.
Qed.

(** What a task other than the arrival of audio and the settling of a
    decoding leaves as it is. *)
Lemma step_elsewhere (st : State) (e : Event) :
  is_settling e = false -> carries_audio e = false ->
  started (step st e) = started st /\
  nextStartTimeRef (step st e) = nextStartTimeRef st /\
  decoding (step st e) = decoding st /\
  (is_set (outputCtxRef st) = true ->
   is_set (outputCtxRef (step st e)) = true) /\
  (is_set (sessionRef st) = true -> is_set (sessionRef (step st e)) = true).
Proof.
  intros Hs Ha.
  assert (Hev : forall f,
            (forall p audioData, f p <> LiveSession.Message audioData) ->
            started (session_event f st) = started st /\
            nextStartTimeRef (session_event f st) = nextStartTimeRef st /\
            decoding (session_event f st) = decoding st /\
            (is_set (outputCtxRef st) = true ->
             is_set (outputCtxRef (session_event f st)) = true) /\
            (is_set (sessionRef st) = true ->
             is_set (sessionRef (session_event f st)) = true)).
  { intros f Hf. destruct (session_event_quiet f st Hf) as [E1 E2].
    destruct (session_event_refs f st) as [E3 E4].
    rewrite E1, E2, E3, E4, (session_event_decoding f st Hf). repeat split;
      intros H; exact H. }
  destruct e as [|g|ok| |d| | |f|k r|dt|]; cbn [LiveInterface.step];
    try discriminate Hs.
  - destruct (suspended st); repeat split; intros H; exact H.
  - destruct (suspended st), g; try (repeat split; intros H; exact H);
      destruct_refs st; repeat split; intros H; exact H.
  - destruct (suspended st); try (repeat split; intros H; exact H).
    destruct (Hev (fun p => LiveSession.Settle p ok)) as (E1 & E2 & E3 & E4 & E5);
      [discriminate|].
    revert E1 E2 E3 E4 E5.
    generalize (session_event (fun p => LiveSession.Settle p ok) st).
    intros st1 E1 E2 E3 E4 E5. rewrite <- E1, <- E2, <- E3.
    assert (H : started (spawn (startSession_connected ok) st1) = started st1 /\
                nextStartTimeRef (spawn (startSession_connected ok) st1) =
                  nextStartTimeRef st1 /\
                decoding (spawn (startSession_connected ok) st1) =
                  decoding st1 /\
                is_set (outputCtxRef (spawn (startSession_connected ok) st1)) =
                  is_set (outputCtxRef st1) /\
                is_set (sessionRef (spawn (startSession_connected ok) st1)) =
                  is_set (sessionRef st1)).
    { destruct ok; destruct_refs st1; repeat split. }
    destruct H as (H1 & H2 & H3 & H4 & H5). rewrite H1, H2, H3, H4, H5.
    repeat split; assumption.
  - apply Hev. discriminate.
  - destruct d as [d|]; cbn in Ha.
    + destruct (String.eqb d "") eqn:Ed; [|discriminate Ha].
      apply String.eqb_eq in Ed. subst d.
      destruct (sessionRef st) as [session|] eqn:Hsess.
      * rewrite (session_event_unfold _ st session Hsess). cbn.
        repeat split; intros H; exact H.
      * unfold LiveInterface.session_event. rewrite Hsess.
        repeat split; intros H; (exact H || discriminate H).
    + destruct (sessionRef st) as [session|] eqn:Hsess.
      * rewrite (session_event_unfold _ st session Hsess). cbn.
        repeat split; intros H; exact H.
      * unfold LiveInterface.session_event. rewrite Hsess.
        repeat split; intros H; (exact H || discriminate H).
  - apply Hev. discriminate.
  - apply Hev. discriminate.
  - destruct (processorRef st) as [node|], (inputCtxRef st) as [ctx|];
      try (repeat split; intros H; exact H).
    destruct (onaudioprocess node && connected node && is_running ctx);
      [apply Hev; discriminate | repeat split; intros H; exact H].
  - cbn. repeat split; [|intros H; exact H].
    intros H. now destruct (outputCtxRef st).
  - destruct (stopSession_cursor st) as (E1 & E2 & E3).
    rewrite E1, E2, E3. repeat split; destruct_refs st; intros H; exact H.
Qed.

(** A chunk with audio arrives while the clock is not past the cursor. *)
Lemma inbound_in_time (d : string) (st : State) :
  d <> "" ->
  is_set (outputCtxRef st) = true ->
  is_set (sessionRef st) = true ->
  arrives_in_time st (Inbound (Some d) : Event) ->
  let st' := step st (Inbound (Some d)) in
  started st' = started st /\
  nextStartTimeRef st' = nextStartTimeRef st /\
  length (decoding st') =
    (length (decoding st) +
     if decodable (Inbound (Some d) : Event) then 1 else 0)%nat /\
  is_set (outputCtxRef st') = true /\
  is_set (sessionRef st') = true.
Proof.
  intros Hd Hctx Hsess Ha. cbn [LiveInterface.step].
  destruct (sessionRef st) as [session|] eqn:Hs; [|discriminate Hsess].
  destruct (outputCtxRef st) as [ctx|] eqn:Hc; [|discriminate Hctx].
  cbn in Ha. rewrite Hc in Ha. specialize (Ha Hd).
  rewrite (session_event_unfold _ st session Hs). cbv zeta.
  apply String.eqb_neq in Hd. cbn [decodable]. rewrite Hd.
  cbn [fold_left callback negb andb].
  unfold spawn, playAudio. cbn [outputCtxRef set_sessionRef].
  rewrite Hc.
  destruct (AudioUtils.b64ToUint8Array d) as [bytes|]; cbn;
    rewrite ?Hc, ?length_app, (Qmax_keep _ _ Ha); cbn;
    repeat split; lia.
Qed.

(** A decoding in flight settles. *)
Lemma settling_in_flight (add : Q -> Q -> Q) (k : nat)
    (r : option AudioBuffer) (st : State) :
  is_Some (decoding st !! k) ->
  let st' := step_with add st (DecodeSettled k r) in
  started st' =
    started st ++
    schedule add (nextStartTimeRef st) (settled_buffers [DecodeSettled k r : Event]) /\
  nextStartTimeRef st' =
    cursor_after add (nextStartTimeRef st)
      (settled_buffers [DecodeSettled k r : Event]) /\
  S (length (decoding st')) = length (decoding st) /\
  outputCtxRef st' = outputCtxRef st /\
  sessionRef st' = sessionRef st.
Proof.
  intros [bytes Hk]. cbn [LiveInterface.step_with]. rewrite Hk.
  assert (Hlen : S (length (delete k (decoding st))) = length (decoding st)).
  { rewrite length_delete by eauto. apply lookup_lt_Some in Hk. lia. }
  destruct r as [b|]; cbn; rewrite ?app_nil_r; repeat split; exact Hlen.
Qed.

Lemma step_with_scheduled (add : Q -> Q -> Q) (st : State) (e : Event) :
  is_set (outputCtxRef st) = true ->
  is_set (sessionRef st) = true ->
  arrives_in_time st e ->
  settles_in_flight st e ->
  let st' := step_with add st e in
  started st' =
    started st ++ schedule add (nextStartTimeRef st) (settled_buffers [e]) /\
  nextStartTimeRef st' =
    cursor_after add (nextStartTimeRef st) (settled_buffers [e]) /\
  (length (decoding st') + length (List.filter is_settling [e]) =
   length (decoding st) + length (List.filter decodable [e]))%nat /\
  is_set (outputCtxRef st') = true /\
  is_set (sessionRef st') = true.
Proof.
  intros Hctx Hsess Ha Hf st'. subst st'.
  destruct (is_settling e) eqn:Es.
  - destruct e as [|g|ok| |d| | |f|k r|dt|]; try discriminate Es.
    destruct (settling_in_flight add k r st Hf) as (E1 & E2 & E3 & E4 & E5).
    rewrite E1, E2, E4, E5. cbn [List.filter is_settling decodable length].
    repeat split; try assumption. lia.
  - rewrite (step_with_other add st e Es).
    destruct (carries_audio e) eqn:Ec.
    + destruct e as [|g|ok| |[d|]| | |f|k r|dt|]; try discriminate Ec.
      cbn in Ec. apply negb_true_iff, String.eqb_neq in Ec.
      destruct (inbound_in_time d st Ec Hctx Hsess Ha)
        as (E1 & E2 & E3 & E4 & E5).
      rewrite E1, E2, E3, E4, E5.
      cbn [settled_buffers flat_map schedule cursor_after fold_left app
           List.filter is_settling length].
      rewrite app_nil_r. repeat split.
      destruct (decodable (Inbound (Some d))); cbn; lia.
    + destruct (step_elsewhere st e Es Ec) as (E1 & E2 & E3 & E4 & E5).
      rewrite E1, E2, E3.
      assert (Hs : settled_buffers [e] = []).
      { destruct e; try reflexivity. discriminate Es. }
      assert (Hd : decodable e = false).
      { destruct e as [|g|ok| |[d|]| | |f|k r|dt|]; try reflexivity.
        cbn in Ec |- *. apply negb_false_iff in Ec. now rewrite Ec. }
      rewrite Hs. cbn [List.filter]. rewrite Es, Hd. cbn.
      rewrite app_nil_r. repeat split; auto.
Qed.

Lemma schedule_app (add : Q -> Q -> Q) (t : Q) (l1 l2 : list AudioBuffer) :
  schedule add t (l1 ++ l2) =
  schedule add t l1 ++ schedule add (cursor_after add t l1) l2.
Proof.
  revert t. induction l1 as [|b l1 IH]; intros t; [reflexivity|].
  cbn. now rewrite IH.
Qed.

Lemma cursor_after_app (add : Q -> Q -> Q) (t : Q) (l1 l2 : list AudioBuffer) :
  cursor_after add t (l1 ++ l2) = cursor_after add (cursor_after add t l1) l2.
Proof. apply fold_left_app. Qed.

(** C1, amended. Gapless scheduling.  From a state of the component in which
    the output context and the session object exist, take any run in which
    every chunk with audio arrives while the clock of the output context is
    not past the cursor, and every decoding that settles is one in flight.
    Then the sources started in the run are exactly the buffers of the
    settled decodings, in the order they settled, with start times [t],
    [t + d1], [t + d1 + d2], ... from the cursor [t] the run began with, and
    the cursor ends at the last of these sums: for consecutive buffers
    [t2] is [t1 + d1], the sum as JavaScript computes it.  Every chunk that
    decodes from base64 is taken up: the decodings in flight are those there
    were, plus these chunks, less the settled ones. *)
Theorem gapless_scheduling (add : Q -> Q -> Q) (st : State)
    (evs : list Event) :
  is_set (outputCtxRef st) = true ->
  is_set (sessionRef st) = true ->
  along add arrives_in_time st evs ->
  along add settles_in_flight st evs ->
  let st' := run_with add st evs in
  started st' =
    started st ++ schedule add (nextStartTimeRef st) (settled_buffers evs) /\
  nextStartTimeRef st' =
    cursor_after add (nextStartTimeRef st) (settled_buffers evs) /\
  (length (decoding st') + length (List.filter is_settling evs) =
   length (decoding st) + length (List.filter decodable evs))%nat.
Proof.
  revert st. induction evs as [|e evs IH]; intros st Hctx Hsess Ha Hf st'.
  - subst st'. cbn. rewrite app_nil_r. repeat split.
  - destruct Ha as [Ha Has]. destruct Hf as [Hf Hfs].
    destruct (step_with_scheduled add st e Hctx Hsess Ha Hf)
      as (E1 & E2 & E3 & E4 & E5).
    destruct (IH (step_with add st e) E4 E5 Has Hfs) as (I1 & I2 & I3).
    subst st'. cbv zeta in I1, I2, I3.
    change (run_with add st (e :: evs))
      with (run_with add (step_with add st e) evs).
    change (e :: evs) with ([e] ++ evs).
    unfold settled_buffers in *. rewrite flat_map_app.
    rewrite !List.filter_app, !length_app, schedule_app, cursor_after_app.
    rewrite I1, I2, E1, E2, <- app_assoc. repeat split. lia.
Qed.

Lemma no_overlap_snoc (add : Q -> Q -> Q) (l : list Start) (x : Start) :
  no_overlap add l ->
  match last l with
  | Some b => add (when b) (duration (buffer b)) <= when x
  | None => True
  end ->
  no_overlap add (l ++ [x]).
Proof.
  induction l as [|b1 l IH]; intros Hg Hl; [exact I|].
  destruct l as [|b2 l].
  - cbn in *. split; [exact Hl | exact I].
  - cbn [no_overlap app] in *. destruct Hg as [H12 Hg].
    split; [exact H12|]. apply IH; [exact Hg|]. exact Hl.
Qed.

Lemma step_with_keeps_no_overlap (add : Q -> Q -> Q) (st : State) (e : Event) :
  no_overlap add (started st) -> cursor_past_end add st ->
  no_overlap add (started (step_with add st e)) /\
  cursor_past_end add (step_with add st e).
Proof.
  intros Hg Hc. unfold cursor_past_end in *.
  destruct (is_settling e) eqn:Es.
  - destruct e as [|g|ok| |d| | |f|k r|dt|]; try discriminate Es.
    cbn [LiveInterface.step_with].
    destruct (decoding st !! k); [|split; assumption].
    destruct r as [b|]; cbn; [|split; assumption].
    rewrite last_snoc. cbn. split; [|apply Qle_refl].
    apply no_overlap_snoc; [exact Hg|]. exact Hc.
  - rewrite (step_with_other add st e Es).
    destruct (step_move st e)
      as [H1 H2 | d ctx He Hd Hctx H1 H2 | k b He H2 H1].
    + rewrite H1, H2. split; assumption.
    + rewrite H2, H1. split; [exact Hg|].
      destruct (last (started st)) as [b|]; [|exact I].
      eapply Qle_trans; [exact Hc | apply Q.le_max_l].
    + subst e. discriminate Es.
Qed.

(** X1.  No overlap, stall or not: in every run of the component, whatever
    the arrival times, the clock and the order in which decodings settle, a
    source is never started with a [when] before the [when] of the source
    started before it plus its duration, that sum being the one JavaScript
    computes (the double [t1 + d1], which can be below the exact sum by the
    rounding of that addition). *)
Theorem scheduled_buffers_never_overlap (add : Q -> Q -> Q)
    (evs : list Event) :
  no_overlap add (started (run_with add initial evs)).
Proof.
  assert (H : forall st, no_overlap add (started st) ->
                         cursor_past_end add st ->
                         no_overlap add (started (run_with add st evs)) /\
                         cursor_past_end add (run_with add st evs)).
  { induction evs as [|e evs IH]; intros st Hg Hc; [split; assumption|].
    destruct (step_with_keeps_no_overlap add st e Hg Hc) as [Hg' Hc'].
    cbn. apply IH; assumption. }
  apply (H initial); exact I.
Qed.

(** With exact sums, [step_with] and [run_with] are [step] and [run]. *)
Lemma step_with_exact (st : State) (e : Event) :
  step_with Qplus st e = step st e.
Proof.
  destruct e as [|g|ok| |d| | |f|k r|dt|]; try reflexivity.
Qed.

Lemma run_with_exact (st : State) (evs : list Event) :
  run_with Qplus st evs = run st evs.
Proof.
  revert st. induction evs as [|e evs IH]; intros st; [reflexivity|].
  change (run_with Qplus st (e :: evs))
    with (run_with Qplus (step_with Qplus st e) evs).
  change (run st (e :: evs)) with (run (step st e) evs).
  now rewrite IH, step_with_exact.
Qed.

End LiveInterfaceFacts.

(** ** Facts about the strings *)

Section JsFacts.

Import Js.

Lemma append_cons (c : ascii) (s1 s2 : string) :
  String c s1 +:+ s2 = String c (s1 +:+ s2).
Proof. reflexivity. Qed.

Lemma append_nil_l (s : string) : "" +:+ s = s.
Proof. reflexivity. Qed.

Lemma append_nil_r (s : string) : s +:+ "" = s.
Proof.
  induction s as [|c s IH]; [reflexivity|]. now rewrite append_cons, IH.
Qed.

Lemma append_assoc (s1 s2 s3 : string) :
  (s1 +:+ s2) +:+ s3 = s1 +:+ (s2 +:+ s3).
Proof.
  induction s1 as [|c s1 IH]; [reflexivity|]. now rewrite !append_cons, IH.
Qed.

Lemma has_comma_append (s1 s2 : string) :
  has_comma (s1 +:+ s2) = has_comma s1 || has_comma s2.
Proof.
  induction s1 as [|c s1 IH]; [reflexivity|].
  rewrite append_cons. cbn. rewrite IH. now destruct (Ascii.eqb c ",").
Qed.

Lemma before_comma_id (s : string) : has_comma s = false -> before_comma s = s.
Proof.
  induction s as [|c s IH]; cbn; [reflexivity|].
  destruct (Ascii.eqb c ","); cbn; [discriminate|].
  intros H. now rewrite IH.
Qed.

Lemma after_comma_append (s1 s2 : string) :
  has_comma s1 = false -> after_comma (s1 +:+ "," +:+ s2) = Some s2.
Proof.
  induction s1 as [|c s1 IH]; [reflexivity|].
  rewrite append_cons. cbn.
  destruct (Ascii.eqb c ","); cbn; [discriminate | exact IH].
Qed.

Lemma split_comma_1_append (s1 s2 : string) :
  has_comma s1 = false ->
  split_comma_1 (s1 +:+ "," +:+ s2) = Some (before_comma s2).
Proof.
  intros H. unfold split_comma_1. now rewrite after_comma_append.
Qed.

End JsFacts.

(** ** Facts about the orchestrator *)

Section GeminiServiceFacts.

Import Types GeminiService.

Lemma blocks_announced_weaken (b : bool) (us : list StreamUpdate) :
  blocks_announced false us -> blocks_announced b us.
Proof.
  destruct us as [|[] us]; cbn; try tauto.
  intros [H _]. discriminate.
Qed.

Lemma blocks_announced_app (b : bool) (us1 us2 : list StreamUpdate) :
  blocks_announced b us1 -> blocks_announced false us2 ->
  blocks_announced b (us1 ++ us2).
Proof.
  revert b. induction us1 as [|u us1 IH]; intros b H1 H2.
  - now apply blocks_announced_weaken.
  - destruct u; cbn in *; try (apply IH; assumption).
    destruct H1 as [-> H1]. split; [reflexivity | now apply IH].
Qed.

Lemma yield_block_announced (b : option ContentBlock) :
  blocks_announced true (yield_block b).
Proof. destruct b; cbn; auto. Qed.

Lemma call_updates_announced (tc : ToolCall) :
  blocks_announced false (call_updates tc).1.
Proof.
  unfold call_updates.
  destruct (name (call tc)) as [n|]; [|exact I].
  destruct (String.eqb n "generate_image").
  - destruct (args (call tc)); [|exact I].
    cbn. destruct (reply tc); [apply yield_block_announced | exact I].
  - destruct (String.eqb n "generate_audio"); [|exact I].
    cbn. destruct (args (call tc)); [|exact I].
    destruct (reply tc); [apply yield_block_announced | exact I].
Qed.

Lemma calls_updates_announced (tcs : list ToolCall) :
  blocks_announced false (calls_updates tcs).1.
Proof.
  induction tcs as [|tc tcs IH]; [exact I|].
  cbn. pose proof (call_updates_announced tc) as H.
  destruct (call_updates tc) as [us [e|]]; [exact H|].
  destruct (calls_updates tcs) as [us' thrown'].
  now apply blocks_announced_app.
Qed.

Lemma chunk_updates_announced (c : Chunk) :
  blocks_announced false (chunk_updates c).1.
Proof.
  unfold chunk_updates.
  pose proof (calls_updates_announced (default [] (functionCalls c))) as H.
  destruct (functionCalls c) as [tcs|]; cbn in H.
  - destruct (calls_updates tcs) as [us thrown]. cbn in *.
    destruct (chunk_text c) as [t|]; [destruct (String.eqb t "")|];
      destruct (groundingChunks c); cbn; exact H.
  - cbn. destruct (chunk_text c) as [t|]; [destruct (String.eqb t "")|];
      destruct (groundingChunks c); cbn; exact I.
Qed.

(** X9.  Whatever the stream delivers, the generator yields a block only
    right after the thought that announces it: between the thought and the
    block there is no text, no grounding and no other block. *)
Theorem blocks_follow_their_thought (chunks : list Chunk)
    (broken : option string) :
  blocks_announced false (streamOrchestrateResponse chunks broken).1.
Proof.
  induction chunks as [|c chunks IH]; [exact I|].
  cbn. pose proof (chunk_updates_announced c) as H.
  destruct (chunk_updates c) as [us [e|]]; [exact H|].
  destruct (streamOrchestrateResponse chunks broken) as [us' thrown'].
  now apply blocks_announced_app.
Qed.

Lemma call_updates_thrown (tc : ToolCall) :
  (call_updates tc).2 = None <-> image_call_without_args tc = false.
Proof.
  unfold call_updates, image_call_without_args.
  destruct (name (call tc)) as [n|]; [|tauto].
  destruct (String.eqb n "generate_image").
  - destruct (args (call tc)); cbn; [tauto|]. split; discriminate.
  - destruct (String.eqb n "generate_audio"); destruct (args (call tc));
      cbn; tauto.
Qed.

Lemma calls_updates_thrown (tcs : list ToolCall) :
  (calls_updates tcs).2 = None <->
  Forall (fun tc => image_call_without_args tc = false) tcs.
Proof.
  induction tcs as [|tc tcs IH]; [cbn; split; auto|].
  cbn. pose proof (call_updates_thrown tc) as H.
  destruct (call_updates tc) as [us [e|]]; cbn in *.
  - split; [discriminate|]. intros HF. inversion HF; subst.
    now apply H.
  - destruct (calls_updates tcs) as [us' thrown']. cbn in *.
    rewrite IH. split.
    + intros HF. constructor; [now apply H | exact HF].
    + intros HF. now inversion HF.
Qed.

Lemma chunk_updates_thrown (c : Chunk) :
  (chunk_updates c).2 = None <->
  Forall (fun tc => image_call_without_args tc = false) (calls_of c).
Proof.
  unfold chunk_updates, calls_of.
  destruct (functionCalls c) as [tcs|]; cbn.
  - rewrite <- calls_updates_thrown.
    now destruct (calls_updates tcs).
  - split; auto.
Qed.

(** X10.  The generator ends without throwing exactly when the stream does
    and no [generate_image] call comes without arguments.  A tool request
    that fails, and a [generate_audio] call without arguments, never end
    it. *)
Theorem generator_throws_only_for_stream_or_missing_args
    (chunks : list Chunk) (broken : option string) :
  (streamOrchestrateResponse chunks broken).2 = None <->
  broken = None /\
  Forall (fun c =>
            Forall (fun tc => image_call_without_args tc = false) (calls_of c))
    chunks.
Proof.
  induction chunks as [|c chunks IH]; [cbn; split; [auto | tauto]|].
  cbn. pose proof (chunk_updates_thrown c) as H.
  destruct (chunk_updates c) as [us [e|]]; cbn in *.
  - split; [discriminate|]. intros [_ HF]. inversion HF; subst.
    now apply H.
  - destruct (streamOrchestrateResponse chunks broken) as [us' thrown'].
    cbn in *. rewrite IH. split.
    + intros [Hb HF]. split; [exact Hb|]. constructor; [now apply H | exact HF].
    + intros [Hb HF]. split; [exact Hb | now inversion HF].
Qed.

Lemma blocks_app (us1 us2 : list StreamUpdate) :
  blocks (us1 ++ us2) = blocks us1 ++ blocks us2.
Proof. apply flat_map_app. Qed.

Lemma call_updates_media (tc : ToolCall) :
  Forall (fun b => media b = true) (blocks (call_updates tc).1).
Proof.
  unfold call_updates.
  destruct (name (call tc)) as [n|]; [|constructor].
  destruct (String.eqb n "generate_image").
  - destruct (args (call tc)) as [a|]; [|constructor].
    cbn. destruct (reply tc) as [parts|e]; [|constructor].
    unfold generateImage. destruct parts as [ps|]; [|constructor].
    destruct (List.find has_inlineData ps) as [p|]; [|constructor].
    destruct (inlineData p); repeat constructor.
  - destruct (String.eqb n "generate_audio"); [|constructor].
    cbn. destruct (args (call tc)) as [a|]; [|constructor].
    destruct (reply tc) as [parts|e]; [|constructor].
    unfold generateAudio. destruct parts as [[|p ps]|]; try constructor.
    destruct (inlineData p); repeat constructor.
Qed.

Lemma calls_updates_media (tcs : list ToolCall) :
  Forall (fun b => media b = true) (blocks (calls_updates tcs).1).
Proof.
  induction tcs as [|tc tcs IH]; [constructor|].
  cbn. pose proof (call_updates_media tc) as H.
  destruct (call_updates tc) as [us [e|]]; [exact H|].
  destruct (calls_updates tcs) as [us' thrown'].
  cbn in *. rewrite blocks_app. now apply Forall_app.
Qed.

Lemma chunk_updates_media (c : Chunk) :
  Forall (fun b => media b = true) (blocks (chunk_updates c).1).
Proof.
  unfold chunk_updates.
  pose proof (calls_updates_media (default [] (functionCalls c))) as H.
  destruct (functionCalls c) as [tcs|]; cbn in H.
  - destruct (calls_updates tcs) as [us thrown]. cbn in *.
    destruct (chunk_text c) as [t|]; [destruct (String.eqb t "")|];
      destruct (groundingChunks c); cbn; exact H.
  - cbn. destruct (chunk_text c) as [t|]; [destruct (String.eqb t "")|];
      destruct (groundingChunks c); cbn; constructor.
Qed.

(** X11.  Every block the generator yields is an image or an audio block:
    text reaches the caller as deltas only, and a tool failure as a delta
    too. *)
Theorem generator_yields_media_blocks_only (chunks : list Chunk)
    (broken : option string) :
  Forall (fun b => media b = true)
    (blocks (streamOrchestrateResponse chunks broken).1).
Proof.
  induction chunks as [|c chunks IH]; [constructor|].
  cbn. pose proof (chunk_updates_media c) as H.
  destruct (chunk_updates c) as [us [e|]]; [exact H|].
  destruct (streamOrchestrateResponse chunks broken) as [us' thrown'].
  cbn in *. rewrite blocks_app. now apply Forall_app.
Qed.

Lemma prefix_append (s1 s2 m : string) :
  String.prefix (s1 +:+ s2) m = true -> String.prefix s1 m = true.
Proof.
  revert m. induction s1 as [|a s1 IH]; intros m.
  - now destruct m.
  - rewrite append_cons. destruct m as [|b m]; simpl; [discriminate|].
    destruct (ascii_dec a b); [apply IH | discriminate].
Qed.

Lemma prefix_image (m : string) :
  String.prefix "image/" m = true -> String.prefix "image" m = true.
Proof. exact (prefix_append "image" "/" m). Qed.

(** X12.  An attachment that [generateImage] forwards to the image model is
    one that the orchestrator's request announced as an image. *)
Theorem forwarded_attachment_was_announced_as_image
    (prompt : option string) (userInput : string) (a : Attachment) :
  In (inlineData_part (mimeType a) (data a))
     (generateImage_parts prompt (Some a)) ->
  requestParts userInput (Some a) =
    [inlineData_part (mimeType a) (data a);
     text_part (Some ("User attached an image. " +:+ userInput))].
Proof.
  unfold generateImage_parts, requestParts.
  destruct (String.prefix "image/" (mimeType a)) eqn:E.
  - intros _. now rewrite (prefix_image _ E).
  - cbn. intros [H|[]]. discriminate.
Qed.

(** X13.  The player gets back the payload [generateAudio] put in the url:
    what the response carried, up to its first comma, and all of it when it
    has none, as base64 has. *)
Theorem played_audio_is_generated_audio (text : option string) (p : Part)
    (rest : list Part) (blob : Blob) :
  inlineData p = Some blob ->
  exists url,
    generateAudio text (Some (p :: rest)) = Some (audio_block url text) /\
    AudioPlayer.base64_of url =
      Some (Js.before_comma (Js.template (blob_data blob))) /\
    (forall d, blob_data blob = Some d -> Js.has_comma d = false ->
               AudioPlayer.base64_of url = Some d).
Proof.
  intros H. unfold generateAudio. rewrite H. eexists. split; [reflexivity|].
  unfold AudioPlayer.base64_of.
  assert (E : forall s, Js.split_comma_1 ("data:audio/wav;base64," +:+ s) =
                        Some (Js.before_comma s)).
  { intros s. exact (split_comma_1_append "data:audio/wav;base64" s eq_refl). }
  split; [apply E|].
  intros d Hd Hc. rewrite E, Hd. cbn. now rewrite before_comma_id.
Qed.

End GeminiServiceFacts.

(** ** Facts about App *)

Section AppFacts.

Import Types App.

Variable blank : string -> bool.

(** X14.  A file read as a data url comes back as the same url in the
    message shown for it, and its payload is what the request carries. *)
Theorem attachment_url_round_trip (fileType payload : string) (st : State) :
  Js.has_comma fileType = false -> Js.has_comma payload = false ->
  let result := "data:" +:+ fileType +:+ ";base64," +:+ payload in
  let st' := onloadend (Some result) fileType st in
  attachedImage st' =
    Some {| GeminiService.data := Some payload;
            GeminiService.mimeType := fileType |} /\
  In (GeminiService.inlineData_part fileType (Some payload)) (request st') /\
  exists rest,
    userContent blank st' = image_block result (Some "User Upload") :: rest.
Proof.
  intros Ht Hp result st'.
  assert (E : Js.split_comma_1 result = Some payload).
  { unfold result.
    change ("data:" +:+ fileType +:+ ";base64," +:+ payload)
      with ("data:" +:+ (fileType +:+ (";base64" +:+ ("," +:+ payload)))).
    rewrite <- !append_assoc, append_assoc.
    rewrite split_comma_1_append.
    - now rewrite before_comma_id.
    - rewrite !has_comma_append, Ht. reflexivity. }
  unfold st', onloadend, userContent, request. cbn. rewrite E.
  split; [reflexivity|]. split; [now left|]. eexists. reflexivity.
Qed.


Lemma eta_message (m : ChatMessage) :
  {| id := id m; role := role m; content := content m;
     isThinking := isThinking m; timestamp := timestamp m |} = m.
Proof. now destruct m. Qed.

Lemma set_first_text_none (f : ContentBlock -> ContentBlock)
    (l : list ContentBlock) :
  Forall (fun b => is_text b = false) l -> set_first_text f l = None.
Proof.
  induction 1 as [|b l Hb _ IH]; [reflexivity|].
  cbn. now rewrite Hb, IH.
Qed.

Lemma put_text_cons (t : string) (g : list GroundingChunk) (b : ContentBlock)
    (l : list ContentBlock) :
  is_text b = false -> put_text t g (b :: l) = b :: put_text t g l.
Proof.
  intros Hb. unfold put_text. cbn. rewrite Hb.
  now destruct (set_first_text _ l).
Qed.

Lemma put_grounding_cons (g : list GroundingChunk) (b : ContentBlock)
    (l : list ContentBlock) :
  is_text b = false -> put_grounding g (b :: l) = b :: put_grounding g l.
Proof.
  intros Hb. unfold put_grounding. cbn. rewrite Hb.
  now destruct (set_first_text _ l).
Qed.

Lemma put_text_at (t : string) (g : list GroundingChunk)
    (pre post : list ContentBlock) (c : string)
    (g0 : option (list GroundingChunk)) :
  Forall (fun b => is_text b = false) pre ->
  put_text t g (pre ++ text_block c g0 :: post) =
  pre ++ text_block t (Some g) :: post.
Proof.
  induction 1 as [|b pre Hb _ IH]; [reflexivity|].
  cbn [app]. now rewrite put_text_cons, IH.
Qed.

Lemma put_grounding_at (g : list GroundingChunk)
    (pre post : list ContentBlock) (c : string)
    (g0 : option (list GroundingChunk)) :
  Forall (fun b => is_text b = false) pre ->
  put_grounding g (pre ++ text_block c g0 :: post) =
  pre ++ text_block c (Some g) :: post.
Proof.
  induction 1 as [|b pre Hb _ IH]; [reflexivity|].
  cbn [app]. now rewrite put_grounding_cons, IH.
Qed.

Lemma put_text_none (t : string) (g : list GroundingChunk)
    (l : list ContentBlock) :
  Forall (fun b => is_text b = false) l ->
  put_text t g l = l ++ [text_block t (Some g)].
Proof. intros H. unfold put_text. now rewrite set_first_text_none. Qed.

Lemma put_grounding_none (g : list GroundingChunk) (l : list ContentBlock) :
  Forall (fun b => is_text b = false) l -> put_grounding g l = l.
Proof. intros H. unfold put_grounding. now rewrite set_first_text_none. Qed.

(** *** Contents that differ in their first text block *)

Lemma similar_app (same : bool) (l1 l2 x : list ContentBlock) :
  similar same l1 l2 -> similar same (l1 ++ x) (l2 ++ x).
Proof.
  induction 1; cbn; [apply similar_refl | now apply similar_here |
                     now apply similar_skip].
Qed.

Lemma similar_put_text_refl (same : bool) (t1 t2 : string)
    (g1 g2 : list GroundingChunk) (l : list ContentBlock) :
  (same = true -> t1 = t2) ->
  similar same (put_text t1 g1 l) (put_text t2 g2 l).
Proof.
  intros Ht. induction l as [|b l IH]; [now apply similar_here|].
  destruct (is_text b) eqn:Hb.
  - destruct b; try discriminate. now apply similar_here.
  - rewrite !put_text_cons by exact Hb. now apply similar_skip.
Qed.

Lemma similar_put_text (same : bool) (t1 t2 : string)
    (g1 g2 : list GroundingChunk) (l1 l2 : list ContentBlock) :
  (same = true -> t1 = t2) -> similar same l1 l2 ->
  similar same (put_text t1 g1 l1) (put_text t2 g2 l2).
Proof.
  intros Ht. induction 1.
  - now apply similar_put_text_refl.
  - now apply similar_here.
  - rewrite !put_text_cons by assumption. now apply similar_skip.
Qed.

Lemma similar_put_grounding_refl (same : bool) (g1 g2 : list GroundingChunk)
    (l : list ContentBlock) :
  similar same (put_grounding g1 l) (put_grounding g2 l).
Proof.
  induction l as [|b l IH]; [apply similar_refl|].
  destruct (is_text b) eqn:Hb.
  - destruct b; try discriminate. now apply similar_here.
  - rewrite !put_grounding_cons by exact Hb. now apply similar_skip.
Qed.

Lemma similar_put_grounding (same : bool) (g1 g2 : list GroundingChunk)
    (l1 l2 : list ContentBlock) :
  similar same l1 l2 ->
  similar same (put_grounding g1 l1) (put_grounding g2 l2).
Proof.
  induction 1.
  - apply similar_put_grounding_refl.
  - now apply similar_here.
  - rewrite !put_grounding_cons by assumption. now apply similar_skip.
Qed.

Lemma put_text_similar (same : bool) (t : string) (g : list GroundingChunk)
    (l1 l2 : list ContentBlock) :
  similar same l1 l2 -> put_text t g l1 = put_text t g l2.
Proof.
  induction 1; [reflexivity | reflexivity|].
  rewrite !put_text_cons by assumption. now f_equal.
Qed.

Lemma put_grounding_similar (g : list GroundingChunk)
    (l1 l2 : list ContentBlock) :
  similar true l1 l2 -> put_grounding g l1 = put_grounding g l2.
Proof.
  induction 1 as [|c1 g1 c2 g2 rest Hc|]; [reflexivity| |].
  - now rewrite (Hc eq_refl).
  - rewrite !put_grounding_cons by assumption. now f_equal.
Qed.

Lemma similar_message_refl (botMsgId : string) (same : bool)
    (m : ChatMessage) :
  similar_message botMsgId same m m.
Proof.
  repeat split. destruct (String.eqb (id m) botMsgId);
    [apply similar_refl | reflexivity].
Qed.

Lemma similar_messages_refl (botMsgId : string) (same : bool)
    (ms : list ChatMessage) :
  Forall2 (similar_message botMsgId same) ms ms.
Proof. induction ms; constructor; [apply similar_message_refl | assumption]. Qed.

Lemma similar_message_eq (botMsgId : string) (same : bool)
    (m1 m2 : ChatMessage) :
  similar_message botMsgId same m1 m2 ->
  String.eqb (id m1) botMsgId = false -> m1 = m2.
Proof.
  intros (Hid & Hrole & Hthink & Htime & Hcontent) E. rewrite E in Hcontent.
  destruct m1, m2. cbn in *. now subst.
Qed.

Ltac similar_cases m1 m2 H :=
  let E := fresh "E" in
  destruct (String.eqb (id m1) _) eqn:E;
  [destruct H as (Hid & Hrole & Hthink & Htime & Hcontent);
   rewrite <- ?Hid, ?E; rewrite E in Hcontent
  |rewrite <- (similar_message_eq _ _ _ _ H E), ?E; apply similar_message_refl].

Lemma apply_updater_similar (botMsgId : string) (same : bool)
    (t1 t2 : string) (g1 g2 : list GroundingChunk) (u : Updater)
    (ms1 ms2 : list ChatMessage) :
  (same = true -> t1 = t2) ->
  Forall2 (similar_message botMsgId same) ms1 ms2 ->
  Forall2 (similar_message botMsgId same)
    (apply_updater botMsgId t1 g1 u ms1) (apply_updater botMsgId t2 g2 u ms2).
Proof.
  intros Ht H. destruct u; cbn.
  - apply Forall2_app; [exact H|].
    constructor; [apply similar_message_refl | constructor].
  - apply Forall2_fmap. eapply Forall2_impl; [exact H|].
    intros m1 m2 Hm. unfold on_text_delta. similar_cases m1 m2 Hm.
    repeat split; cbn; try assumption. rewrite E. now apply similar_put_text.
  - apply Forall2_fmap. eapply Forall2_impl; [exact H|].
    intros m1 m2 Hm. unfold on_grounding. similar_cases m1 m2 Hm.
    repeat split; cbn; try assumption. rewrite E.
    now apply similar_put_grounding.
  - apply Forall2_fmap. eapply Forall2_impl; [exact H|].
    intros m1 m2 Hm. unfold on_block. similar_cases m1 m2 Hm.
    repeat split; cbn; try assumption. rewrite E. now apply similar_app.
  - apply Forall2_fmap. eapply Forall2_impl; [exact H|].
    intros m1 m2 Hm. unfold on_error. similar_cases m1 m2 Hm.
    repeat split; cbn; try assumption. rewrite E. now apply similar_app.
  - apply Forall2_fmap. eapply Forall2_impl; [exact H|].
    intros m1 m2 Hm. unfold on_finally. similar_cases m1 m2 Hm.
    repeat split; cbn; try assumption. now rewrite E.
Qed.

Lemma run_updaters_similar (botMsgId : string) (same : bool)
    (t1 t2 : string) (g1 g2 : list GroundingChunk) (q : list Updater)
    (ms1 ms2 : list ChatMessage) :
  (same = true -> t1 = t2) ->
  Forall2 (similar_message botMsgId same) ms1 ms2 ->
  Forall2 (similar_message botMsgId same)
    (run_updaters botMsgId t1 g1 q ms1) (run_updaters botMsgId t2 g2 q ms2).
Proof.
  intros Ht. revert ms1 ms2. induction q as [|u q IH]; intros ms1 ms2 H.
  - exact H.
  - cbn. apply IH. now apply apply_updater_similar.
Qed.

Lemma on_text_delta_similar (botMsgId : string) (same : bool) (t : string)
    (g : list GroundingChunk) (ms1 ms2 : list ChatMessage) :
  Forall2 (similar_message botMsgId same) ms1 ms2 ->
  map (on_text_delta botMsgId t g) ms1 = map (on_text_delta botMsgId t g) ms2.
Proof.
  induction 1 as [|m1 m2 ms1 ms2 Hm _ IH]; [reflexivity|].
  cbn. f_equal; [|exact IH].
  destruct (String.eqb (id m1) botMsgId) eqn:E.
  - destruct Hm as (Hid & Hrole & Hthink & Htime & Hcontent).
    rewrite E in Hcontent.
    unfold on_text_delta, with_isThinking, with_content. cbn.
    now rewrite <- Hid, <- Hrole, <- Htime, E,
      (put_text_similar same t g _ _ Hcontent).
  - now rewrite (similar_message_eq _ _ _ _ Hm E).
Qed.

Lemma on_grounding_similar (botMsgId : string) (g : list GroundingChunk)
    (ms1 ms2 : list ChatMessage) :
  Forall2 (similar_message botMsgId true) ms1 ms2 ->
  map (on_grounding botMsgId g) ms1 = map (on_grounding botMsgId g) ms2.
Proof.
  induction 1 as [|m1 m2 ms1 ms2 Hm _ IH]; [reflexivity|].
  cbn. f_equal; [|exact IH].
  destruct (String.eqb (id m1) botMsgId) eqn:E.
  - destruct Hm as (Hid & Hrole & Hthink & Htime & Hcontent).
    rewrite E in Hcontent.
    unfold on_grounding, with_content. cbn.
    now rewrite <- Hid, <- Hrole, <- Htime, <- Hthink, E,
      (put_grounding_similar g _ _ Hcontent).
  - now rewrite (similar_message_eq _ _ _ _ Hm E).
Qed.

(** *** Rendering *)

Lemma run_updaters_app (botMsgId : string) (t : string)
    (g : list GroundingChunk) (q1 q2 : list Updater) (ms : list ChatMessage) :
  run_updaters botMsgId t g (q1 ++ q2) ms =
  run_updaters botMsgId t g q2 (run_updaters botMsgId t g q1 ms).
Proof. apply fold_left_app. Qed.

Local Arguments run_updaters : simpl never.

Lemma run_updaters_one (botMsgId : string) (t : string)
    (g : list GroundingChunk) (u : Updater) (ms : list ChatMessage) :
  run_updaters botMsgId t g [u] ms = apply_updater botMsgId t g u ms.
Proof. reflexivity. Qed.

Lemma run_updaters_nil (botMsgId : string) (t : string)
    (g : list GroundingChunk) (ms : list ChatMessage) :
  run_updaters botMsgId t g [] ms = ms.
Proof. reflexivity. Qed.

Lemma render_render (botMsgId : string) (s : Send) :
  render botMsgId (render botMsgId s) = render botMsgId s.
Proof. reflexivity. Qed.

Lemma render_setMessages (botMsgId : string) (u : Updater) (s : Send) :
  render botMsgId (setMessages u s) =
  render botMsgId (setMessages u (render botMsgId s)).
Proof. unfold render, setMessages. cbn. now rewrite run_updaters_app. Qed.

Lemma render_setIsLoading (botMsgId : string) (b : bool) (s : Send) :
  render botMsgId (on_component (setIsLoading b) s) =
  on_component (setIsLoading b) (render botMsgId s).
Proof. reflexivity. Qed.

Lemma render_console_error (botMsgId : string) (err : string) (s : Send) :
  render botMsgId (on_component (console_error err) s) =
  on_component (console_error err) (render botMsgId s).
Proof. reflexivity. Qed.

Lemma render_loop_body (botMsgId : string) (s : Send) (u : StreamUpdate) :
  render botMsgId (loop_body s u) =
  render botMsgId (loop_body (render botMsgId s) u).
Proof.
  destruct u as [c|metadata|b|c]; cbn [loop_body].
  - unfold render, setMessages. cbn.
    rewrite run_updaters_app, !run_updaters_one. unfold set_messages. cbn.
    do 2 f_equal. apply (on_text_delta_similar botMsgId false).
    apply run_updaters_similar; [discriminate | apply similar_messages_refl].
  - unfold render, setMessages. cbn.
    rewrite run_updaters_app, !run_updaters_one. unfold set_messages. cbn.
    do 2 f_equal. apply on_grounding_similar.
    apply run_updaters_similar; [reflexivity | apply similar_messages_refl].
  - apply render_setMessages.
  - reflexivity.
Qed.

Lemma render_at_await (botMsgId : string) (renders : nat -> bool) (k : nat)
    (s : Send) :
  render botMsgId (at_await botMsgId renders k s) = render botMsgId s.
Proof. unfold at_await. now destruct (renders k). Qed.

Lemma render_for_await (botMsgId : string) (renders : nat -> bool) (k : nat)
    (updates : list StreamUpdate) (s : Send) :
  render botMsgId (for_await botMsgId renders k updates s) =
  fold_left (loop_body_rendered botMsgId) updates (render botMsgId s).
Proof.
  revert k s. induction updates as [|u updates IH]; intros k s; [reflexivity|].
  cbn. rewrite IH. f_equal. unfold loop_body_rendered.
  now rewrite render_loop_body, render_at_await, <- render_loop_body.
Qed.

(** *** The loop, rendered after every update *)

Lemma message_after_nil (botMsgId : string) (t : string)
    (g : list GroundingChunk) (m : ChatMessage) :
  message_after botMsgId [] t g m = m.
Proof.
  unfold message_after. cbn. destruct (String.eqb (id m) botMsgId);
    [apply eta_message | reflexivity].
Qed.

Lemma message_after_cons (botMsgId : string) (u : StreamUpdate)
    (updates : list StreamUpdate) (t : string) (g : list GroundingChunk)
    (m : ChatMessage) :
  message_after botMsgId (u :: updates) t g m =
  match u with
  | text_delta c =>
      message_after botMsgId updates (t +:+ c) g
        (on_text_delta botMsgId (t +:+ c) g m)
  | grounding_update metadata =>
      message_after botMsgId updates t (g ++ metadata)
        (on_grounding botMsgId (g ++ metadata) m)
  | block_update b =>
      message_after botMsgId updates t g (on_block botMsgId b m)
  | thought _ => message_after botMsgId updates t g m
  end.
Proof.
  unfold message_after, on_text_delta, on_grounding, on_block.
  destruct u; destruct (String.eqb (id m) botMsgId) eqn:E; cbn; rewrite ?E;
    try reflexivity; now destruct (shows_something updates).
Qed.

Lemma set_messages_same (st : State) : set_messages (messages st) st = st.
Proof. now destruct st. Qed.

Lemma loop_rendered (botMsgId : string) (updates : list StreamUpdate)
    (t : string) (g : list GroundingChunk) (st : State) :
  fold_left (loop_body_rendered botMsgId) updates
    {| currentTextContent := t; currentGrounding := g; component := st;
       queued := [] |} =
  {| currentTextContent := t +:+ deltas updates;
     currentGrounding := g ++ groundings updates;
     component :=
       set_messages (map (message_after botMsgId updates t g) (messages st)) st;
     queued := [] |}.
Proof.
  revert t g st. induction updates as [|u updates IH]; intros t g st.
  - cbn. rewrite append_nil_r, app_nil_r.
    rewrite (map_ext _ (fun m => m)) by apply message_after_nil.
    now rewrite map_id, set_messages_same.
  - cbn [fold_left]. unfold loop_body_rendered at 2.
    destruct u as [c|metadata|b|c]; cbn [loop_body]; unfold render; cbn;
      rewrite ?run_updaters_one, ?run_updaters_nil; cbn [apply_updater];
      rewrite ?set_messages_same, IH; unfold set_messages; cbn;
      rewrite ?map_map, ?append_assoc, <- ?app_assoc;
      f_equal; f_equal; apply map_ext; intros m;
      now rewrite (message_after_cons _ _ updates).
Qed.

Lemma render_finally (botMsgId : string) (s : Send) :
  component
    (render botMsgId
       (setMessages finally_updater (on_component (setIsLoading false) s))) =
  set_messages
    (map (on_finally botMsgId) (messages (component (render botMsgId s))))
    (setIsLoading false (component (render botMsgId s))).
Proof. now rewrite render_setMessages, render_setIsLoading. Qed.

Lemma render_catch (botMsgId : string) (err : string) (s : Send) :
  component
    (render botMsgId
       (setMessages error_updater (on_component (console_error err) s))) =
  set_messages
    (map (on_error botMsgId) (messages (component (render botMsgId s))))
    (console_error err (component (render botMsgId s))).
Proof. now rewrite render_setMessages, render_console_error. Qed.

Lemma handleSend_rendered (clock : Clock) (updates : list StreamUpdate)
    (thrown : option string) (renders : nat -> bool) (st : State) :
  nothing_to_send blank st = false ->
  let botMsgId := botMsgId_of clock in
  let shown :=
    map (message_after botMsgId updates "" [])
      (messages st ++ [userMsg blank clock st; initialBotMsg clock]) in
  handleSend blank clock (updates, thrown) renders st =
  {| mode := mode st;
     messages :=
       map (on_finally botMsgId)
         (match thrown with
          | Some _ => map (on_error botMsgId) shown
          | None => shown
          end);
     input := ""; isLoading := false; attachedImage := None;
     console := console st ++ thrown_list thrown |}.
Proof.
  intros H botMsgId shown. unfold handleSend. rewrite H. cbn [fst snd].
  fold botMsgId. rewrite render_finally.
  match goal with
  | |- context [for_await botMsgId renders 0 updates ?s0] =>
      assert (E : component
                    (render botMsgId
                       (at_await botMsgId renders (length updates)
                          (for_await botMsgId renders 0 updates s0))) =
                  set_messages shown
                    (setIsLoading true
                       (setAttachedImage None (setInput "" st))))
  end.
  { rewrite render_at_await, render_for_await. unfold render at 1. cbn.
    rewrite loop_rendered. unfold run_updaters, shown. cbn.
    now rewrite <- app_assoc. }
  destruct thrown as [err|].
  - rewrite render_catch, E. reflexivity.
  - rewrite E. cbn. now rewrite app_nil_r.
Qed.

(** *** The content of the bot message *)

Lemma deltas_app (us1 us2 : list StreamUpdate) :
  deltas (us1 ++ us2) = deltas us1 +:+ deltas us2.
Proof.
  induction us1 as [|u us1 IH]; [reflexivity|].
  destruct u; unfold deltas in *; cbn [fold_right app];
    now rewrite ?IH, ?append_assoc.
Qed.

Lemma groundings_app (us1 us2 : list StreamUpdate) :
  groundings (us1 ++ us2) = groundings us1 ++ groundings us2.
Proof. apply flat_map_app. Qed.

Lemma deltas_without_delta (us : list StreamUpdate) :
  has_delta us = false -> deltas us = "".
Proof.
  induction us as [|u us IH]; [reflexivity|].
  destruct u; unfold deltas, has_delta in *; cbn [fold_right existsb orb];
    (discriminate || exact IH).
Qed.

Lemma content_after_app (us1 us2 : list StreamUpdate) (t : string)
    (g : list GroundingChunk) (l : list ContentBlock) :
  content_after (us1 ++ us2) t g l =
  content_after us2 (t +:+ deltas us1) (g ++ groundings us1)
    (content_after us1 t g l).
Proof.
  revert t g l. induction us1 as [|[c|metadata|b|c] us1 IH]; intros t g l; cbn.
  - now rewrite append_nil_r, app_nil_r.
  - now rewrite IH, append_assoc.
  - now rewrite IH, <- app_assoc.
  - apply IH.
  - apply IH.
Qed.

Lemma content_after_text (us : list StreamUpdate) (t : string)
    (g : list GroundingChunk) (pre post : list ContentBlock) :
  Forall (fun b => is_text b = false) pre ->
  content_after us t g (pre ++ text_block t (Some g) :: post) =
  pre ++ text_block (t +:+ deltas us) (Some (g ++ groundings us)) ::
    post ++ blocks us.
Proof.
  intros Hpre. revert t g post.
  induction us as [|[c|metadata|b|c] us IH]; intros t g post; cbn.
  - now rewrite append_nil_r, !app_nil_r.
  - rewrite put_text_at by exact Hpre. now rewrite IH, append_assoc.
  - rewrite put_grounding_at by exact Hpre. now rewrite IH, <- app_assoc.
  - rewrite <- app_assoc. cbn. now rewrite IH, <- app_assoc.
  - apply IH.
Qed.

Lemma content_after_without_text (us : list StreamUpdate) (t : string)
    (g : list GroundingChunk) (l : list ContentBlock) :
  has_delta us = false ->
  Forall (fun b => is_text b = false) (blocks us) ->
  Forall (fun b => is_text b = false) l ->
  content_after us t g l = l ++ blocks us.
Proof.
  revert t g l. induction us as [|[c|metadata|b|c] us IH];
    intros t g l Hd Hb Hl; cbn in *.
  - now rewrite app_nil_r.
  - discriminate.
  - rewrite put_grounding_none by exact Hl. now apply IH.
  - inversion Hb; subst. rewrite IH; [now rewrite <- app_assoc|assumption..|].
    apply Forall_app. split; [assumption | now constructor].
  - now apply IH.
Qed.

Lemma content_after_first_delta (before after : list StreamUpdate)
    (c : string) :
  has_delta before = false ->
  Forall (fun b => is_text b = false) (blocks before) ->
  let updates := before ++ text_delta c :: after in
  content_after updates "" [] [] =
  blocks before ++
  text_block (deltas updates) (Some (groundings updates)) :: blocks after.
Proof.
  intros Hd Hb updates. unfold updates.
  rewrite content_after_app, (content_after_without_text before)
    by (assumption || constructor).
  rewrite deltas_app, groundings_app, (deltas_without_delta _ Hd). cbn.
  rewrite put_text_none by exact Hb.
  now rewrite content_after_text, app_nil_l by exact Hb.
Qed.

(** *** The messages after a send *)

Lemma message_after_other (botMsgId : string) (updates : list StreamUpdate)
    (t : string) (g : list GroundingChunk) (ms : list ChatMessage) :
  Forall (fun m => id m <> botMsgId) ms ->
  map (message_after botMsgId updates t g) ms = ms.
Proof.
  induction 1 as [|m ms Hm _ IH]; [reflexivity|].
  cbn. rewrite IH. f_equal. unfold message_after.
  apply String.eqb_neq in Hm. now rewrite Hm.
Qed.

Lemma map_other (botMsgId : string) (f : ChatMessage -> ChatMessage)
    (ms : list ChatMessage) :
  (forall m, String.eqb (id m) botMsgId = false -> f m = m) ->
  Forall (fun m => id m <> botMsgId) ms -> map f ms = ms.
Proof.
  intros Hf. induction 1 as [|m ms Hm _ IH]; [reflexivity|].
  cbn. rewrite IH. f_equal. apply Hf. now apply String.eqb_neq.
Qed.

Lemma user_id_is_not_bot_id (clock : Clock) :
  (at_user_id clock <= at_bot_id clock)%Z ->
  pretty (at_user_id clock) <> botMsgId_of clock.
Proof.
  intros H E. unfold botMsgId_of in E. apply (inj pretty) in E. lia.
Qed.

Lemma handleSend_appends (clock : Clock) (updates : list StreamUpdate)
    (thrown : option string) (renders : nat -> bool) (st : State) :
  nothing_to_send blank st = false ->
  (at_user_id clock <= at_bot_id clock)%Z ->
  Forall (fun m => id m <> botMsgId_of clock) (messages st) ->
  messages (handleSend blank clock (updates, thrown) renders st) =
  messages st ++
  [userMsg blank clock st;
   {| id := botMsgId_of clock; role := MODEL;
      content := content_after updates "" [] [] ++ closing thrown;
      isThinking := Some false; timestamp := at_bot_timestamp clock |}].
Proof.
  intros Hsend Hclock Hids.
  rewrite handleSend_rendered by exact Hsend. cbn [messages].
  assert (Hall : Forall (fun m => id m <> botMsgId_of clock)
                   (messages st ++ [userMsg blank clock st])).
  { apply Forall_app. split; [exact Hids|].
    constructor; [|constructor]. now apply user_id_is_not_bot_id. }
  assert (E : map (message_after (botMsgId_of clock) updates "" [])
                (messages st ++ [userMsg blank clock st; initialBotMsg clock]) =
              (messages st ++ [userMsg blank clock st]) ++
              [{| id := botMsgId_of clock; role := MODEL;
                  content := content_after updates "" [] [];
                  isThinking :=
                    if shows_something updates then Some false else Some true;
                  timestamp := at_bot_timestamp clock |}]).
  { change [userMsg blank clock st; initialBotMsg clock]
      with ([userMsg blank clock st] ++ [initialBotMsg clock]).
    rewrite app_assoc, map_app, message_after_other by exact Hall.
    cbn. unfold message_after. cbn. now rewrite String.eqb_refl. }
  rewrite E.
  assert (F : forall f, (forall m, String.eqb (id m) (botMsgId_of clock) = false
                                   -> f m = m) ->
              forall b, map f ((messages st ++ [userMsg blank clock st]) ++ [b]) =
                        (messages st ++ [userMsg blank clock st]) ++ [f b]).
  { intros f Hf b. now rewrite map_app, (map_other _ f _ Hf Hall). }
  assert (Ferr : forall m, String.eqb (id m) (botMsgId_of clock) = false ->
                           on_error (botMsgId_of clock) m = m).
  { intros m Hm. unfold on_error. now rewrite Hm. }
  assert (Ffin : forall m, String.eqb (id m) (botMsgId_of clock) = false ->
                           on_finally (botMsgId_of clock) m = m).
  { intros m Hm. unfold on_finally. now rewrite Hm. }
  destruct thrown as [err|]; rewrite ?(F _ Ferr), (F _ Ffin), <- app_assoc;
    cbn [app]; do 3 f_equal; unfold on_finally, on_error; cbn;
    rewrite String.eqb_refl; cbn; rewrite ?String.eqb_refl; cbn;
    now rewrite ?app_nil_r.
Qed.

(** X15.  The updaters read [currentTextContent] and [currentGrounding] when
    React runs them, which may be after the loop has moved on; the state
    [handleSend] leaves is the same whenever React renders. *)
Theorem render_schedule_is_irrelevant (clock : Clock)
    (stream : list StreamUpdate * option string)
    (renders1 renders2 : nat -> bool) (st : State) :
  handleSend blank clock stream renders1 st =
  handleSend blank clock stream renders2 st.
Proof.
  destruct stream as [updates thrown].
  destruct (nothing_to_send blank st) eqn:E.
  - unfold handleSend. now rewrite E.
  - now rewrite !handleSend_rendered by exact E.
Qed.

(** X16.  A reply with text: the bot message holds the blocks yielded before
    the first delta, then one text block with all the deltas and all the
    grounding chunks of the reply, then the blocks yielded after, then the
    interruption notice if the generator threw.  Earlier messages and the
    user message are as they were. *)
Theorem reply_with_text (clock : Clock) (before after : list StreamUpdate)
    (c : string) (thrown : option string) (renders : nat -> bool)
    (st : State) :
  nothing_to_send blank st = false ->
  (at_user_id clock <= at_bot_id clock)%Z ->
  Forall (fun m => id m <> botMsgId_of clock) (messages st) ->
  has_delta before = false ->
  Forall (fun b => is_text b = false) (blocks before) ->
  let updates := before ++ text_delta c :: after in
  messages (handleSend blank clock (updates, thrown) renders st) =
  messages st ++
  [userMsg blank clock st;
   {| id := botMsgId_of clock; role := MODEL;
      content :=
        blocks before ++
        [text_block (deltas updates) (Some (groundings updates))] ++
        blocks after ++ closing thrown;
      isThinking := Some false; timestamp := at_bot_timestamp clock |}].
Proof.
  intros Hsend Hclock Hids Hd Hb updates.
  rewrite handleSend_appends by assumption.
  unfold updates. rewrite content_after_first_delta by assumption.
  now rewrite <- app_assoc.
Qed.

(** X17.  A reply without text: the bot message holds the blocks, and the
    interruption notice if the generator threw; the grounding chunks of such
    a reply are shown nowhere. *)
Theorem reply_without_text (clock : Clock) (updates : list StreamUpdate)
    (thrown : option string) (renders : nat -> bool) (st : State) :
  nothing_to_send blank st = false ->
  (at_user_id clock <= at_bot_id clock)%Z ->
  Forall (fun m => id m <> botMsgId_of clock) (messages st) ->
  has_delta updates = false ->
  Forall (fun b => is_text b = false) (blocks updates) ->
  messages (handleSend blank clock (updates, thrown) renders st) =
  messages st ++
  [userMsg blank clock st;
   {| id := botMsgId_of clock; role := MODEL;
      content := blocks updates ++ closing thrown;
      isThinking := Some false; timestamp := at_bot_timestamp clock |}].
Proof.
  intros Hsend Hclock Hids Hd Hb.
  rewrite handleSend_appends by assumption.
  now rewrite content_after_without_text by (assumption || constructor).
Qed.

Lemma id_message_after (botMsgId : string) (updates : list StreamUpdate)
    (t : string) (g : list GroundingChunk) (m : ChatMessage) :
  id (message_after botMsgId updates t g m) = id m.
Proof. unfold message_after. now destruct (String.eqb (id m) botMsgId). Qed.

Lemma id_on_error (botMsgId : string) (m : ChatMessage) :
  id (on_error botMsgId m) = id m.
Proof. unfold on_error. now destruct (String.eqb (id m) botMsgId). Qed.

Lemma id_on_finally (botMsgId : string) (m : ChatMessage) :
  id (on_finally botMsgId m) = id m.
Proof. unfold on_finally. now destruct (String.eqb (id m) botMsgId). Qed.

Lemma map_id_map (f : ChatMessage -> ChatMessage) (ms : list ChatMessage) :
  (forall m, id (f m) = id m) -> map id (map f ms) = map id ms.
Proof. intros Hf. rewrite map_map. now apply map_ext. Qed.

(** X18.  Whatever the generator yields or throws, a send that starts
    ends: the loading flag is down, the input and the attachment are
    cleared, the console has the thrown error and nothing else new, two
    messages were added, and no message with the bot's id is left
    thinking. *)
Theorem send_always_settles (clock : Clock)
    (stream : list StreamUpdate * option string) (renders : nat -> bool)
    (st : State) :
  nothing_to_send blank st = false ->
  let st' := handleSend blank clock stream renders st in
  isLoading st' = false /\ input st' = "" /\ attachedImage st' = None /\
  console st' = console st ++ thrown_list stream.2 /\
  map id (messages st') =
    map id (messages st) ++ [pretty (at_user_id clock); botMsgId_of clock] /\
  Forall (fun m => id m = botMsgId_of clock -> isThinking m = Some false)
    (messages st').
Proof.
  intros Hsend st'. unfold st'. destruct stream as [updates thrown].
  rewrite handleSend_rendered by exact Hsend. cbn.
  repeat split.
  - rewrite (map_id_map _ _ (id_on_finally _)).
    destruct thrown; rewrite ?(map_id_map _ _ (id_on_error _)),
      (map_id_map _ _ (id_message_after _ _ _ _)), map_app; reflexivity.
  - apply Forall_map, Forall_forall. intros m _ Hm.
    rewrite id_on_finally in Hm. apply String.eqb_eq in Hm.
    unfold on_finally. now rewrite Hm.
Qed.

End AppFacts.


(** ** The theorems at work on the scenarios *)

Import LiveInterface Scenarios.

Local Open Scope Q_scope.

Lemma durations_back_to_back :
  Forall (@duration_nonneg Frame) back_to_back.
Proof. repeat (constructor; [by_computation|]). constructor. Qed.

(** The scenario of the specification: chunks of 1.0 s, 0.5 s and 2.0 s
    arriving back to back are started at 0.0, 1.0 and 1.5, and the cursor
    ends at 3.5. *)
Example back_to_back_schedule :
  started (state_after back_to_back) =
    [{| when := 0; buffer := seconds 1 |};
     {| when := 1; buffer := seconds (1 # 2) |};
     {| when := 3 # 2; buffer := seconds 2 |}] /\
  nextStartTimeRef (state_after back_to_back) = 7 # 2.
Proof. by_computation. Qed.

(** The scenario of the specification: after a chunk of 1.0 s and a stall
    until the output clock reads 6.0, the next chunk is started at 6.0. *)
Example resync_after_stall :
  started (LiveInterface.run frame_bytes (state_after stalled)
             [Inbound (Some chunk); DecodeSettled 0 (Some (seconds 1))]) =
    [{| when := 0; buffer := seconds 1 |};
     {| when := 6; buffer := seconds 1 |}].
Proof. by_computation. Qed.

(** Frames captured once the session is active reach the session in capture
    order. *)
Example frames_in_capture_order :
  option_map LiveSession.sent
    (sessionRef (state_after (connect_ok ++
       [AudioProcess [x01; x02]; AudioProcess [x03; x04]]))) =
  Some [(0%nat, LiveSession.realtimeInput frame_bytes [x01; x02]);
        (0%nat, LiveSession.realtimeInput frame_bytes [x03; x04])].
Proof. by_computation. Qed.

(** The microphone is refused: [stopSession] closes the two contexts, the
    only resources acquired. *)
Example stop_after_denied_microphone :
  let st := (stopSession (state_after microphone_denied)).1 in
  status st = error /\
  option_map state (inputCtxRef st) = Some closed /\
  option_map state (outputCtxRef st) = Some closed /\
  streamRef st = None /\ processorRef st = None /\ sessionRef st = None.
Proof. by_computation. Qed.


(** The doubles of 0.1 and 0.7, and their sum as JavaScript computes it:
    0.7999999999999999, below the exact sum and below the double of 0.8. *)
Example sum_of_doubles :
  nearest_double (1 # 10) = 3602879701896397 # 36028797018963968 /\
  nearest_double (7 # 10) = 3152519739159347 # 4503599627370496 /\
  js_add (nearest_double (1 # 10)) (nearest_double (7 # 10)) =
    7205759403792793 # 9007199254740992 /\
  js_add (nearest_double (1 # 10)) (nearest_double (7 # 10)) <
    nearest_double (1 # 10) + nearest_double (7 # 10) /\
  nearest_double (8 # 10) = 3602879701896397 # 4503599627370496.
Proof. by_computation. Qed.

(** Chunks of 0.1 s, 0.7 s and 0.1 s back to back: the third source is
    started at 0.7999999999999999. *)
Example schedule_of_tenths :
  map when
    (started (LiveInterface.run_with frame_bytes js_add
                (state_after connect_ok) tenths)) =
  [0; 3602879701896397 # 36028797018963968;
   7205759403792793 # 9007199254740992].
Proof. by_computation. Qed.

(** C1 as it is worded fails.  A chunk arrives at clock 0 and its decoding
    settles at clock 2: the source is started with [when] 0 and plays from 2
    to 3, while the cursor is set to 1.  The next chunk arrives at clock
    2.5, before the first buffer has finished playing; the clock is past
    the cursor, so the cursor is set to 2.5 and the second source starts at
    2.5, not at 0 + 1. *)
Lemma next_chunk_while_late_buffer_plays :
  let st := state_after decoding_late in
  option_map currentTime (outputCtxRef st) = Some 2 /\
  started (LiveInterface.run_with frame_bytes js_add st next_while_playing) =
    [{| when := 0; buffer := seconds 1 |};
     {| when := 5 # 2; buffer := seconds 1 |}] /\
  ~ gapless_while_playing frame_bytes js_add st.
Proof.
  split; [by_computation|]. split; [by_computation|].
  intros H.
  specialize (H 0%nat (seconds 1) (1 # 2) chunk 0%nat (seconds 1)
                {| sampleRate := 24000; state := running; currentTime := 2 |}
                {| sampleRate := 24000; state := running;
                   currentTime := 5 # 2 |}
                {| when := 0; buffer := seconds 1 |}
                {| when := 5 # 2; buffer := seconds 1 |}).
  assert (E : 5 # 2 == 0 + 1) by (apply H; by_computation).
  vm_compute in E. discriminate E.
Qed.

Lemma gapless_scheduling_witness :
  let st := LiveInterface.run frame_bytes initial connect_ok in
  let st' := LiveInterface.run_with frame_bytes js_add st three_chunks in
  LiveInterface.along frame_bytes js_add arrives_in_time st three_chunks /\
  LiveInterface.along frame_bytes js_add settles_in_flight st three_chunks /\
  started st' =
    [{| when := 0; buffer := seconds 1 |};
     {| when := 1; buffer := seconds (1 # 2) |};
     {| when := 3 # 2; buffer := seconds 2 |}] /\
  nextStartTimeRef st' = 7 # 2 /\
  length (decoding st') = 0%nat.
Proof.
  intros st st'.
  assert (Ha : LiveInterface.along frame_bytes js_add arrives_in_time st
                 three_chunks) by by_computation.
  assert (Hf : LiveInterface.along frame_bytes js_add settles_in_flight st
                 three_chunks) by by_computation.
  destruct (gapless_scheduling frame_bytes js_add st three_chunks
              ltac:(by_computation) ltac:(by_computation) Ha Hf)
    as (H1 & H2 & H3).
  split; [exact Ha|]. split; [exact Hf|]. fold st' in H1, H2, H3.
  split; [rewrite H1; by_computation|].
  split; [rewrite H2; by_computation|].
  assert (A : length (List.filter is_settling three_chunks) = 3%nat)
    by (vm_compute; reflexivity).
  assert (B : length (List.filter decodable three_chunks) = 3%nat)
    by (vm_compute; reflexivity).
  assert (C : length (decoding st) = 0%nat) by (vm_compute; reflexivity).
  rewrite A, B, C in H3. lia.
Defined.





Lemma cursor_never_decreases_witness :
  Forall (@duration_nonneg Frame) back_to_back /\
  0 <= duration (seconds 2) /\
  nextStartTimeRef initial <= nextStartTimeRef (state_after back_to_back).
Proof.
  assert (H2 : 0 <= duration (seconds 2)) by by_computation.
  split; [exact durations_back_to_back|]. split; [exact H2|].
  exact (proj1 (cursor_never_decreases frame_bytes initial back_to_back chunk
                  (seconds 2) durations_back_to_back H2)).
Defined.

(** C4 as worded fails.  The cursor is 1.0 after the last advance; a chunk
    that is not base64 arrives while the output clock reads 6.0: the cursor
    is resynced to 6.0 before the decoding fails, and nothing is written to
    the console. *)
Lemma decode_failure_resyncs_and_is_not_logged :
  let st := state_after stalled in
  let st' := callback (LiveSession.onAudioData garbled) st in
  AudioUtils.b64ToUint8Array garbled = None /\
  nextStartTimeRef st = 1 /\
  nextStartTimeRef st' = 6 /\
  console st' = console st /\
  ~ decode_failure_contained st garbled.
Proof.
  intros st st'. do 4 (split; [by_computation|]).
  intros (_ & H & _). vm_compute in H. discriminate H.
Qed.

Lemma decode_failure_skips_chunk_witness :
  let st := state_after stalled in
  let ctx := {| sampleRate := 24000; state := running; currentTime := 6 |} in
  outputCtxRef st = Some ctx /\
  AudioUtils.b64ToUint8Array garbled = None /\
  callback (LiveSession.onAudioData garbled) st =
  reject_unhandled
    (set_nextStartTimeRef (Qmax (nextStartTimeRef st) (currentTime ctx)) st).
Proof.
  intros st ctx.
  assert (H1 : outputCtxRef st = Some ctx) by by_computation.
  assert (H2 : AudioUtils.b64ToUint8Array garbled = None) by by_computation.
  split; [exact H1|]. split; [exact H2|].
  exact (proj1 (decode_failure_skips_chunk frame_bytes st garbled ctx H1 H2)).
Defined.

(** C5 as worded fails.  The session is active; after [stopSession] has run
    twice the tracks are ended, the node disconnected and both contexts
    closed, but the remote session is still open. *)
Lemma remote_session_open_after_teardown :
  let st := LiveInterface.run frame_bytes (state_after connect_ok)
              [Unmount; Unmount] in
  local_released st /\
  option_map LiveSession.connections (sessionRef st) =
    Some [{| LiveSession.settlement := LiveSession.Fulfilled;
             LiveSession.reactions := [];
             LiveSession.remote_closed := false |}] /\
  ~ teardown_releases_all frame_bytes (state_after connect_ok).
Proof.
  split; [|split; [by_computation|]].
  - vm_compute. repeat split; intros x [= <-]; repeat constructor.
  - intros [_ H]. vm_compute in H.
    destruct (H _ eq_refl 0%nat _ eq_refl) as [E|E]; discriminate E.
Qed.



Lemma sendAudio_before_connect_witness :
  LiveSession.sessionPromise LiveSession.new = None /\
  LiveSession.sendAudio frame_bytes [x01; x02] LiveSession.new =
  LiveSession.new.
Proof.
  split; [reflexivity|].
  exact (sendAudio_before_connect frame_bytes [x01; x02] LiveSession.new
           eq_refl).
Defined.

(** The text of three bytes, and back. *)
Example base64_of_Man :
  AudioUtils.arrayBufferToBase64 [x4d; x61; x6e] = "TWFu" /\
  AudioUtils.arrayBufferToBase64 [x4d; x61] = "TWE=" /\
  AudioUtils.arrayBufferToBase64 [x4d] = "TQ==" /\
  AudioUtils.b64ToUint8Array "TWE=" = Some [x4d; x61] /\
  AudioUtils.b64ToUint8Array "TWF" = None.
Proof. by_computation. Qed.

Lemma start_times_nonnegative_witness :
  Forall (fun b => 0 <= when b) (started (state_after back_to_back)) /\
  0 <= nextStartTimeRef (state_after back_to_back).
Proof.
  exact (start_times_nonnegative frame_bytes back_to_back
           durations_back_to_back).
Defined.

Lemma pending_frames_wait_for_handshake_witness :
  let st := LiveSession.connect LiveSession.new in
  let st1 :=
    (LiveSession.step frame_bytes st
       (LiveSession.Script
          (map LiveSession.SendAudio [[x01; x02]; [x03; x04]]))).1 in
  let st2 := (LiveSession.step frame_bytes st1 (LiveSession.Settle 0 true)).1 in
  LiveSession.sent st1 = [] /\
  LiveSession.sent st2 =
    [(0%nat, LiveSession.realtimeInput frame_bytes [x01; x02]);
     (0%nat, LiveSession.realtimeInput frame_bytes [x03; x04])] /\
  LiveSession.unhandled st2 = 0%nat.
Proof.
  exact (pending_frames_wait_for_handshake frame_bytes
           [[x01; x02]; [x03; x04]] (LiveSession.connect LiveSession.new) 0
           {| LiveSession.settlement := LiveSession.Pending;
              LiveSession.reactions := [];
              LiveSession.remote_closed := false |}
           true eq_refl eq_refl eq_refl eq_refl eq_refl).
Defined.

Lemma active_session_is_set_up_witness :
  status (state_after connect_ok) = active /\
  wired (state_after connect_ok) = true /\
  exists session c,
    sessionRef (state_after connect_ok) = Some session /\
    LiveSession.connections session = [c] /\
    LiveSession.settlement c = LiveSession.Fulfilled.
Proof.
  unfold state_after.
  assert (H : status (LiveInterface.run frame_bytes initial connect_ok) =
              active) by by_computation.
  destruct (active_session_is_set_up frame_bytes connect_ok) as [H1 H2].
  split; [exact H|]. split; [exact (proj1 (H1 H))|].
  exact (H2 (proj1 (H1 H))).
Defined.

Lemma captured_frame_is_sent_at_once_witness :
  exists session session',
    sessionRef (state_after connect_ok) = Some session /\
    sessionRef (LiveInterface.step frame_bytes (state_after connect_ok)
                  (AudioProcess [x01; x02])) = Some session' /\
    LiveSession.sent session' =
      LiveSession.sent session ++
      [(0%nat, LiveSession.realtimeInput frame_bytes [x01; x02])].
Proof.
  exact (captured_frame_is_sent_at_once frame_bytes connect_ok [x01; x02]
           {| bufferSize := 4096; onaudioprocess := true;
              fed_by_source := true; connected := true |}
           {| sampleRate := 16000; state := running; currentTime := 0 |}
           ltac:(by_computation) ltac:(by_computation) eq_refl).
Defined.

Lemma failed_start_releases_nothing_witness :
  let st := state_after [Mount] in
  let st' := LiveInterface.step frame_bytes st (UserMedia None) in
  status st' = error /\
  console st' = console st ++ ["Failed to start live session"] /\
  streamRef st' = streamRef st /\
  processorRef st' = processorRef st /\
  inputCtxRef st' = inputCtxRef st /\
  outputCtxRef st' = outputCtxRef st.
Proof.
  exact (failed_start_releases_nothing frame_bytes (state_after [Mount])
           (UserMedia None) (or_introl (conj eq_refl eq_refl))).
Defined.

Lemma microphone_stays_open_until_unmount_witness :
  streamRef
    (state_after
       ([Mount; Unmount] ++
        UserMedia (Some [live; live]) :: [Handshake true; RemoteClose])) =
  Some [live; live].
Proof.
  exact (microphone_stays_open_until_unmount frame_bytes [Mount; Unmount]
           [Handshake true; RemoteClose] [live; live]
           ltac:(by_computation)
           ltac:(repeat constructor; discriminate)).
Defined.

(** ** The theorems at work on the replies *)

Import Types GeminiService App Replies.

Example spoken_reply_updates :
  streamOrchestrateResponse spoken_reply None =
  ([thought "Generating audio...";
    block_update (audio_block "data:audio/wav;base64,AAAA" (Some "Hi"));
    text_delta "Hello"; grounding_update [source]; text_delta " there"],
   None).
Proof. reflexivity. Qed.

Example missing_image_args_end_the_stream :
  streamOrchestrateResponse
    [{| chunk_text := Some "Here it is"; groundingChunks := None;
        functionCalls := Some [draw_nothing; say] |}] None =
  ([text_delta "Here it is"],
   Some "TypeError: Cannot read properties of undefined (reading 'prompt')").
Proof. reflexivity. Qed.

Lemma forwarded_attachment_was_announced_as_image_witness :
  requestParts "Make it blue" (Some png) =
  [inlineData_part "image/png" (Some "iVBORw0KGgo=");
   text_part (Some "User attached an image. Make it blue")].
Proof.
  exact (forwarded_attachment_was_announced_as_image (Some "blue")
           "Make it blue" png (or_introl eq_refl)).
Defined.

Lemma played_audio_is_generated_audio_witness :
  exists url,
    generateAudio (Some "Hi") (Some [wav]) =
      Some (audio_block url (Some "Hi")) /\
    AudioPlayer.base64_of url = Some "AAAA".
Proof.
  destruct (played_audio_is_generated_audio (Some "Hi") wav []
              {| blob_mimeType := Some "audio/wav"; blob_data := Some "AAAA" |}
              eq_refl) as (url & H1 & _ & H3).
  exists url. split; [exact H1 | exact (H3 "AAAA" eq_refl eq_refl)].
Defined.

Lemma attachment_url_round_trip_witness :
  let result := "data:image/png;base64,iVBORw0KGgo=" in
  let st' := onloadend (Some result) "image/png" asking in
  attachedImage st' = Some png /\
  In (inlineData_part "image/png" (Some "iVBORw0KGgo=")) (request st') /\
  exists rest,
    userContent blank st' = image_block result (Some "User Upload") :: rest.
Proof.
  exact (attachment_url_round_trip blank "image/png" "iVBORw0KGgo=" asking
           eq_refl eq_refl).
Defined.

Lemma reply_with_text_witness :
  messages
    (handleSend blank clock
       ([thought "Generating audio...";
         block_update (audio_block "data:audio/wav;base64,AAAA" (Some "Hi"));
         text_delta "Hello"; grounding_update [source]; text_delta " there"],
        None) never asking) =
  messages asking ++
  [userMsg blank clock asking;
   {| id := botMsgId_of clock; role := MODEL;
      content :=
        [audio_block "data:audio/wav;base64,AAAA" (Some "Hi");
         text_block "Hello there" (Some [source])];
      isThinking := Some false; timestamp := 1700000000003 |}].
Proof.
  exact (reply_with_text blank clock
           [thought "Generating audio...";
            block_update (audio_block "data:audio/wav;base64,AAAA" (Some "Hi"))]
           [grounding_update [source]; text_delta " there"] "Hello" None
           never asking eq_refl ltac:(cbn; lia) ltac:(repeat constructor; vm_compute; discriminate) eq_refl
           ltac:(repeat constructor)).
Defined.

Lemma reply_without_text_witness :
  messages
    (handleSend blank clock
       ([grounding_update [source]; thought "Generating audio...";
         block_update (audio_block "data:audio/wav;base64,AAAA" (Some "Hi"))],
        Some "Error: network") never asking) =
  messages asking ++
  [userMsg blank clock asking;
   {| id := botMsgId_of clock; role := MODEL;
      content :=
        [audio_block "data:audio/wav;base64,AAAA" (Some "Hi"); interrupted];
      isThinking := Some false; timestamp := 1700000000003 |}].
Proof.
  exact (reply_without_text blank clock
           [grounding_update [source]; thought "Generating audio...";
            block_update (audio_block "data:audio/wav;base64,AAAA" (Some "Hi"))]
           (Some "Error: network") never asking eq_refl ltac:(cbn; lia)
           ltac:(repeat constructor; vm_compute; discriminate) eq_refl ltac:(repeat constructor)).
Defined.

Lemma send_always_settles_witness :
  let st' :=
    handleSend blank clock (streamOrchestrateResponse spoken_reply None)
      never asking in
  isLoading st' = false /\ input st' = "" /\ attachedImage st' = None /\
  console st' = [] /\
  map id (messages st') =
    ["1699999999000"; pretty 1700000000000%Z; botMsgId_of clock] /\
  Forall (fun m => id m = botMsgId_of clock -> isThinking m = Some false)
    (messages st').
Proof.
  exact (send_always_settles blank clock
           (streamOrchestrateResponse spoken_reply None) never asking eq_refl).
Defined.
